(** * recaptcha-v2-solver: the challenge watcher and the solving loops

    A shallow embedding of the polling observer ([CaptchaWatcher]), of the
    visual solving protocol (tile analysis, tile clicks, verification) and of
    the audio solving protocol (download, transcription, blocked signals),
    followed by the properties the specification states about them.

    Conventions.
    - A JavaScript value that may be [null] is an [option]; a string is a
      [string]; truthiness is written out ([truthy_string]).
    - An awaited call on the page, a frame or a remote service is answered by
      the environment: its answer is an [Outcome], a returned value or a
      thrown error, and [try]/[catch] blocks are written out on it.
    - The callbacks of the watcher are recorded as a chronological list of
      [Event]s; the actions of a solver are recorded in a trace.
    - A number is an IEEE 754 double, and [Number] converts a string to one
      as JavaScript does. *)

From Stdlib Require Import String Ascii List ZArith Lia Bool Arith.
From Stdlib Require Import DecimalString DecimalNat.
Import ListNotations.
Open Scope string_scope.
Open Scope list_scope.

Set Implicit Arguments.

(** ** JavaScript values shared by all components *)

(** The result of an awaited call: it returns or it throws. *)
Inductive Outcome (A : Type) : Type :=
| Returned (a : A)
| Threw (message : string).
Arguments Returned {A} a.
Arguments Threw {A} message.

(** [!s] is true of the empty string only. *)
Definition truthy_string (s : string) : bool := negb (s =? "").

(** Truthiness of a nullable string: [null] and [""] are falsy. *)
Definition truthy_opt (o : option string) : bool :=
  match o with
  | Some s => truthy_string s
  | None => false
  end.

(** [l.some((x, index) => f(index, x))], started at index [i]. *)
Fixpoint some_indexed {A : Type} (f : nat -> A -> bool) (i : nat) (l : list A) : bool :=
  match l with
  | [] => false
  | x :: l' => f i x || some_indexed f (S i) l'
  end.

(** ** Asynchronous functions

    An async function is run against an environment that answers its awaited
    calls. The state counts the calls made so far ([tick]: a call made when
    the counter stands at [n] gets the answer [oracle n]) and records the
    actions taken ([trace], in order). The promise of the function is fulfilled ([Done]), rejected
    ([Raised]), never settled because it waits for an event that does not
    come ([Hung]), or the recursion went deeper than the fuel given
    ([OutOfFuel]). *)

Inductive Res (A : Type) : Type :=
| Done (a : A)
| Raised (message : string)
| Hung
| OutOfFuel.
Arguments Done {A} a.
Arguments Raised {A} message.
Arguments Hung {A}.
Arguments OutOfFuel {A}.

Record St (Act : Type) : Type := mkSt {
  tick : nat;
  trace : list Act
}.

Definition M (Act A : Type) : Type := St Act -> Res A * St Act.

Definition ret {Act A : Type} (a : A) : M Act A := fun st => (Done a, st).

Definition bind {Act A B : Type} (m : M Act A) (k : A -> M Act B) : M Act B :=
  fun st =>
    match m st with
    | (Done a, st') => k a st'
    | (Raised e, st') => (Raised e, st')
    | (Hung, st') => (Hung, st')
    | (OutOfFuel, st') => (OutOfFuel, st')
    end.

Notation "x <- m ;; k" := (bind m (fun x => k))
  (at level 61, m at next level, right associativity).

(** [throw new Error(message)]. *)
Definition raise {Act A : Type} (message : string) : M Act A :=
  fun st => (Raised message, st).

(** Waiting for a promise that is never settled. *)
Definition hang {Act A : Type} : M Act A := fun st => (Hung, st).

Definition outOfFuel {Act A : Type} : M Act A := fun st => (OutOfFuel, st).

(** A read of the surroundings that cannot fail. *)
Definition ask {Act A : Type} (oracle : nat -> A) : M Act A :=
  fun st => (Done (oracle (tick st)), mkSt (S (tick st)) (trace st)).

(** An awaited call, which returns or throws. *)
Definition await {Act A : Type} (oracle : nat -> Outcome A) : M Act A :=
  fun st =>
    match oracle (tick st) with
    | Returned a => (Done a, mkSt (S (tick st)) (trace st))
    | Threw e => (Raised e, mkSt (S (tick st)) (trace st))
    end.

(** An action of the solver, recorded in the trace. *)
Definition act {Act : Type} (a : Act) : M Act unit :=
  fun st => (Done tt, mkSt (tick st) (trace st ++ [a])).

(** [try { body } catch (e) { handler }]. *)
Definition try_catch {Act A : Type} (body : M Act A) (handler : string -> M Act A)
  : M Act A :=
  fun st =>
    match body st with
    | (Raised e, st') => handler e st'
    | r => r
    end.

(** [try { body } finally { a }] for a final block that is one action: it
    runs when the body returns or throws. *)
Definition finally {Act A : Type} (body : M Act A) (a : Act) : M Act A :=
  fun st =>
    match body st with
    | (Done r, st') => (Done r, mkSt (tick st') (trace st' ++ [a]))
    | (Raised e, st') => (Raised e, mkSt (tick st') (trace st' ++ [a]))
    | r => r
    end.

Definition start {Act : Type} : St Act := mkSt 0 [].

(** The promise is settled: fulfilled or rejected. *)
Definition settled {A : Type} (r : Res A) : Prop :=
  match r with
  | Done _ | Raised _ => True
  | Hung | OutOfFuel => False
  end.

(** Every run of [m] settles. *)
Definition total {Act A : Type} (m : M Act A) : Prop :=
  forall st, settled (fst (m st)).

(** [m] leaves the quantity [f] of the state unchanged. *)
Definition preserves {Act A : Type} (f : St Act -> nat) (m : M Act A) : Prop :=
  forall st, f (snd (m st)) = f st.

(** The call counter never goes back. *)
Definition advances {Act A : Type} (m : M Act A) : Prop :=
  forall st, (tick st <= tick (snd (m st)))%nat.

(** The number of actions of a trace that satisfy [p]. *)
Definition count {Act : Type} (p : Act -> bool) (tr : list Act) : nat :=
  length (filter p tr).

Definition counting {Act : Type} (p : Act -> bool) (st : St Act) : nat :=
  count p (trace st).

(** ** Strings

    A string is a sequence of 8-bit code units. *)

(** [s.startsWith(p)]. *)
Fixpoint startsWith (p s : string) : bool :=
  match p with
  | EmptyString => true
  | String a p' =>
      match s with
      | EmptyString => false
      | String b s' => (a =? b)%char && startsWith p' s'
      end
  end.

(** All the code units of a string satisfy [p]. *)
Fixpoint all_chars (p : ascii -> bool) (s : string) : bool :=
  match s with
  | EmptyString => true
  | String c s' => p c && all_chars p s'
  end.

(** [s.includes(sub)]. *)
Fixpoint includes (sub s : string) : bool :=
  startsWith sub s ||
  match s with
  | EmptyString => false
  | String _ s' => includes sub s'
  end.

(** [s.split(sep)] for a non-empty separator: [skip] counts the code units
    of a separator occurrence that are still to be dropped. *)
Fixpoint split_from (sep : string) (skip : nat) (s : string) : list string :=
  match s with
  | EmptyString => [EmptyString]
  | String c s' =>
      match skip with
      | S k => split_from sep k s'
      | O =>
          if startsWith sep s then EmptyString :: split_from sep (String.length sep - 1) s'
          else
            match split_from sep 0 s' with
            | h :: t => String c h :: t
            | [] => [String c EmptyString]
            end
      end
  end.

Definition split (sep s : string) : list string := split_from sep 0 s.

(** White space of [trim] and of the conversion of a string to a number:
    tab, line feed, vertical tab, form feed, carriage return, space and
    no-break space. *)
Definition is_space (c : ascii) : bool :=
  let n := nat_of_ascii c in
  ((9 <=? n)%nat && (n <=? 13)%nat) || (n =? 32)%nat || (n =? 160)%nat.

Fixpoint trimStart (s : string) : string :=
  match s with
  | EmptyString => EmptyString
  | String c s' => if is_space c then trimStart s' else s
  end.

Fixpoint trimEnd (s : string) : string :=
  match s with
  | EmptyString => EmptyString
  | String c s' =>
      match trimEnd s' with
      | EmptyString => if is_space c then EmptyString else String c EmptyString
      | t => String c t
      end
  end.

(** [s.trim()]. *)
Definition trim (s : string) : string := trimEnd (trimStart s).

(** [s.substring(indexStart, indexEnd)]: both indices are clamped to the
    length of the string and swapped when the first is the larger. *)
Definition clamp (len : nat) (i : Z) : nat := Nat.min (Z.to_nat i) len.

Definition js_substring (s : string) (indexStart indexEnd : Z) : string :=
  let a := clamp (String.length s) indexStart in
  let b := clamp (String.length s) indexEnd in
  substring (Nat.min a b) (Nat.max a b - Nat.min a b) s.

(** ** Numbers

    A number is an IEEE 754 double. The finite doubles are integer
    multiples of 2^-1074, the least positive double: [Finite k] is the
    double [k * 2^-1074]. The two zeros are one value here; no operation
    below tells them apart ([tiles[-0]] is [tiles[0]]). *)

Inductive number : Type :=
| NaN
| Infinity (negative : bool)
| Finite (k : Z).

(** The number of least positive doubles in 1. *)
Definition scale : Z := (2 ^ 1074)%Z.

(** The double of an integer; it is that integer up to 2^53. *)
Definition integer (z : Z) : number := Finite (z * scale).

(** The integer nearest to [n / d], the even one of two that are equally
    near ([0 <= n], [0 < d]). *)
Definition nearestEven (n d : Z) : Z :=
  let q := (n / d)%Z in
  let r := (n mod d)%Z in
  if (2 * r <? d)%Z then q
  else if (d <? 2 * r)%Z then (q + 1)%Z
  else if Z.even q then q else (q + 1)%Z.

(** The binary exponent of [n / d]: the largest [e] with [2^e <= n / d]
    ([0 < n], [0 < d]). *)
Definition exponent (n d : Z) : Z :=
  if (d <=? n)%Z then Z.log2 (n / d)
  else (- Z.log2_up ((d + n - 1) / n))%Z.

(** The double nearest to [n / d] for [0 < n] and [0 < d], ties to even: a
    significand of 53 bits, or fewer below 2^-1022; from 2^1024 on the
    result is infinite. *)
Definition roundPositive (n d : Z) : number :=
  let e := exponent n d in
  let q := Z.max (e - 52) (-1074) in
  let m := if (0 <=? q)%Z then nearestEven n (d * 2 ^ q)
           else nearestEven (n * 2 ^ (- q)) d in
  let k := (m * 2 ^ (q + 1074))%Z in
  if (k <? 2 ^ 2098)%Z then Finite k else Infinity false.

(** [-x]. *)
Definition negate (x : number) : number :=
  match x with
  | NaN => NaN
  | Infinity negative => Infinity (negb negative)
  | Finite k => Finite (- k)
  end.

(** The double nearest to [n / d] ([0 < d]). *)
Definition round (n d : Z) : number :=
  if (n =? 0)%Z then Finite 0
  else if (0 <? n)%Z then roundPositive n d
  else negate (roundPositive (- n) d).

(** [x + y], [x - y] and [x * y]. *)
Definition add (x y : number) : number :=
  match x, y with
  | NaN, _ | _, NaN => NaN
  | Infinity a, Infinity b => if Bool.eqb a b then Infinity a else NaN
  | Infinity a, Finite _ => Infinity a
  | Finite _, Infinity b => Infinity b
  | Finite a, Finite b => round (a + b) scale
  end.

Definition sub (x y : number) : number := add x (negate y).

Definition mul (x y : number) : number :=
  match x, y with
  | NaN, _ | _, NaN => NaN
  | Infinity a, Infinity b => Infinity (xorb a b)
  | Infinity a, Finite k => if (k =? 0)%Z then NaN else Infinity (xorb a (k <? 0)%Z)
  | Finite k, Infinity b => if (k =? 0)%Z then NaN else Infinity (xorb (k <? 0)%Z b)
  | Finite a, Finite b => round (a * b) (scale * scale)
  end.

(** [x] is at least the integer [z]. *)
Definition atLeast (z : Z) (x : number) : Prop :=
  match x with
  | NaN => False
  | Infinity negative => negative = false
  | Finite k => (z * scale <= k)%Z
  end.

(** *** The conversion of a string to a number *)

Definition is_digit (c : ascii) : bool :=
  let n := nat_of_ascii c in (48 <=? n)%nat && (n <=? 57)%nat.

Definition is_hex_digit (c : ascii) : bool :=
  let n := nat_of_ascii c in
  is_digit c || ((97 <=? n)%nat && (n <=? 102)%nat) || ((65 <=? n)%nat && (n <=? 70)%nat).

Definition is_octal_digit (c : ascii) : bool :=
  let n := nat_of_ascii c in (48 <=? n)%nat && (n <=? 55)%nat.

Definition is_binary_digit (c : ascii) : bool :=
  let n := nat_of_ascii c in (48 <=? n)%nat && (n <=? 49)%nat.

(** The value of a digit, the letters of a hexadecimal literal included. *)
Definition digit_value (c : ascii) : Z :=
  let n := nat_of_ascii c in
  if (97 <=? n)%nat then Z.of_nat (n - 87)
  else if (65 <=? n)%nat then Z.of_nat (n - 55)
  else Z.of_nat (n - 48).

(** The value of a sequence of digits. *)
Fixpoint numeral (radix acc : Z) (s : string) : Z :=
  match s with
  | EmptyString => acc
  | String c s' => numeral radix (radix * acc + digit_value c) s'
  end.

(** A non-empty sequence of code units that satisfy [p]. *)
Definition some_chars (p : ascii -> bool) (s : string) : bool :=
  match s with
  | EmptyString => false
  | _ => all_chars p s
  end.

(** The longest prefix of [s] whose code units satisfy [p], and the rest. *)
Fixpoint span (p : ascii -> bool) (s : string) : string * string :=
  match s with
  | EmptyString => (EmptyString, EmptyString)
  | String c s' =>
      if p c then let '(a, b) := span p s' in (String c a, b)
      else (EmptyString, s)
  end.

(** The exponent part of a decimal literal, or nothing: [e] or [E], a sign
    or none, and digits. *)
Definition exponentPart (s : string) : option Z :=
  match s with
  | EmptyString => Some 0%Z
  | String c r =>
      if (c =? "e")%char || (c =? "E")%char then
        match r with
        | EmptyString => None
        | String c' d =>
            if (c' =? "+")%char then
              if some_chars is_digit d then Some (numeral 10 0 d) else None
            else if (c' =? "-")%char then
              if some_chars is_digit d then Some (- numeral 10 0 d)%Z else None
            else
              if some_chars is_digit r then Some (numeral 10 0 r) else None
        end
      else None
  end.

(** A decimal literal without sign: [Infinity], or digits with a fraction
    or none, one of the two non-empty, and an exponent part or none. Its
    value is rounded to the nearest double, as V8 does for a literal of any
    length. *)
Definition unsignedDecimal (s : string) : number :=
  if (s =? "Infinity")%string then Infinity false
  else
    let '(intPart, r1) := span is_digit s in
    let '(fracPart, r2) :=
      match r1 with
      | String c r => if (c =? ".")%char then span is_digit r else (EmptyString, r1)
      | EmptyString => (EmptyString, r1)
      end in
    if (String.length intPart + String.length fracPart =? 0)%nat then NaN
    else
      match exponentPart r2 with
      | None => NaN
      | Some e =>
          let mantissa := numeral 10 0 (intPart ++ fracPart) in
          let e' := (e - Z.of_nat (String.length fracPart))%Z in
          if (0 <=? e')%Z then round (mantissa * 10 ^ e') 1
          else round mantissa (10 ^ (- e'))
      end.

(** A decimal literal: a sign or none before the digits. *)
Definition decimalLiteral (s : string) : number :=
  match s with
  | EmptyString => NaN
  | String c r =>
      if (c =? "+")%char then unsignedDecimal r
      else if (c =? "-")%char then negate (unsignedDecimal r)
      else unsignedDecimal s
  end.

(** The radix, the digits of the radix and the text after the prefix of a
    literal that starts with [0x], [0o] or [0b]. *)
Definition prefixed (s : string) : option (Z * (ascii -> bool) * string) :=
  match s with
  | String z (String c r) =>
      if (z =? "0")%char then
        if (c =? "x")%char || (c =? "X")%char then Some (16%Z, is_hex_digit, r)
        else if (c =? "o")%char || (c =? "O")%char then Some (8%Z, is_octal_digit, r)
        else if (c =? "b")%char || (c =? "B")%char then Some (2%Z, is_binary_digit, r)
        else None
      else None
  | _ => None
  end.

(** [Number(s)]: white space around the literal is dropped; the empty
    string is 0; a literal with a prefix is a sequence of digits of its
    radix, without sign; any other text is a decimal literal or [NaN]. *)
Definition Number (s : string) : number :=
  match trim s with
  | EmptyString => Finite 0
  | t =>
      match prefixed t with
      | Some (radix, digit, digits) =>
          if some_chars digit digits then round (numeral radix 0 digits) 1 else NaN
      | None => decimalLiteral t
      end
  end.

Definition not_comma (c : ascii) : bool := negb (c =? ",")%char.

(** The decimal text of a natural number. *)
Definition decimal (n : nat) : string := NilEmpty.string_of_uint (Nat.to_uint n).

(** ** Tile coordinates (function clickTile) *)

Module Tiles.

(** [coord.substring(1, coord.length - 1).split(',').map(Number)]. *)
Definition parts (coord : string) : list number :=
  map Number (split "," (js_substring coord 1 (Z.of_nat (String.length coord) - 1))).

(** [const [row, col] = parts]: an element that is missing is [undefined],
    which the subtraction that follows reads as [NaN]. *)
Definition rowOf (coord : string) : number := nth 0 (parts coord) NaN.
Definition colOf (coord : string) : number := nth 1 (parts coord) NaN.

(** The page side of [clickTile], run against a tile list of [tiles]
    elements: the index computed from the coordinate text. *)
Definition tileIndex (tiles : nat) (coord : string) : number :=
  let gridSize := if (tiles =? 9)%nat then integer 3 else integer 4 in
  add (mul (sub (rowOf coord) (integer 1)) gridSize) (sub (colOf coord) (integer 1)).

(** [tiles[index]] is an element exactly when the index is an integer
    within the list; it is clicked and the page side returns [true],
    otherwise it returns [false]. The second component is the tile that was
    clicked. *)
Definition clickInPage (tiles : nat) (coord : string) : bool * option nat :=
  match tileIndex tiles coord with
  | Finite k =>
      if (k mod scale =? 0)%Z && (0 <=? k / scale)%Z && (k / scale <? Z.of_nat tiles)%Z
      then (true, Some (Z.to_nat (k / scale)))
      else (false, None)
  | _ => (false, None)
  end.

(** [clickTile(frame, coord, challengeInfo)]: the evaluation in the frame
    runs against the tile list, or throws, and the [catch] returns [false]. *)
Definition clickTile (frame : Outcome nat) (coord : string) : bool * option nat :=
  match frame with
  | Returned tiles => clickInPage tiles coord
  | Threw _ => (false, None)
  end.

(** The coordinate text of a row and a column. *)
Definition coordinate (row col : nat) : string :=
  ("[" ++ (decimal row ++ "," ++ decimal col) ++ "]")%string.

End Tiles.

(** ** The tile analyzer (function analyzeWithGemini) *)

Module Analyzer.

(** A parsed JSON value. The fields of an object are its own properties in
    enumeration order; of a number only whether it is zero matters. *)
#[local] Unset Elimination Schemes.
Inductive json : Type :=
| JNull
| JBool (b : bool)
| JNumber (isZero : bool)
| JString (s : string)
| JArray (items : list json)
| JObject (fields : list (string * json)).
#[local] Set Elimination Schemes.

Definition truthy (v : json) : bool :=
  match v with
  | JNull => false
  | JBool b => b
  | JNumber isZero => negb isZero
  | JString s => truthy_string s
  | JArray _ | JObject _ => true
  end.

Fixpoint lookup (key : string) (fields : list (string * json)) : option json :=
  match fields with
  | [] => None
  | (k, v) :: rest => if (k =? key)%string then Some v else lookup key rest
  end.

Fixpoint indexed {A : Type} (i : nat) (l : list A) : list (string * A) :=
  match l with
  | [] => []
  | x :: l' => (decimal i, x) :: indexed (S i) l'
  end.

(** [Object.entries(v)]; it throws on [null]. *)
Definition entries (v : json) : option (list (string * json)) :=
  match v with
  | JNull => None
  | JBool _ | JNumber _ => Some []
  | JString s =>
      Some (indexed 0 (map (fun c => JString (String c EmptyString))
                           (list_ascii_of_string s)))
  | JArray items => Some (indexed 0 items)
  | JObject fields => Some fields
  end.

(** [data.has_match] as a condition; reading a property of [null] throws. *)
Definition has_match (data : json) : option bool :=
  match data with
  | JNull => None
  | JObject fields =>
      match lookup "has_match" fields with
      | Some v => Some (truthy v)
      | None => Some false
      end
  | _ => Some false
  end.

(** [.filter(([_, data]) => data.has_match).map(([coord]) => coord)]. *)
Fixpoint matching (es : list (string * json)) : option (list string) :=
  match es with
  | [] => Some []
  | (coord, data) :: rest =>
      match has_match data with
      | None => None
      | Some keep =>
          match matching rest with
          | None => None
          | Some coords => Some (if keep then coord :: coords else coords)
          end
      end
  end.

Definition tilesToClick (v : json) : option (list string) :=
  match entries v with
  | None => None
  | Some es => matching es
  end.

(** The text handed to [JSON.parse]: the inside of a fenced block when the
    response holds one. *)
Definition jsonStr (response : string) : string :=
  let fence := "```" in
  let fenceJson := "```json" in
  let inside (open : string) :=
    trim (nth 0 (split fence (nth 1 (split open response) EmptyString)) EmptyString) in
  if includes fenceJson response then inside fenceJson
  else if includes fence response then inside fence
  else response.

(** The two calls of the analyzer that leave the process: reading the
    screenshot file and the request to the vision model, whose answer is the
    text of the response. *)
Record VisionCall : Type := mkVisionCall {
  readFile : Outcome unit;
  generateContent : Outcome string
}.

(** [analyzeWithGemini]: the whole body is one [try]; any error gives
    [null]. [JSON_parse] is the parser of the runtime, [None] standing for
    its SyntaxError. *)
Definition analyzeWithGemini (JSON_parse : string -> option json) (call : VisionCall)
  : option (list string) :=
  match readFile call with
  | Threw _ => None
  | Returned _ =>
      match generateContent call with
      | Threw _ => None
      | Returned response =>
          match JSON_parse (jsonStr response) with
          | None => None
          | Some jsonResponse => tilesToClick jsonResponse
          end
      end
  end.

(** The steps of the analyzer that can fail. *)
Inductive Failure (JSON_parse : string -> option json) (call : VisionCall) : Prop :=
| ReadFails (m : string) :
    readFile call = Threw m -> Failure JSON_parse call
| RequestFails (m : string) :
    generateContent call = Threw m -> Failure JSON_parse call
| ParseFails (response : string) :
    generateContent call = Returned response ->
    JSON_parse (jsonStr response) = None -> Failure JSON_parse call
| NullResponse (response : string) :
    generateContent call = Returned response ->
    JSON_parse (jsonStr response) = Some JNull -> Failure JSON_parse call
| NullEntry (response : string) (v : json) (es : list (string * json)) (coord : string) :
    generateContent call = Returned response ->
    JSON_parse (jsonStr response) = Some v ->
    entries v = Some es -> In (coord, JNull) es -> Failure JSON_parse call.

(** No entry of the parsed response is marked as a match. *)
Definition noMatch (es : list (string * json)) : Prop :=
  forall coord data, In (coord, data) es -> has_match data = Some false.

End Analyzer.

(** ** The watcher (class CaptchaWatcher) *)

Module Watcher.

(** The object returned by the page-side read of the challenge frame. *)
Record ChallengeInfo : Type := mkChallengeInfo {
  text : string;
  promptText : string;
  gridType : string;
  hasCorrectFormat : bool;
  isDynamic : bool;
  imageUrls : option (list string)
}.

(** The five callback slots, as events in the order they are invoked. *)
Inductive Event : Type :=
| CaptchaReady
| TilesReady (info : ChallengeInfo)
| ChallengeOpen (info : ChallengeInfo)
| ChallengeChange (info : ChallengeInfo)
| TokenFound (token : string).

(** The fields of [this] that the detectors read and write. [page],
    [currentCaptchaFrame], [currentChallengeFrame] and [currentCheckbox]
    record whether the reference is set (non-null). *)
Record State : Type := mkState {
  page : bool;
  isWatching : bool;
  currentChallengeText : option string;
  currentImageUrls : option (list string);
  currentCaptchaFrame : bool;
  currentChallengeFrame : bool;
  currentCheckbox : bool
}.

(** [_checkIfChallengeChanged(newChallengeInfo)]. *)
Definition differs_at (new : list string) (index : nat) (url : string) : bool :=
  match nth_error new index with
  | Some u => negb (url =? u)
  | None => true
  end.

Definition _checkIfChallengeChanged (s : State) (newChallengeInfo : ChallengeInfo) : bool :=
  match currentChallengeText s with
  | None => true
  | Some t =>
      if negb (t =? text newChallengeInfo) then true
      else
        match currentImageUrls s, imageUrls newChallengeInfo with
        | Some cur, Some new =>
            if negb (length cur =? length new)%nat then true
            else some_indexed (differs_at new) 0 cur
        | _, _ => true
        end
  end.

(** [_updateCurrentChallenge(challengeInfo)]. *)
Definition _updateCurrentChallenge (s : State) (challengeInfo : ChallengeInfo) : State :=
  mkState (page s) (isWatching s)
          (Some (text challengeInfo)) (imageUrls challengeInfo)
          (currentCaptchaFrame s) (currentChallengeFrame s) (currentCheckbox s).

(** The reaction of [_pollForChallengeFrame] to a successful read
    ([if (challengeInfo) { ... }]): the new state, the callbacks invoked, and
    whether the block ran to its end. [returns e] tells whether the callback
    invoked for [e] returns; when it throws, the error leaves the block for
    the [catch] of the detector. A callback calls no method of the
    watcher. *)
Definition onChallengeRead (returns : Event -> bool) (s : State)
           (challengeInfo : ChallengeInfo) : State * list Event * bool :=
  let s1 := mkState (page s) (isWatching s)
                    (currentChallengeText s) (currentImageUrls s)
                    (currentCaptchaFrame s) true (currentCheckbox s) in
  if negb (returns (TilesReady challengeInfo)) then
    (s1, [TilesReady challengeInfo], false)
  else
    let hasChanged := _checkIfChallengeChanged s1 challengeInfo in
    if negb (truthy_opt (currentChallengeText s1)) then
      (_updateCurrentChallenge s1 challengeInfo,
       [TilesReady challengeInfo; ChallengeOpen challengeInfo],
       returns (ChallengeOpen challengeInfo))
    else if hasChanged then
      (_updateCurrentChallenge s1 challengeInfo,
       [TilesReady challengeInfo; ChallengeChange challengeInfo],
       returns (ChallengeChange challengeInfo))
    else
      (s1, [TilesReady challengeInfo], true).

(** Where a frame detector stands. It is suspended at a timer and will
    next test its outer [while] ([Outer]) or its inner [while] with the
    current [checkCount] ([Inner]); or it has passed that test and awaits
    the answer to [page.frames()] ([AwaitFrames]), to the read of the frame
    ([AwaitInfo]) or, in the checkbox detector only, to the query for the
    checkbox ([AwaitHandle]); or it has ended. *)
Inductive LoopPc : Type :=
| Outer
| Inner (checkCount : nat)
| Exited
| AwaitFrames
| AwaitInfo (checkCount : nat)
| AwaitHandle.

(** The token detector: at the test of its loop, ended, or awaiting the
    answer to its read of the response field. *)
Inductive TokenPc : Type :=
| TokenPolling
| TokenExited
| AwaitToken.

(** What one iteration of the checkbox detector reads: whether
    [page.frames()] holds an anchor frame, whether the page-side check
    returned a non-null [captchaInfo], and whether [captchaFrame.$] returned
    a handle. *)
Record ReadyObs : Type := mkReadyObs {
  anchorFrame : Outcome bool;
  captchaInfo : Outcome bool;
  checkboxHandle : Outcome bool
}.

(** What one iteration of the challenge detector reads, and how the
    callbacks that it invokes end. *)
Record ChallengeObs : Type := mkChallengeObs {
  bframe : Outcome bool;
  challengeInfo : Outcome (option ChallengeInfo);
  callbackReturns : Event -> bool
}.

(** What one iteration of the token detector reads: [page.isClosed()] is
    true, or the page-side read of the response field; [CallbackThrew]
    stands for a read that returns [token] with a callback [onTokenFound]
    that throws an error when it is invoked (the inner [catch] reads the
    message of the error; a thrown value that has none ends the detector,
    as a callback that returns does). *)
Inductive TokenObs : Type :=
| PageClosed
| TokenEval (r : Outcome (option string))
| CallbackThrew (token : string).

(** The detector passes the test of its loop and issues the read that
    follows: [page.frames()] after the outer test (with [page] unset the
    call throws, which ends the detector), the read of the frame after the
    inner one. *)
Definition issueRead (s : State) (pc : LoopPc) : LoopPc :=
  match pc with
  | Outer =>
      if negb (isWatching s) then Exited
      else if negb (page s) then Exited
      else AwaitFrames
  | Inner checkCount =>
      if isWatching s && (checkCount <? 50)%nat then AwaitInfo checkCount
      else Outer
  | _ => pc
  end.

(** [page.frames()] has answered: the frame looked for is among the
    frames, or not. *)
Definition onFrames (frame : Outcome bool) (s : State) : State * LoopPc * list Event :=
  match frame with
  | Threw _ => (s, Exited, [])
  | Returned true => (s, Inner 0, [])
  | Returned false => (s, Outer, [])
  end.

(** The page-side check of the checkbox has answered: with a non-null
    [captchaInfo] the frame is stored and the checkbox is queried. *)
Definition onCaptchaInfo (o : ReadyObs) (s : State) (checkCount : nat)
  : State * LoopPc * list Event :=
  match captchaInfo o with
  | Threw _ => (s, Exited, [])
  | Returned false => (s, Inner (S checkCount), [])
  | Returned true =>
      (mkState (page s) (isWatching s)
               (currentChallengeText s) (currentImageUrls s)
               true (currentChallengeFrame s) (currentCheckbox s),
       AwaitHandle, [])
  end.

(** The query for the checkbox has answered: the handle is stored,
    [onCaptchaReady] is invoked and the detector returns. When the callback
    throws, the [catch] of the detector ends it just the same. *)
Definition onCheckbox (o : ReadyObs) (s : State) : State * LoopPc * list Event :=
  match checkboxHandle o with
  | Threw _ => (s, Exited, [])
  | Returned h =>
      (mkState (page s) (isWatching s)
               (currentChallengeText s) (currentImageUrls s)
               (currentCaptchaFrame s) (currentChallengeFrame s) h,
       Exited, [CaptchaReady])
  end.

(** [_pollForCaptchaReady]. From a test of a loop: one iteration, its reads
    answered by [o] before anything else happens. From a pending read: the
    answer of [o] arrives and the detector runs on to its next read or
    timer. Any error escapes to the function's [catch], which ends the
    detector. *)
Definition _pollForCaptchaReady (o : ReadyObs) (s : State) (pc : LoopPc)
  : State * LoopPc * list Event :=
  match pc with
  | Exited => (s, Exited, [])
  | Outer =>
      if negb (isWatching s) then (s, Exited, [])
      else if negb (page s) then (s, Exited, [])
      else onFrames (anchorFrame o) s
  | Inner checkCount =>
      if isWatching s && (checkCount <? 50)%nat then
        match onCaptchaInfo o s checkCount with
        | (s', AwaitHandle, _) => onCheckbox o s'
        | r => r
        end
      else (s, Outer, [])
  | AwaitFrames => onFrames (anchorFrame o) s
  | AwaitInfo checkCount => onCaptchaInfo o s checkCount
  | AwaitHandle => onCheckbox o s
  end.

(** The read of the challenge frame has answered. *)
Definition onChallengeInfo (o : ChallengeObs) (s : State) (checkCount : nat)
  : State * LoopPc * list Event :=
  match challengeInfo o with
  | Threw _ => (s, Exited, [])
  | Returned None => (s, Inner (S checkCount), [])
  | Returned (Some info) =>
      let '(s', evs, completed) := onChallengeRead (callbackReturns o) s info in
      (s', if completed then Inner (S checkCount) else Exited, evs)
  end.

(** [_pollForChallengeFrame], in the same way. [AwaitHandle] is no position
    of this detector. *)
Definition _pollForChallengeFrame (o : ChallengeObs) (s : State) (pc : LoopPc)
  : State * LoopPc * list Event :=
  match pc with
  | Exited => (s, Exited, [])
  | Outer =>
      if negb (isWatching s) then (s, Exited, [])
      else if negb (page s) then (s, Exited, [])
      else onFrames (bframe o) s
  | Inner checkCount =>
      if isWatching s && (checkCount <? 50)%nat then onChallengeInfo o s checkCount
      else (s, Outer, [])
  | AwaitFrames => onFrames (bframe o) s
  | AwaitInfo checkCount => onChallengeInfo o s checkCount
  | AwaitHandle => (s, AwaitHandle, [])
  end.

(** The token detector passes the test of its loop and issues its read.
    With [page] unset the read [this.page.evaluate] throws a TypeError, which
    the inner [catch] takes, and the loop goes on. *)
Definition issueTokenRead (s : State) (pc : TokenPc) : TokenPc :=
  match pc with
  | TokenPolling =>
      if negb (isWatching s) then TokenExited
      else if negb (page s) then TokenPolling
      else AwaitToken
  | _ => pc
  end.

(** The read of the response field has answered. The read and the callback
    sit in their own [try]: an error of either is caught there and the loop
    goes on. *)
Definition onTokenRead (o : TokenObs) (s : State) : State * TokenPc * list Event :=
  match o with
  | PageClosed => (s, TokenPolling, [])
  | TokenEval (Threw _) => (s, TokenPolling, [])
  | TokenEval (Returned None) => (s, TokenPolling, [])
  | TokenEval (Returned (Some token)) =>
      if truthy_string token then (s, TokenExited, [TokenFound token])
      else (s, TokenPolling, [])
  | CallbackThrew token =>
      if truthy_string token then (s, TokenPolling, [TokenFound token])
      else (s, TokenPolling, [])
  end.

(** [_pollForToken]: one iteration from the test of the loop, or the answer
    to the pending read. A read that is pending was issued on an open page:
    [PageClosed] is no answer to it. *)
Definition _pollForToken (o : TokenObs) (s : State) (pc : TokenPc)
  : State * TokenPc * list Event :=
  match pc with
  | TokenExited => (s, TokenExited, [])
  | TokenPolling =>
      if negb (isWatching s) then (s, TokenExited, [])
      else if negb (page s) then (s, TokenPolling, [])
      else onTokenRead o s
  | AwaitToken =>
      match o with
      | PageClosed => (s, AwaitToken, [])
      | _ => onTokenRead o s
      end
  end.

(** [stopWatching()] and [cleanup()]. *)
Definition stopWatching (s : State) : State :=
  mkState (page s) false (currentChallengeText s) (currentImageUrls s)
          (currentCaptchaFrame s) (currentChallengeFrame s) (currentCheckbox s).

Definition cleanup (s : State) : State :=
  mkState false false None None false false false.

(** The three detectors that one call of [startWatching] starts. *)
Record Detectors : Type := mkDetectors {
  atReady : LoopPc;
  atChallenge : LoopPc;
  atToken : TokenPc
}.

(** The watcher: its fields, the detectors started so far (those started
    last come first; detectors of an earlier start run on until they test
    the flag and find it down) and the callbacks invoked so far. *)
Record System : Type := mkSystem {
  state : State;
  detectors : list Detectors;
  fired : list Event
}.

Definition ended : Detectors := mkDetectors Exited Exited TokenExited.

(** The detectors started last. *)
Definition running (sys : System) : Detectors := hd ended (detectors sys).

Definition readyPc (sys : System) : LoopPc := atReady (running sys).
Definition challengePc (sys : System) : LoopPc := atChallenge (running sys).
Definition tokenPc (sys : System) : TokenPc := atToken (running sys).

(** What [setPage] is given. *)
Inductive PageRef : Type :=
| NoPage
| OpenPage
| ClosedPage.

(** What happens next. A detector started last runs one iteration or takes
    the answer to its pending read ([PollReady], [PollChallenge],
    [PollToken]), or passes the test of its loop and issues its read
    ([IssueReady], [IssueChallenge], [IssueToken]); [Earlier k] is the same
    for the detectors started [k + 1] starts before the last; or the owner
    of the watcher calls one of its methods. [StartWatching] comes with the
    answer of [page.isClosed()]. *)
Inductive Input : Type :=
| PollReady (o : ReadyObs)
| PollChallenge (o : ChallengeObs)
| PollToken (o : TokenObs)
| StopWatching
| Cleanup
| IssueReady
| IssueChallenge
| IssueToken
| SetPage (page : PageRef)
| StartWatching (isClosed : bool)
| Earlier (k : nat) (i : Input).

(** One move of one of the detectors [d]. *)
Definition poll (i : Input) (s : State) (d : Detectors)
  : State * Detectors * list Event :=
  match i with
  | PollReady o =>
      let '(s', pc, evs) := _pollForCaptchaReady o s (atReady d) in
      (s', mkDetectors pc (atChallenge d) (atToken d), evs)
  | PollChallenge o =>
      let '(s', pc, evs) := _pollForChallengeFrame o s (atChallenge d) in
      (s', mkDetectors (atReady d) pc (atToken d), evs)
  | PollToken o =>
      let '(s', pc, evs) := _pollForToken o s (atToken d) in
      (s', mkDetectors (atReady d) (atChallenge d) pc, evs)
  | IssueReady =>
      (s, mkDetectors (issueRead s (atReady d)) (atChallenge d) (atToken d), [])
  | IssueChallenge =>
      (s, mkDetectors (atReady d) (issueRead s (atChallenge d)) (atToken d), [])
  | IssueToken =>
      (s, mkDetectors (atReady d) (atChallenge d) (issueTokenRead s (atToken d)), [])
  | _ => (s, d, [])
  end.

(** [l] with its element [n] replaced by [x]. *)
Fixpoint replace {A : Type} (n : nat) (x : A) (l : list A) : list A :=
  match l, n with
  | [], _ => []
  | _ :: rest, O => x :: rest
  | a :: rest, S n' => a :: replace n' x rest
  end.

Definition pollAt (n : nat) (i : Input) (sys : System) : System :=
  match nth_error (detectors sys) n with
  | Some d =>
      let '(s, d', evs) := poll i (state sys) d in
      mkSystem s (replace n d' (detectors sys)) (fired sys ++ evs)
  | None => sys
  end.

(** The detectors right after their start: each one has run up to its first
    [await]; the token detector skips its read on a closed page. *)
Definition spawned (isClosed : bool) : Detectors :=
  mkDetectors AwaitFrames AwaitFrames (if isClosed then TokenPolling else AwaitToken).

(** [startWatching()]. *)
Definition startWatching (isClosed : bool) (sys : System) : System :=
  if negb (page (state sys)) then sys
  else if isWatching (state sys) then sys
  else
    mkSystem (mkState (page (state sys)) true
                      (currentChallengeText (state sys)) (currentImageUrls (state sys))
                      (currentCaptchaFrame (state sys)) (currentChallengeFrame (state sys))
                      (currentCheckbox (state sys)))
             (spawned isClosed :: detectors sys)
             (fired sys).

(** [setPage(page)]. *)
Definition setPage (p : PageRef) (sys : System) : System :=
  startWatching
    (match p with ClosedPage => true | _ => false end)
    (mkSystem (mkState (match p with NoPage => false | _ => true end)
                       (isWatching (state sys))
                       None (currentImageUrls (state sys))
                       (currentCaptchaFrame (state sys)) (currentChallengeFrame (state sys))
                       (currentCheckbox (state sys)))
              (detectors sys)
              (fired sys)).

Definition step (sys : System) (i : Input) : System :=
  match i with
  | StopWatching => mkSystem (stopWatching (state sys)) (detectors sys) (fired sys)
  | Cleanup => mkSystem (cleanup (state sys)) (detectors sys) (fired sys)
  | SetPage p => setPage p sys
  | StartWatching isClosed => startWatching isClosed sys
  | Earlier k i' => pollAt (S k) i' sys
  | _ => pollAt 0 i sys
  end.

Definition run (inputs : list Input) (sys : System) : System :=
  fold_left step inputs sys.

(** [new CaptchaWatcher()]. *)
Definition created : System :=
  mkSystem (mkState false false None None false false false) [] [].

(** [new CaptchaWatcher()] followed by [setPage(page)] on an open page: the
    page is set, [startWatching] raises the flag and starts the three
    detectors. *)
Definition started : System := setPage OpenPage created.

(** The move that an input stands for, whichever detectors make it. *)
Definition move (i : Input) : Input :=
  match i with
  | Earlier _ i' => i'
  | _ => i
  end.

(** The input makes [startWatching] run. *)
Definition isStart (i : Input) : bool :=
  match i with
  | SetPage _ | StartWatching _ => true
  | _ => false
  end.

(** The input sets the stored prompt text back to null. *)
Definition isReset (i : Input) : bool :=
  match i with
  | SetPage _ | Cleanup => true
  | _ => false
  end.

(** The callback [onTokenFound] returns when it is invoked. *)
Definition tokenCallbackReturns (i : Input) : Prop :=
  match move i with
  | PollToken (CallbackThrew _) => False
  | _ => True
  end.

Definition isCaptchaReady (e : Event) : bool :=
  match e with CaptchaReady => true | _ => false end.

Definition readyCount (evs : list Event) : nat :=
  length (filter isCaptchaReady evs).

Definition readyEnded (d : Detectors) : bool :=
  match atReady d with Exited => true | _ => false end.

Definition tokenEnded (d : Detectors) : bool :=
  match atToken d with TokenExited => true | _ => false end.

(** The number of reads of [d] whose answer is pending. *)
Definition awaited (d : Detectors) : nat :=
  (match atReady d with AwaitFrames | AwaitInfo _ | AwaitHandle => 1 | _ => 0 end
   + match atChallenge d with AwaitFrames | AwaitInfo _ | AwaitHandle => 1 | _ => 0 end
   + match atToken d with AwaitToken => 1 | _ => 0 end)%nat.

Definition reads (sys : System) : nat := list_sum (map awaited (detectors sys)).

(** The number of callbacks that the pending reads of [d] can still lead to
    once the flag is down: one for the checkbox, two for a challenge, one
    for the token. *)
Definition owed (d : Detectors) : nat :=
  (match atReady d with AwaitInfo _ | AwaitHandle => 1 | _ => 0 end
   + match atChallenge d with AwaitInfo _ => 2 | _ => 0 end
   + match atToken d with AwaitToken => 1 | _ => 0 end)%nat.

(** The checkbox is found and ready; afterwards the page keeps showing it
    ready while the other detectors poll. *)
Definition checkboxReady : ReadyObs :=
  mkReadyObs (Returned true) (Returned true) (Returned true).

Definition checkboxSeen : list Input :=
  [PollReady checkboxReady; PollReady checkboxReady].

Definition checkboxSeenAgain : list Input :=
  [PollReady checkboxReady; PollToken (TokenEval (Returned None));
   PollReady checkboxReady;
   PollChallenge (mkChallengeObs (Returned false) (Returned None) (fun _ => true));
   PollReady checkboxReady].

(** The watcher is stopped and given its page again: the detectors start
    once more and find the checkbox as before. *)
Definition restarted : list Input :=
  checkboxSeen ++ [StopWatching; SetPage OpenPage] ++ checkboxSeen.

(** A token handed to [onTokenFound] is never empty. *)
Definition tokenTruthy (e : Event) : Prop :=
  match e with
  | TokenFound token => truthy_string token = true
  | _ => True
  end.

(** Two snapshots are the same challenge: same text, both image lists
    present, of the same length, and equal at every position. *)
Definition same_snapshot (A B : ChallengeInfo) : Prop :=
  text A = text B /\
  exists la lb,
    imageUrls A = Some la /\ imageUrls B = Some lb /\
    length la = length lb /\
    forall i, nth_error la i = nth_error lb i.

(** The detector stands in its inner loop and reads a loaded challenge; the
    callbacks return. *)
Definition readsChallenge (B : ChallengeInfo) : ChallengeObs :=
  mkChallengeObs (Returned true) (Returned (Some B)) (fun _ => true).

(** Sample snapshots. *)
Definition crosswalks : ChallengeInfo :=
  mkChallengeInfo "Select all images with crosswalks" "crosswalks"
                  "rc-imageselect-table-33" true false (Some ["a.png"; "b.png"]).

Definition buses : ChallengeInfo :=
  mkChallengeInfo "Select all images with buses" "buses"
                  "rc-imageselect-table-33" true false (Some ["a.png"; "b.png"]).

Definition blankPrompt : ChallengeInfo :=
  mkChallengeInfo "" "" "rc-imageselect-table-33" false false (Some ["a.png"]).

Definition watching : State :=
  mkState true true None None false false false.

End Watcher.

(** ** The visual solver *)

Module Visual.

Import Watcher Analyzer.

Inductive Action : Type :=
| ClickCheckbox
| GetCurrentChallenge
| ClickReload
| TakeScreenshot
| Analyze
| ClickTile (coord : string) (clicked : option nat)
| ClickVerify
| WatcherCleanup.

(** What the page, the watcher and the vision service answer. [timeline n]
    lists the callbacks the watcher invokes, in order, while the wait started
    at call [n] is pending (for a wait with a timeout: before the timeout).
    [challengeFrame] tells whether [watcher.getChallengeFrame()] is set,
    [tileList] is the evaluation of the page side of [clickTile]. *)
Record Env : Type := mkEnv {
  captchaReady : bool;
  checkbox : bool;
  timeline : nat -> list Event;
  challengeFrame : nat -> bool;
  promptRead : nat -> Outcome (option ChallengeInfo);
  reloadButton : nat -> Outcome bool;
  click : nat -> Outcome unit;
  mkdir : nat -> Outcome unit;
  challengeArea : nat -> Outcome bool;
  screenshot : nat -> Outcome unit;
  vision : nat -> VisionCall;
  JSON_parse : string -> option json;
  tileList : nat -> Outcome nat;
  shouldVerify : nat -> Outcome bool;
  verifyButton : nat -> Outcome bool
}.

Inductive RaceResult : Type :=
| Token (value : string)
| Challenge (info : ChallengeInfo)
| Timeout.

(** [Promise.race([waitForToken(watcher), waitForChallenge(watcher)])]: the
    first [onTokenFound] or [onChallengeOpen] settles the race; without
    either the race is never settled. *)
Fixpoint raceAfterCheckbox (events : list Event) : option RaceResult :=
  match events with
  | [] => None
  | TokenFound token :: _ => Some (Token token)
  | ChallengeOpen info :: _ => Some (Challenge info)
  | _ :: rest => raceAfterCheckbox rest
  end.

(** The race after the verify click: [onTokenFound], [onChallengeChange] or
    the 5 s timer, whichever comes first. *)
Fixpoint raceAfterVerify (events : list Event) : RaceResult :=
  match events with
  | [] => Timeout
  | TokenFound token :: _ => Token token
  | ChallengeChange info :: _ => Challenge info
  | _ :: rest => raceAfterVerify rest
  end.

Definition isTilesReady (e : Event) : bool :=
  match e with TilesReady _ => true | _ => false end.

(** Among the callbacks [events], [onTokenFound] is invoked before
    [onChallengeOpen] is, and the first time with [token]. *)
Definition tokenComesFirst (events : list Event) (token : string) : Prop :=
  exists before after,
    events = before ++ TokenFound token :: after /\
    Forall (fun e => match e with
                     | TokenFound _ | ChallengeOpen _ => False
                     | _ => True
                     end) before.

Definition maxAttempts : nat := 4.
Definition maxDynamicIterations : nat := 4.

Section Solver.

Variable env : Env.

Local Abbreviation M := (M Action).

(** The promise that [onTilesReady] resolves and a 10 s timer rejects:
    [true] when the callback came first. *)
Definition waitForTilesReady : M bool :=
  events <- ask (timeline env) ;;
  ret (existsb isTilesReady events).

Definition waitForCaptchaReady : M unit :=
  if captchaReady env then ret tt else hang.

Definition handleCheckboxClick : M (option string) :=
  if negb (checkbox env) then ret None
  else
    try_catch
      (_ <- await (click env) ;;
       _ <- act ClickCheckbox ;;
       events <- ask (timeline env) ;;
       match raceAfterCheckbox events with
       | None => hang
       | Some (Token value) => ret (Some value)
       | Some _ => ret None
       end)
      (fun _ => ret None).

Definition refreshChallenge : M unit :=
  button <- await (reloadButton env) ;;
  if button then
    _ <- await (click env) ;;
    act ClickReload
  else ret tt.

Definition getCurrentChallenge : M (option ChallengeInfo) :=
  _ <- act GetCurrentChallenge ;;
  frame <- ask (challengeFrame env) ;;
  if negb frame then ret None
  else
    challengeInfo <- await (promptRead env) ;;
    if match challengeInfo with
       | Some info => hasCorrectFormat info
       | None => false
       end
    then ret challengeInfo
    else
      _ <- refreshChallenge ;;
      ret None.

(** [takeScreenshotAndAnalyze]. With [frame] unset the call [frame.$]
    throws. The rejection of its wait for the tiles is caught and ignored. *)
Definition takeScreenshotAndAnalyze (frame : bool) (challengeInfo : ChallengeInfo)
  : M (option (list string)) :=
  _ <- await (mkdir env) ;;
  area <- (if frame then await (challengeArea env) else raise "TypeError") ;;
  if negb area then ret None
  else
    _ <- waitForTilesReady ;;
    _ <- await (screenshot env) ;;
    _ <- act TakeScreenshot ;;
    call <- ask (vision env) ;;
    _ <- act Analyze ;;
    ret (analyzeWithGemini (JSON_parse env) call).

(** One call of [clickTile] on the current challenge frame. *)
Definition clickTileNow (coord : string) : M bool :=
  frame <- ask (challengeFrame env) ;;
  page <- ask (tileList env) ;;
  let result := Tiles.clickTile (if frame then page else Threw "TypeError") coord in
  _ <- act (ClickTile coord (snd result)) ;;
  ret (fst result).

(** [for (const coord of tilesToClick)]: [false] at the first failed click. *)
Fixpoint clickTiles (tilesToClick : list string) : M bool :=
  match tilesToClick with
  | [] => ret true
  | coord :: rest =>
      clicked <- clickTileNow coord ;;
      if negb clicked then ret false else clickTiles rest
  end.

(** The loop of [handleChallengeTiles], entered with
    [left = maxDynamicIterations - dynamicIteration]. *)
Fixpoint tilesLoop (left : nat) (challengeInfo : ChallengeInfo) : M bool :=
  match left with
  | O => ret true
  | S left' =>
      ready <- waitForTilesReady ;;
      if negb ready then ret false
      else
        frame <- ask (challengeFrame env) ;;
        tilesToClick <- takeScreenshotAndAnalyze frame challengeInfo ;;
        match tilesToClick with
        | None => ret false
        | Some [] => ret true
        | Some coords =>
            clicked <- clickTiles coords ;;
            if negb clicked then ret false
            else if negb (isDynamic challengeInfo) then ret true
            else
              match left' with
              | O => ret true
              | S _ => tilesLoop left' challengeInfo
              end
        end
  end.

Definition handleChallengeTiles (challengeInfo : ChallengeInfo) : M bool :=
  tilesLoop maxDynamicIterations challengeInfo.

(** [verifyChallenge] calls itself after a new challenge; [fuel] bounds the
    depth of that recursion. *)
Fixpoint verifyChallenge (fuel : nat) : M (option string) :=
  match fuel with
  | O => outOfFuel
  | S fuel' =>
      frame <- ask (challengeFrame env) ;;
      if negb frame then ret None
      else
        ready <- waitForTilesReady ;;
        if negb ready then ret None
        else
          should <- await (shouldVerify env) ;;
          if negb should then ret None
          else
            button <- await (verifyButton env) ;;
            if negb button then ret None
            else
              _ <- await (click env) ;;
              _ <- act ClickVerify ;;
              events <- ask (timeline env) ;;
              match raceAfterVerify events with
              | Token value => ret (Some value)
              | Challenge newChallengeInfo =>
                  if negb (hasCorrectFormat newChallengeInfo) then
                    _ <- refreshChallenge ;;
                    ret None
                  else
                    success <- handleChallengeTiles newChallengeInfo ;;
                    if negb success then ret None
                    else verifyChallenge fuel'
              | Timeout => ret None
              end
  end.

(** The loop of [solveChallengeLoop], entered with
    [left = maxAttempts - attempts]. *)
Fixpoint roundsLoop (fuel : nat) (left : nat) : M (option string) :=
  match left with
  | O => ret None
  | S left' =>
      challengeInfo <- getCurrentChallenge ;;
      match challengeInfo with
      | None => roundsLoop fuel left'
      | Some info =>
          success <- handleChallengeTiles info ;;
          if negb success then roundsLoop fuel left'
          else
            token <- verifyChallenge fuel ;;
            if truthy_opt token then ret token
            else roundsLoop fuel left'
      end
  end.

Definition solveChallengeLoop (fuel : nat) : M (option string) :=
  roundsLoop fuel maxAttempts.

Definition solveCaptchaChallenge (fuel : nat) : M (option string) :=
  finally
    (try_catch
       (_ <- waitForCaptchaReady ;;
        initialResult <- handleCheckboxClick ;;
        if truthy_opt initialResult then ret initialResult
        else solveChallengeLoop fuel)
       (fun _ => ret None))
    WatcherCleanup.

End Solver.

(** Counting in a trace. *)
Definition isRound (a : Action) : bool :=
  match a with GetCurrentChallenge => true | _ => false end.

Definition isAnalyze (a : Action) : bool :=
  match a with Analyze => true | _ => false end.

Definition isClickVerify (a : Action) : bool :=
  match a with ClickVerify => true | _ => false end.

Definition isClickTile (a : Action) : bool :=
  match a with ClickTile _ _ => true | _ => false end.

(** From state [st] the tile loop gets as far as the analysis: the tiles
    become ready, the challenge frame and the challenge area are there, and
    the directory and the screenshot are written. The analysis is then the
    seventh call. *)
Definition reachesAnalysis (env : Env) (st : St Action) : Prop :=
  existsb isTilesReady (timeline env (tick st)) = true /\
  challengeFrame env (1 + tick st) = true /\
  mkdir env (2 + tick st) = Returned tt /\
  challengeArea env (3 + tick st) = Returned true /\
  screenshot env (5 + tick st) = Returned tt.

Definition analysisOf (env : Env) (st : St Action) : option (list string) :=
  analyzeWithGemini (JSON_parse env) (vision env (6 + tick st)).


(** Every wait for the tiles succeeds and every page operation of the tile
    loop succeeds, at any time. *)
Definition cooperative (env : Env) : Prop :=
  (forall n, existsb isTilesReady (timeline env n) = true) /\
  (forall n, challengeFrame env n = true) /\
  (forall n, mkdir env n = Returned tt) /\
  (forall n, challengeArea env n = Returned true) /\
  (forall n, screenshot env n = Returned tt).

(** Every analysis returns at least one tile. *)
Definition alwaysMatches (env : Env) : Prop :=
  forall n, exists coord coords,
      analyzeWithGemini (JSON_parse env) (vision env n) = Some (coord :: coords).

(** Every tile that an analysis returns can be clicked, at any time. *)
Definition clicksSucceed (env : Env) : Prop :=
  forall n m coords coord,
    analyzeWithGemini (JSON_parse env) (vision env n) = Some coords ->
    In coord coords ->
    fst (Tiles.clickTile (tileList env m) coord) = true.

(** *** Sample pages *)

(** The challenge shown at call [n]: each one comes with new images. *)
Definition challengeNo (n : nat) : ChallengeInfo :=
  mkChallengeInfo "Select all images with buses" "buses"
                  "rc-imageselect-table-33" true false (Some [decimal n]).

(** A dynamic challenge. *)
Definition dynamicChallenge : ChallengeInfo :=
  mkChallengeInfo
    "Select all images with buses Click verify once there are none left"
    "buses" "rc-imageselect-table-33" true true (Some ["a.png"]).


(** The response of a model that marks the tile [coord]. *)
Definition marks (coord : string) : json :=
  JObject [("[1,1]", JObject [("has_match", JBool false)]);
           (coord, JObject [("has_match", JBool true)])].

(** A page of 9 tiles on which every operation succeeds, with the callbacks
    [events] during each wait and the parsed response [answer] to each
    analysis. *)
Definition pageWith (events : nat -> list Event) (answer : option json) : Env :=
  mkEnv true true events
        (fun _ => true)
        (fun n => Returned (Some (challengeNo n)))
        (fun _ => Returned true)
        (fun _ => Returned tt)
        (fun _ => Returned tt)
        (fun _ => Returned true)
        (fun _ => Returned tt)
        (fun _ => mkVisionCall (Returned tt) (Returned "{}"))
        (fun _ => answer)
        (fun _ => Returned 9)
        (fun _ => Returned true)
        (fun _ => Returned true).

Definition tilesReadyOnly (n : nat) : list Event := [TilesReady (challengeNo n)].

(** The model marks tile [1,2] of the 3 by 3 grid. *)
Definition obliging : Env := pageWith tilesReadyOnly (Some (marks "[1,2]")).

(** The model marks a tile that the 3 by 3 grid does not have. *)
Definition stubborn : Env := pageWith tilesReadyOnly (Some (marks "[9,9]")).

(** The model marks no tile. *)
Definition noneMatching : Env :=
  pageWith tilesReadyOnly
           (Some (JObject [("[1,1]", JObject [("has_match", JBool false)])])).

(** The response of the model cannot be parsed. *)
Definition unparsable : Env := pageWith tilesReadyOnly None.

(** The token shows up 50 ms after the click, the challenge 300 ms after
    it: what the detectors of the watcher read, in that order. *)
Definition tokenThenChallenge : list Input :=
  [PollToken (TokenEval (Returned (Some "03AGdBq27")));
   PollChallenge (readsChallenge crosswalks)].

(** The page of that run: the watcher invokes its callbacks as its
    detectors read. *)
Definition immediate : Env :=
  pageWith (fun _ => fired (run tokenThenChallenge
                                (mkSystem watching [mkDetectors Exited (Inner 0) TokenPolling] [])))
           None.

End Visual.

(** ** The audio solver *)

Module Audio.

Inductive Action : Type :=
| AxiosGet (downloadAttempts : nat)
| Delay (ms : nat)
| WitRequest (body : option string)
| ReadToken
| ClickCheckbox
| ErrorScreenshot
| Attempt (audioAttempts : nat)
| ClickAudioButton
| ClickReload
| TypeResponse (transcription : string)
| ClickVerify
| Blocked
| Background.

(** The answer to one [axios.get]. *)
Record Response : Type := mkResponse {
  status : nat;
  data : string
}.

(** Which promise of a race settles first. *)
Inductive Racer : Type :=
| FirstRacer
| SecondRacer
| ThirdRacer.

(** What the page, the challenge frame and the services answer.
    [audioChallenge], [blockingMessage], [failedChallenge] and
    [challengeFrameReady] are the results of the polling helpers
    [waitForAudioChallenge], [checkForBlockingMessage],
    [checkForFailedChallenge] and [waitForChallengeFrame]; [settlesFirst]
    tells which promise of a race settles first; [handle] is the result of a
    selector query on the frame; [textField] is the first group of the last
    match of the text-field pattern in the response of the speech service.

    The trace records the actions of the solver itself. In a race the
    promise that settles first gives the result, whatever it is, and what
    that promise did up to there is part of the run. The promises that lose
    a race are not cancelled: they go on polling the page in the background,
    during the rest of the run and after it, and what they read is dropped.
    [Background] marks the point from which they do so. *)
Record Env : Type := mkEnv {
  download : nat -> Outcome Response;
  witRequest : nat -> Outcome string;
  textField : string -> option string;
  tokenRead : nat -> Outcome (option string);
  findCaptchaFrame : bool;
  challengeFrameReady : nat -> bool;
  settlesFirst : nat -> Racer;
  errorScreenshot : nat -> Outcome unit;
  audioButtonReady : nat -> Outcome unit;
  handle : nat -> Outcome bool;
  scroll : nat -> Outcome unit;
  click : nat -> Outcome unit;
  typeText : nat -> Outcome unit;
  audioChallenge : nat -> option string;
  blockingMessage : nat -> bool;
  failedChallenge : nat -> bool
}.

Definition maxDownloadAttempts : nat := 3.
Definition maxAudioAttempts : nat := 3.

(** How the download loop is left: by [break] with the audio data (or by
    its test, with no data), or by [return null]. *)
Inductive LoopExit : Type :=
| LoopLeft (audioData : option string)
| ReturnedNull.

Inductive AudioResult : Type :=
| AudioUrl (url : string)
| AudioBlocked.

Inductive VerifyResult : Type :=
| VerifyToken (token : string)
| NeedMore
| VerifyBlocked.

(** What one pass through the body of the attempt loop ends with. *)
Inductive Next : Type :=
| Continue
| Return (result : option string).

Section Solver.

Variable env : Env.

Local Abbreviation M := (M Action).

(** The download loop of [downloadAndTranscribeAudio], entered with
    [left = maxDownloadAttempts - downloadAttempts]. *)
Fixpoint downloadLoop (left : nat) (downloadAttempts : nat) : M LoopExit :=
  match left with
  | O => ret (LoopLeft None)
  | S left' =>
      let downloadAttempts := S downloadAttempts in
      got <- try_catch
               (_ <- act (AxiosGet downloadAttempts) ;;
                audioResponse <- await (download env) ;;
                if negb (status audioResponse =? 200)%nat
                then raise "Failed to download audio"
                else ret (Some (data audioResponse)))
               (fun _ => ret None) ;;
      match got with
      | Some audioData => ret (LoopLeft (Some audioData))
      | None =>
          if (downloadAttempts =? maxDownloadAttempts)%nat then ret ReturnedNull
          else
            _ <- act (Delay 1000) ;;
            downloadLoop left' downloadAttempts
      end
  end.

Definition downloadAndTranscribeAudio : M (option string) :=
  try_catch
    (exit <- downloadLoop maxDownloadAttempts 0 ;;
     match exit with
     | ReturnedNull => ret None
     | LoopLeft audioData =>
         _ <- act (WitRequest audioData) ;;
         fullResponse <- await (witRequest env) ;;
         ret (textField env fullResponse)
     end)
    (fun _ => ret None).

(** The loop of [waitForToken(page, maxAttempts)], entered with
    [left = maxAttempts - attempt]. The [catch] of the read returns
    [null]. *)
Fixpoint tokenLoop (left : nat) : M (option string) :=
  match left with
  | O => ret None
  | S left' =>
      read <- try_catch
                (_ <- act ReadToken ;;
                 token <- await (tokenRead env) ;;
                 ret (Some token))
                (fun _ => ret None) ;;
      match read with
      | None => ret None
      | Some token =>
          if truthy_opt token then ret token
          else tokenLoop left'
      end
  end.

Definition waitForToken (maxAttempts : nat) : M (option string) :=
  try_catch (tokenLoop maxAttempts) (fun _ => ret None).

(** A handle that must be there: calling a method on [null] throws. *)
Definition element : M unit :=
  found <- await (handle env) ;;
  if found then ret tt else raise "TypeError".

(** First attempt only: wait for the audio button and click it. [false]
    stands for the [continue] of this block. *)
Definition clickAudioButton : M bool :=
  try_catch
    (_ <- await (audioButtonReady env) ;;
     audioButton <- await (handle env) ;;
     if negb audioButton then ret false
     else
       _ <- await (scroll env) ;;
       _ <- await (click env) ;;
       _ <- act ClickAudioButton ;;
       ret true)
    (fun _ => ret false).

(** The race between the audio challenge and the blocking message. *)
Definition raceAfterAudioButton : M (option AudioResult) :=
  first <- ask (settlesFirst env) ;;
  audioResult <- (match first with
                  | FirstRacer =>
                      audioUrl <- ask (audioChallenge env) ;;
                      ret (if truthy_opt audioUrl
                           then option_map AudioUrl audioUrl else None)
                  | _ =>
                      blocked <- ask (blockingMessage env) ;;
                      ret (if blocked then Some AudioBlocked else None)
                  end) ;;
  _ <- act Background ;;
  ret audioResult.

(** The race after the verify click. *)
Definition raceAfterVerify : M (option VerifyResult) :=
  first <- ask (settlesFirst env) ;;
  verifyResult <- (match first with
                   | FirstRacer =>
                       token <- waitForToken 50 ;;
                       ret (if truthy_opt token
                            then option_map VerifyToken token else None)
                   | SecondRacer =>
                       failed <- ask (failedChallenge env) ;;
                       ret (if failed then Some NeedMore else None)
                   | ThirdRacer =>
                       blocked <- ask (blockingMessage env) ;;
                       ret (if blocked then Some VerifyBlocked else None)
                   end) ;;
  _ <- act Background ;;
  ret verifyResult.

(** No transcription: the reload button is clicked and the loop goes on. *)
Definition reloadAudio : M Next :=
  _ <- element ;;
  _ <- await (click env) ;;
  _ <- act ClickReload ;;
  ret Continue.

(** What the attempt does with the result of the race after the verify
    click. *)
Definition afterVerify (verifyResult : option VerifyResult) : M Next :=
  match verifyResult with
  | None => ret Continue
  | Some (VerifyToken token) => ret (Return (Some token))
  | Some VerifyBlocked =>
      _ <- act Blocked ;;
      ret (Return None)
  | Some NeedMore => ret Continue
  end.

(** What the attempt does with the result of the race after the click on
    the audio button. *)
Definition afterAudioButton (audioResult : option AudioResult) : M Next :=
  match audioResult with
  | None => ret Continue
  | Some AudioBlocked =>
      _ <- act Blocked ;;
      ret (Return None)
  | Some (AudioUrl url) =>
      transcription <- downloadAndTranscribeAudio ;;
      match transcription with
      | Some answer =>
          if truthy_string answer then
            _ <- element ;;
            _ <- await (click env) ;;
            _ <- await (typeText env) ;;
            _ <- act (TypeResponse answer) ;;
            _ <- element ;;
            _ <- await (click env) ;;
            _ <- act ClickVerify ;;
            verifyResult <- raceAfterVerify ;;
            afterVerify verifyResult
          else reloadAudio
      | None => reloadAudio
      end
  end.

(** The body of the attempt loop, inside its [try]. *)
Definition attempt (audioAttempts : nat) : M Next :=
  try_catch
    (proceed <- (if (audioAttempts =? 1)%nat then clickAudioButton else ret true) ;;
     if negb proceed then ret Continue
     else
       audioResult <- raceAfterAudioButton ;;
       afterAudioButton audioResult)
    (fun _ => ret Continue).

(** The attempt loop, entered with [left = maxAudioAttempts - audioAttempts].
    The flag [isBlocked] of its test is only set right before a [return]. *)
Fixpoint attemptLoop (left : nat) (audioAttempts : nat) : M (option string) :=
  match left with
  | O => ret None
  | S left' =>
      let audioAttempts := S audioAttempts in
      _ <- act (Attempt audioAttempts) ;;
      next <- attempt audioAttempts ;;
      match next with
      | Continue => attemptLoop left' audioAttempts
      | Return result => ret result
      end
  end.

(** The race after the checkbox click. *)
Definition raceAfterCheckbox : M (option (option string)) :=
  first <- ask (settlesFirst env) ;;
  checkboxResult <- (match first with
                     | FirstRacer =>
                         token <- waitForToken 50 ;;
                         ret (if truthy_opt token then Some token else None)
                     | _ =>
                         frame <- ask (challengeFrameReady env) ;;
                         ret (if frame then Some None else None)
                     end) ;;
  _ <- act Background ;;
  ret checkboxResult.

Definition solveCaptchaChallenge : M (option string) :=
  try_catch
    (if negb (findCaptchaFrame env) then ret None
     else
       _ <- await (click env) ;;
       _ <- act ClickCheckbox ;;
       checkboxResult <- raceAfterCheckbox ;;
       match checkboxResult with
       | None =>
           _ <- await (errorScreenshot env) ;;
           _ <- act ErrorScreenshot ;;
           ret None
       | Some (Some token) => ret (Some token)
       | Some None =>
           immediateToken <- waitForToken 10 ;;
           if truthy_opt immediateToken then ret immediateToken
           else attemptLoop maxAudioAttempts 0
       end)
    (fun _ => ret None).

End Solver.

Definition isAxiosGet (a : Action) : bool :=
  match a with AxiosGet _ => true | _ => false end.

Definition isWitRequest (a : Action) : bool :=
  match a with WitRequest _ => true | _ => false end.

Definition isReadToken (a : Action) : bool :=
  match a with ReadToken => true | _ => false end.

Definition isBlocked (a : Action) : bool :=
  match a with Blocked => true | _ => false end.

Definition isAttempt (a : Action) : bool :=
  match a with Attempt _ => true | _ => false end.

(** A download attempt fails: transport error or a status other than 200. *)
Definition failed (o : Outcome Response) : bool :=
  match o with
  | Returned r => negb (status r =? 200)%nat
  | Threw _ => true
  end.

(** The result of [downloadAndTranscribeAudio] once the audio data is
    there: the text field of the response of the speech service, asked at
    call [n]. *)
Definition transcribed (env : Env) (n : nat) : Res (option string) :=
  match witRequest env n with
  | Returned fullResponse => Done (textField env fullResponse)
  | Threw _ => Done None
  end.

(** The attempt number [audioAttempts], started at call [t], gets to its
    race after the audio button, which starts at call [n]: on the first
    attempt the audio button is waited for, found, scrolled to and clicked
    before. *)
Definition reachesAudioRace (env : Env) (audioAttempts t n : nat) : Prop :=
  if (audioAttempts =? 1)%nat then
    audioButtonReady env t = Returned tt /\
    handle env (1 + t) = Returned true /\
    scroll env (2 + t) = Returned tt /\
    click env (3 + t) = Returned tt /\
    n = (4 + t)%nat
  else n = t.

(** From its race after the audio button, started at call [n], the attempt
    gets to its race after the verify click, which starts at call [m]: the
    audio challenge settles the first race, the audio file is there after
    [d] failed requests, the speech service returns a non-empty text, and
    the text is typed and the verify button clicked. *)
Definition reachesVerifyRace (env : Env) (n d m : nat) : Prop :=
  settlesFirst env n = FirstRacer /\
  (exists url, audioChallenge env (1 + n) = Some url /\ truthy_string url = true) /\
  (d < maxDownloadAttempts)%nat /\
  (forall j, (j < d)%nat -> failed (download env (2 + n + j)) = true) /\
  (exists audio fullResponse answer,
      download env (2 + n + d) = Returned (mkResponse 200 audio) /\
      witRequest env (3 + n + d) = Returned fullResponse /\
      textField env fullResponse = Some answer /\
      truthy_string answer = true) /\
  handle env (4 + n + d) = Returned true /\
  click env (5 + n + d) = Returned tt /\
  typeText env (6 + n + d) = Returned tt /\
  handle env (7 + n + d) = Returned true /\
  click env (8 + n + d) = Returned tt /\
  m = (9 + n + d)%nat.

(** The run returned [null] right after a blocked signal, having started
    one attempt since the state [st]. *)
Definition endsBlocked (st : St Action) (x : Res (option string) * St Action) : Prop :=
  fst x = Done None /\
  counting isAttempt (snd x) = S (counting isAttempt st) /\
  exists pre, trace (snd x) = pre ++ [Blocked].

(** No blocked signal has been seen, or the run returned [null] right after
    the first one. *)
Definition blockedLast {B : Type} (null : B) (x : Res B * St Action) : Prop :=
  counting isBlocked (snd x) = 0%nat \/
  (fst x = Done null /\
   exists pre, trace (snd x) = pre ++ [Blocked] /\ count isBlocked pre = 0%nat).

(** *** Sample sessions *)

(** A session in which every page operation succeeds, the token field stays
    empty and the download fails, with the given answers to the races. *)
Definition session (first : nat -> Racer) (audioUrl : option string)
           (downloads : nat -> Outcome Response) (tokens : nat -> Outcome (option string))
  : Env :=
  mkEnv downloads
        (fun _ => Returned "{ text: seven two }")
        (fun _ => Some "seven two")
        tokens
        true
        (fun _ => true)
        first
        (fun _ => Returned tt)
        (fun _ => Returned tt)
        (fun _ => Returned true)
        (fun _ => Returned tt)
        (fun _ => Returned tt)
        (fun _ => Returned tt)
        (fun _ => audioUrl)
        (fun _ => true)
        (fun _ => false).

Definition noToken (n : nat) : Outcome (option string) := Returned None.

Definition unreachable (n : nat) : Outcome Response := Threw "ECONNRESET".

(** The blocking message wins the race after the click on the audio
    button. *)
Definition blockedAtOnce : Env :=
  session (fun _ => SecondRacer) None unreachable noToken.

(** The audio challenge appears and is transcribed; the blocking message
    wins the race after the click on verify (the race started at call
    26). *)
Definition blockedAfterVerify : Env :=
  session (fun n => if (n =? 1)%nat then SecondRacer
                    else if (n =? 17)%nat then FirstRacer
                    else ThirdRacer)
          (Some "https://www.google.com/recaptcha/api2/payload/audio.mp3")
          (fun _ => Returned (mkResponse 200 "ID3"))
          noToken.

(** The download answers 503 twice, then 200. *)
Definition thirdTimeLucky : Env :=
  session (fun _ => FirstRacer) None
          (fun n => if (n <? 2)%nat then Returned (mkResponse 503 "")
                    else Returned (mkResponse 200 "ID3"))
          noToken.

(** The first read of the token field fails because the page navigates;
    from the second read on the token is there. *)
Definition tornDown : Env :=
  session (fun _ => FirstRacer) None unreachable
          (fun n => if (n =? 0)%nat
                    then Threw "Execution context was destroyed"
                    else Returned (Some "03AGdBq27")).

End Audio.

(** ** What a run returns and how much it does *)

(** Every value that [m] returns satisfies [P]. *)
Definition yields {Act A : Type} (P : A -> Prop) (m : M Act A) : Prop :=
  forall st a st', m st = (Done a, st') -> P a.

(** Every run of [m] returns a value: it neither throws nor waits for
    ever. *)
Definition returns {Act A : Type} (m : M Act A) : Prop :=
  forall st, exists a st', m st = (Done a, st').

(** A run of [m] adds at most [k] actions that satisfy [p]. *)
Definition grows {Act A : Type} (p : Act -> bool) (k : nat) (m : M Act A) : Prop :=
  forall st, (counting p (snd (m st)) <= counting p st + k)%nat.

(** ** The result tracker (class ResultTracker) *)

Module Stats.

(** The two copies of the class differ in one expression of [addResult]:
    the visual solver stores [result.token ? true : false], the audio solver
    stores [result.success]. *)
Inductive Solver : Type :=
| VisualSolver
| AudioSolver.

(** The argument of [addResult], with the two fields that are read; a
    field that the caller left out is [None], resp. [false]. *)
Record Report : Type := mkReport {
  token : option string;
  success : bool
}.

Record Entry : Type := mkEntry {
  succeeded : bool;
  timestamp : Z
}.

Record ResultTracker : Type := mkResultTracker {
  results : list Entry;
  startTime : Z;
  maxResults : nat;
  firstProcessingTime : option Z
}.

(** [new ResultTracker()] at clock reading [now]. *)
Definition create (now : Z) : ResultTracker :=
  mkResultTracker [] now 500 None.

(** [!this.firstProcessingTime]: [null] and [0] are falsy. *)
Definition unset (t : option Z) : bool :=
  match t with
  | None => true
  | Some z => (z =? 0)%Z
  end.

Definition recorded (v : Solver) (result : Report) : bool :=
  match v with
  | VisualSolver => truthy_opt (token result)
  | AudioSolver => success result
  end.

(** [addResult(result)]; [firstNow] and [pushNow] are the readings of
    [Date.now()] at its two calls. *)
Definition addResult (v : Solver) (firstNow pushNow : Z) (result : Report)
           (t : ResultTracker) : ResultTracker :=
  let first :=
    if unset (firstProcessingTime t) then Some firstNow else firstProcessingTime t in
  let pushed := results t ++ [mkEntry (recorded v result) pushNow] in
  mkResultTracker
    (if (maxResults t <? length pushed)%nat then tl pushed else pushed)
    (startTime t) (maxResults t) first.

Record Statistics : Type := mkStatistics {
  successRate : string;
  avgTimePerToken : string;
  totalAttempts : nat;
  successfulTokens : nat
}.

Section Arithmetic.

(** The numbers of the runtime: the conversion of an integer, division,
    multiplication, and [x.toFixed(digits)]. *)
Variable number : Type.
Variable fromInteger : Z -> number.
Variables divide times : number -> number -> number.
Variable toFixed : number -> nat -> string.

(** [getStats()] at clock reading [now]. *)
Definition getStats (now : Z) (t : ResultTracker) : option Statistics :=
  if (length (results t) =? 0)%nat then None
  else
    let successCount := length (filter succeeded (results t)) in
    let successRate :=
      times (divide (fromInteger (Z.of_nat successCount))
                    (fromInteger (Z.of_nat (length (results t)))))
            (fromInteger 100) in
    let avgTimePerToken :=
      if (0 <? successCount)%nat then
        let totalElapsedSeconds :=
          divide (fromInteger (now - startTime t)) (fromInteger 1000) in
        divide totalElapsedSeconds (fromInteger (Z.of_nat successCount))
      else fromInteger 0 in
    Some (mkStatistics (toFixed successRate 2) (toFixed avgTimePerToken 2)
                       (length (results t)) successCount).

End Arithmetic.

(** One call of [addResult]: the two clock readings and the argument. *)
Record Call : Type := mkCall {
  firstNow : Z;
  pushNow : Z;
  result : Report
}.

Definition addResults (v : Solver) (calls : list Call) (t : ResultTracker)
  : ResultTracker :=
  fold_left (fun t c => addResult v (firstNow c) (pushNow c) (result c) t) calls t.

Definition entryOf (v : Solver) (c : Call) : Entry :=
  mkEntry (recorded v (result c)) (pushNow c).

(** The last [n] elements of a list. *)
Definition lastn {A : Type} (n : nat) (l : list A) : list A :=
  skipn (length l - n) l.

(** What [generateTokens] of the visual solver reports for a solved
    challenge: [{ success: true, status: 'ACTIVE' }]. *)
Definition reportedSolved : Report := mkReport None true.

(** Two solved challenges, reported one second apart. *)
Definition twoReports : list Call :=
  [mkCall 1000 1000 reportedSolved; mkCall 1000 2000 reportedSolved].

(** Whole numbers as a stand-in for the numbers of the runtime in the
    samples: [toFixed] prints the integer. *)
Definition wholeFixed (z : Z) (digits : nat) : string := decimal (Z.to_nat z).

End Stats.

(** ** One tab of the visual generator (function generateTokens) *)

Module Generator.

Import Stats.

Inductive Action : Type :=
| EmitTokenGenerated (token : string)
| EmitTokenError (message : string)
| CountToken
| AddResult (result : Report)
| PrintStats
| ClosePage.

(** How the promise of [solveCaptchaChallenge(page)] ends: it is fulfilled
    with a token or null, it is rejected, or it is never settled (the solver
    waits for a callback of the watcher that may never come). *)
Inductive Awaited (A : Type) : Type :=
| Fulfilled (a : A)
| Rejected (message : string)
| Pending.
Arguments Fulfilled {A} a.
Arguments Rejected {A} message.
Arguments Pending {A}.

(** What the browser, the solver and the listeners answer: [solve] is the
    promise of [solveCaptchaChallenge(page)], [emit] tells whether the
    listeners of an emitted event return or throw. The calls of the browser
    ([newPage], [setUserAgent], [goto], [close]) come with a timeout: they
    return or throw. *)
Record Env : Type := mkEnv {
  newPage : nat -> Outcome unit;
  setUserAgent : nat -> Outcome unit;
  goto : nat -> Outcome unit;
  solve : nat -> Awaited (option string);
  emit : nat -> Outcome unit;
  close : nat -> Outcome unit
}.

(** [await promise]: the function goes on when the promise is fulfilled,
    takes its error when it is rejected, and stays there when it is never
    settled. *)
Definition awaitPromise {Act A : Type} (oracle : nat -> Awaited A) : M Act A :=
  fun st =>
    match oracle (tick st) with
    | Fulfilled a => (Done a, mkSt (S (tick st)) (trace st))
    | Rejected e => (Raised e, mkSt (S (tick st)) (trace st))
    | Pending => (Hung, st)
    end.

(** [try { body } finally { final }]: the final block runs when the body
    returns or throws; an error of the final block replaces the outcome of
    the body. When the body never settles the final block does not run. *)
Definition ensure {Act A : Type} (body : M Act A) (final : M Act unit) : M Act A :=
  fun st =>
    match body st with
    | (Done r, st') =>
        match final st' with
        | (Done _, st'') => (Done r, st'')
        | (Raised e, st'') => (Raised e, st'')
        | (Hung, st'') => (Hung, st'')
        | (OutOfFuel, st'') => (OutOfFuel, st'')
        end
    | (Raised e, st') =>
        match final st' with
        | (Done _, st'') => (Raised e, st'')
        | (Raised e', st'') => (Raised e', st'')
        | (Hung, st'') => (Hung, st'')
        | (OutOfFuel, st'') => (OutOfFuel, st'')
        end
    | r => r
    end.

Section Tab.

Variable env : Env.

Local Abbreviation M := (M Action).

(** [{ success: true, status: 'ACTIVE' }] and
    [{ success: false, status: 'ERROR' }]: neither has a token field. *)
Definition active : Report := mkReport None true.
Definition error : Report := mkReport None false.

(** The async function of one tab. *)
Definition tabPromise : M unit :=
  _ <- await (newPage env) ;;
  ensure
    (try_catch
       (_ <- await (setUserAgent env) ;;
        _ <- await (goto env) ;;
        token <- awaitPromise (solve env) ;;
        _ <- (match token with
              | Some value =>
                  if truthy_string value then
                    _ <- await (emit env) ;;
                    _ <- act (EmitTokenGenerated value) ;;
                    _ <- act CountToken ;;
                    act (AddResult active)
                  else act (AddResult error)
              | None => act (AddResult error)
              end) ;;
        act PrintStats)
       (fun message =>
          _ <- await (emit env) ;;
          _ <- act (EmitTokenError message) ;;
          _ <- act (AddResult error) ;;
          act PrintStats))
    (_ <- act ClosePage ;;
     try_catch (await (close env)) (fun _ => ret tt)).

End Tab.

Definition isAddResult (a : Action) : bool :=
  match a with AddResult _ => true | _ => false end.

Definition isClosePage (a : Action) : bool :=
  match a with ClosePage => true | _ => false end.

(** A result that the tracker of the visual solver counts as a success. *)
Definition isSuccess (a : Action) : bool :=
  match a with AddResult result => recorded VisualSolver result | _ => false end.

(** A tab whose challenge is solved. *)
Definition solved : Env :=
  mkEnv (fun _ => Returned tt) (fun _ => Returned tt) (fun _ => Returned tt)
        (fun _ => Fulfilled (Some "03AGdBq27"))
        (fun _ => Returned tt) (fun _ => Returned tt).

(** A tab whose solver waits for ever. *)
Definition stuck : Env :=
  mkEnv (fun _ => Returned tt) (fun _ => Returned tt) (fun _ => Returned tt)
        (fun _ => Pending)
        (fun _ => Returned tt) (fun _ => Returned tt).

End Generator.

(** ** What the watcher has announced *)

Module Announcements.

Import Watcher.

Definition isTokenFound (e : Event) : bool :=
  match e with TokenFound _ => true | _ => false end.

Definition isChallengeOpen (e : Event) : bool :=
  match e with ChallengeOpen _ => true | _ => false end.

Definition isChallengeChange (e : Event) : bool :=
  match e with ChallengeChange _ => true | _ => false end.

(** The challenge of an invocation of [onChallengeOpen] or
    [onChallengeChange]. *)
Definition announcement (e : Event) : option ChallengeInfo :=
  match e with
  | ChallengeOpen info | ChallengeChange info => Some info
  | _ => None
  end.

(** The first invocation of [onChallengeOpen] or [onChallengeChange]. *)
Fixpoint firstAnnounced (evs : list Event) : option Event :=
  match evs with
  | [] => None
  | e :: rest =>
      match announcement e with
      | Some _ => Some e
      | None => firstAnnounced rest
      end
  end.

(** The challenge of the last such invocation. *)
Fixpoint lastAnnounced (evs : list Event) : option ChallengeInfo :=
  match evs with
  | [] => None
  | e :: rest =>
      match lastAnnounced rest with
      | Some info => Some info
      | None => announcement e
      end
  end.

(** The snapshot that the watcher stores for an announced challenge. *)
Definition snapshotOf (last : option ChallengeInfo)
  : option string * option (list string) :=
  match last with
  | Some info => (Some (text info), imageUrls info)
  | None => (None, None)
  end.

(** Every challenge that a challenge detector reads has a prompt text. *)
Definition readsPrompt (i : Input) : Prop :=
  match move i with
  | PollChallenge o =>
      match challengeInfo o with
      | Returned (Some info) => text info <> ""
      | _ => True
      end
  | _ => True
  end.

(** The token is read at the third iteration of the token detector and
    stays in the page. *)
Definition tokenSeenAgain : list Input :=
  [PollToken (TokenEval (Returned None));
   PollToken (TokenEval (Threw "Execution context was destroyed"));
   PollToken (TokenEval (Returned (Some "03AGdBq27")));
   PollToken (TokenEval (Returned (Some "03AGdBq27")))].

(** The detector finds the challenge frame, reads the same challenge twice,
    then another one. *)
Definition twoChallenges : list Input :=
  [PollChallenge (readsChallenge crosswalks);
   PollChallenge (readsChallenge crosswalks);
   PollChallenge (readsChallenge crosswalks);
   PollChallenge (readsChallenge buses)].

(** The challenge is read and announced, then the watcher is given its
    page again while it runs, and the same challenge is read once more. *)
Definition pageSetAgain : list Input :=
  [PollChallenge (readsChallenge crosswalks);
   PollChallenge (readsChallenge crosswalks);
   SetPage OpenPage;
   PollChallenge (readsChallenge crosswalks)].

(** The token detector has its read in flight when the watcher is stopped;
    the answer arrives afterwards. *)
Definition lateToken : list Input :=
  [PollToken (TokenEval (Returned None)); IssueToken].

(** After the stop the pending reads are answered and the detectors are
    polled again. *)
Definition afterStop : list Input :=
  [PollReady checkboxReady; PollToken (TokenEval (Returned (Some "03AGdBq27")));
   IssueToken; PollToken (TokenEval (Returned (Some "03AGdBq27")))].

(** An invocation that announces no challenge; a token that is reported is
    truthy. *)
Definition quietEvent (e : Event) : Prop :=
  match e with
  | CaptchaReady | TilesReady _ => True
  | TokenFound token => truthy_string token = true
  | _ => False
  end.

(** The input is a move of a challenge detector that reads [info]. *)
Definition readsInfo (i : Input) (info : ChallengeInfo) : Prop :=
  exists o, move i = PollChallenge o /\ challengeInfo o = Returned (Some info).

(** What one move of a detector does to the fields of the watcher and which
    callbacks it invokes: the flags stay; either the stored snapshot stays
    and no challenge is announced, or the challenge that the move reads is
    stored and announced, by [onChallengeOpen] when the stored text was
    falsy and by [onChallengeChange] otherwise. *)
Definition effect (i : Input) (s s' : State) (evs : list Event) : Prop :=
  page s' = page s /\ isWatching s' = isWatching s /\
  ((currentChallengeText s' = currentChallengeText s /\
    currentImageUrls s' = currentImageUrls s /\
    Forall quietEvent evs) \/
   (exists info,
       readsInfo i info /\
       currentChallengeText s' = Some (text info) /\
       currentImageUrls s' = imageUrls info /\
       ((truthy_opt (currentChallengeText s) = false /\
         evs = [TilesReady info; ChallengeOpen info]) \/
        (truthy_opt (currentChallengeText s) = true /\
         evs = [TilesReady info; ChallengeChange info])))).

(** The invariants of the detectors. *)

(** Nothing has been announced and the stored text is unset, or the first
    announcement was an open. *)
Definition opens_first (sys : System) : Prop :=
  (firstAnnounced (fired sys) = None /\
   truthy_opt (currentChallengeText (state sys)) = false) \/
  (exists info, firstAnnounced (fired sys) = Some (ChallengeOpen info)).

(** With [resets] calls that set the stored text back to null so far:
    [onChallengeOpen] has been invoked at most once per reset and once
    more, the last of these only if the stored text is set. *)
Definition opened_upto (resets : nat) (sys : System) : Prop :=
  if truthy_opt (currentChallengeText (state sys))
  then (count isChallengeOpen (fired sys) <= S resets)%nat
  else (count isChallengeOpen (fired sys) <= resets)%nat.

(** The stored snapshot is the one announced last. *)
Definition stores_last (sys : System) : Prop :=
  (currentChallengeText (state sys), currentImageUrls (state sys))
  = snapshotOf (lastAnnounced (fired sys)).

End Announcements.

(** ** What the visual solver returns *)

Module VisualResults.

Import Watcher Analyzer Visual.

Definition isWatcherCleanup (a : Action) : bool :=
  match a with WatcherCleanup => true | _ => false end.

(** The token was handed to [onTokenFound] during one of the waits. *)
Definition reported (env : Env) (value : string) : Prop :=
  exists n, In (TokenFound value) (timeline env n).

(** [null], or a token that the watcher reported. *)
Definition reportedOrNull (env : Env) (token : option string) : Prop :=
  match token with
  | None => True
  | Some value => reported env value
  end.

(** The checkbox never becomes ready. *)
Definition neverReady : Env :=
  mkEnv false true (fun _ => []) (fun _ => true)
        (fun _ => Returned None) (fun _ => Returned true)
        (fun _ => Returned tt) (fun _ => Returned tt)
        (fun _ => Returned true) (fun _ => Returned tt)
        (fun _ => mkVisionCall (Returned tt) (Returned "{}"))
        (fun _ => None) (fun _ => Returned 9)
        (fun _ => Returned true) (fun _ => Returned true).

End VisualResults.

(** ** The prompt and the choice of the analyzer *)

Module Analysis.

Import Analyzer.

(** [s.replace(/\.$/, '')]: a full stop at the very end is dropped. *)
Fixpoint dropFinalDot (s : string) : string :=
  match s with
  | EmptyString => EmptyString
  | String c EmptyString => if (c =? ".")%char then EmptyString else s
  | String c s' => String c (dropFinalDot s')
  end.

Definition dynamicInstruction : string := "Click verify once there are none left".

(** The first lines of [analyzeWithGemini]: the challenge text up to the
    instruction of a dynamic challenge, trimmed, without its final full
    stop. *)
Definition mainPrompt (prompt : string) : string :=
  dropFinalDot (trim (nth 0 (split dynamicInstruction prompt) EmptyString)).

End Analysis.

(** ** The text field of the transcription (function downloadAndTranscribeAudio) *)

Module Transcript.

Local Open Scope string_scope.

(** The double quote, U+0022. *)
Definition quote : ascii := "034"%char.

Definition not_quote (c : ascii) : bool := negb (c =? quote)%char.

(** The longest prefix of [s] whose code units satisfy [p], and what
    follows it: a greedy repetition of a character class. *)
Fixpoint takeRun (p : ascii -> bool) (s : string) : string :=
  match s with
  | EmptyString => EmptyString
  | String c s' => if p c then String c (takeRun p s') else EmptyString
  end.

Fixpoint afterRun (p : ascii -> bool) (s : string) : string :=
  match s with
  | EmptyString => EmptyString
  | String c s' => if p c then afterRun p s' else s
  end.

(** [s] without the prefix [p], when it starts with it. *)
Fixpoint stripPrefix (p s : string) : option string :=
  match p with
  | EmptyString => Some s
  | String a p' =>
      match s with
      | EmptyString => None
      | String b s' => if (a =? b)%char then stripPrefix p' s' else None
      end
  end.

(** The key of the pattern: the word text between quotes, then a colon. *)
Definition textKey : string := String quote ("text" ++ String quote ":").

(** A match of the pattern (key, white space, quote, one or more code units
    other than a quote, quote) at the start of [s]: the matched text and its
    group. The white space and the group are greedy; a shorter repetition
    cannot match, since the next code unit has to be a quote. *)
Definition matchAt (s : string) : option (string * string) :=
  match stripPrefix textKey s with
  | None => None
  | Some s1 =>
      match afterRun is_space s1 with
      | EmptyString => None
      | String q s2 =>
          if (q =? quote)%char then
            match takeRun not_quote s2, afterRun not_quote s2 with
            | String _ _ as group, String _ _ =>
                Some (textKey ++ takeRun is_space s1
                        ++ String quote (group ++ String quote EmptyString),
                      group)
            | _, _ => None
            end
          else None
      end
  end.

(** All matches from left to right, each search starting where the previous
    match ended; [skip] counts the code units of a match that are still to
    be passed. *)
Fixpoint textFields_from (skip : nat) (s : string) : list (string * string) :=
  match s with
  | EmptyString => []
  | String c s' =>
      match skip with
      | S k => textFields_from k s'
      | O =>
          match matchAt s with
          | Some (matched, group) =>
              (matched, group) :: textFields_from (String.length matched - 1) s'
          | None => textFields_from 0 s'
          end
      end
  end.

Definition textFields (s : string) : list (string * string) := textFields_from 0 s.

(** The end of [downloadAndTranscribeAudio]: the matches of the global
    pattern, the last of them, and the group of the pattern matched again on
    it. Without a match, [null]; the index [1] of a failed second match
    throws, and the [catch] of the function returns [null]. *)
Definition audioTranscript (fullResponse : string) : option string :=
  match textFields fullResponse with
  | [] => None
  | m :: ms =>
      let lastText := fst (last ms m) in
      match textFields lastText with
      | (_, group) :: _ => Some group
      | [] => None
      end
  end.

(** A field of the response with the given value. *)
Definition field (value : string) : string :=
  textKey ++ " " ++ String quote (value ++ String quote EmptyString).

(** The speech service answers in chunks, each with the text heard so
    far. *)
Definition chunked : string :=
  "{" ++ field "seven" ++ "}" ++ "{" ++ field "seven two" ++ ", is_final }".

End Transcript.

(** A session of the audio solver with that extraction. *)

Module Heard.

Import Audio Transcript.

(** A session whose speech service answers in chunks, with the extraction
    of the text field as the function does it. *)
Definition heard : Env :=
  mkEnv (fun _ => Returned (mkResponse 200 "ID3"))
        (fun _ => Returned chunked)
        audioTranscript
        noToken true (fun _ => true) (fun _ => FirstRacer)
        (fun _ => Returned tt) (fun _ => Returned tt) (fun _ => Returned true)
        (fun _ => Returned tt) (fun _ => Returned tt) (fun _ => Returned tt)
        (fun _ => None) (fun _ => false) (fun _ => false).

End Heard.

(** ** What the audio solver types and returns *)

Module AudioResults.

Import Audio.

Definition typesNothing (a : Action) : bool :=
  match a with TypeResponse t => negb (truthy_string t) | _ => false end.

(** [null], or a non-empty token that a read of the response field
    returned. *)
Definition readOrNull (env : Env) (token : option string) : Prop :=
  match token with
  | None => True
  | Some value =>
      truthy_string value = true /\ exists n, tokenRead env n = Returned (Some value)
  end.

Definition returnsRead (env : Env) (next : Next) : Prop :=
  match next with
  | Continue => True
  | Return result => readOrNull env result
  end.

End AudioResults.

(** ** The polling helpers of the audio solver *)

Module Polling.

Inductive Action : Type :=
| Wait (ms : nat).

(** What the challenge frame answers: [query] is a selector query
    ([frame.$], whether a handle came back), [visible] the evaluation of the
    visibility test on the handle, [textContent] the text of the element,
    [elements] the page side of [waitForAudioChallenge] (the audio URL, or
    null while the challenge is not complete), [content] the HTML of the
    frame. *)
Record Env : Type := mkEnv {
  query : nat -> Outcome bool;
  visible : nat -> Outcome bool;
  textContent : nat -> Outcome string;
  elements : nat -> Outcome (option string);
  content : nat -> Outcome string
}.

(** The errors that the message checks take for a page in navigation. *)
Definition transient (message : string) : bool :=
  includes "Execution context was destroyed" message
  || includes "Attempted to use detached Frame" message.

(** How one pass through the body of a message check ends: by
    [return true], by going on to the next attempt, or by [return false]. *)
Inductive Pass : Type :=
| Found
| Next
| GiveUp.

Section Helpers.

Variable env : Env.

Local Abbreviation M := (M Action).

Definition pause : M Pass :=
  _ <- act (Wait 100) ;;
  ret Next.

(** The body of the loop of [checkForBlockingMessage] and of
    [checkForFailedChallenge]: the [try] block and its [catch]. *)
Definition look (phrase : string) : M Pass :=
  try_catch
    (message <- await (query env) ;;
     if message then
       isVisible <- await (visible env) ;;
       if isVisible then
         messageText <- await (textContent env) ;;
         if includes phrase messageText then ret Found else pause
       else pause
     else pause)
    (fun message => if negb (transient message) then ret GiveUp else ret Next).

(** The loop, entered with [left = maxAttempts - attempt]. *)
Fixpoint messageLoop (phrase : string) (left : nat) : M bool :=
  match left with
  | O => ret false
  | S left' =>
      pass <- look phrase ;;
      match pass with
      | Found => ret true
      | GiveUp => ret false
      | Next => messageLoop phrase left'
      end
  end.

Definition checkForBlockingMessage (maxAttempts : nat) : M bool :=
  try_catch (messageLoop "Try again later" maxAttempts) (fun _ => ret false).

Definition checkForFailedChallenge : M bool :=
  try_catch (messageLoop "Multiple correct solutions required" 20)
            (fun _ => ret false).

(** The loop of [waitForAudioChallenge]: [Some result] when the function
    returned from inside the loop, [None] when the attempts ran out. *)
Fixpoint audioLoop (left : nat) : M (option (option string)) :=
  match left with
  | O => ret None
  | S left' =>
      returned <- try_catch
                    (found <- await (elements env) ;;
                     match found with
                     | Some audioUrl => ret (Some (Some audioUrl))
                     | None => ret None
                     end)
                    (fun _ => ret (Some None)) ;;
      match returned with
      | Some result => ret (Some result)
      | None =>
          _ <- act (Wait 100) ;;
          audioLoop left'
      end
  end.

Definition waitForAudioChallenge (maxAttempts : nat) : M (option string) :=
  try_catch
    (returned <- audioLoop maxAttempts ;;
     match returned with
     | Some result => ret result
     | None =>
         _ <- try_catch (_ <- await (content env) ;; ret tt) (fun _ => ret tt) ;;
         ret None
     end)
    (fun _ => ret None).

End Helpers.

Definition isWait (a : Action) : bool :=
  match a with Wait _ => true end.

(** The frame shows the message from call [n] on: the query finds the
    element, it is visible, and its text is [text]. *)
Definition shows (env : Env) (text : string) (n : nat) : Prop :=
  query env n = Returned true /\
  visible env (1 + n) = Returned true /\
  textContent env (2 + n) = Returned text.

(** The frame shows nothing for two attempts, then the blocking message. *)
Definition blockedSoon : Env :=
  mkEnv (fun n => Returned (2 <=? n)%nat)
        (fun _ => Returned true)
        (fun _ => Returned "Try again later")
        (fun _ => Returned None)
        (fun _ => Returned "<html></html>").

(** The frame is detached during the whole check. *)
Definition detached : Env :=
  mkEnv (fun _ => Threw "Attempted to use detached Frame")
        (fun _ => Threw "Attempted to use detached Frame")
        (fun _ => Threw "Attempted to use detached Frame")
        (fun _ => Threw "Attempted to use detached Frame")
        (fun _ => Threw "Attempted to use detached Frame").

End Polling.


(** * Properties *)

(** ** Running asynchronous functions *)

Section Running.

Context {Act : Type}.

Lemma run_ret {A B : Type} (a : A) (k : A -> M Act B) (st : St Act) :
  (x <- ret a ;; k x) st = k a st.
Proof. reflexivity. Qed.

Lemma run_ask {A B : Type} (oracle : nat -> A) (k : A -> M Act B) (st : St Act) :
  (x <- ask oracle ;; k x) st
  = k (oracle (tick st)) (mkSt (S (tick st)) (trace st)).
Proof. reflexivity. Qed.

Lemma run_act {B : Type} (a : Act) (k : unit -> M Act B) (st : St Act) :
  (x <- act a ;; k x) st = k tt (mkSt (tick st) (trace st ++ [a])).
Proof. reflexivity. Qed.

Lemma run_await {A B : Type} (oracle : nat -> Outcome A) (k : A -> M Act B)
      (st : St Act) :
  (x <- await oracle ;; k x) st
  = match oracle (tick st) with
    | Returned a => k a (mkSt (S (tick st)) (trace st))
    | Threw e => (Raised e, mkSt (S (tick st)) (trace st))
    end.
Proof. unfold bind, await. now destruct (oracle (tick st)). Qed.

Lemma run_bind_bind {A B C : Type} (m : M Act A) (k : A -> M Act B)
      (h : B -> M Act C) (st : St Act) :
  (y <- (x <- m ;; k x) ;; h y) st = (x <- m ;; y <- k x ;; h y) st.
Proof. unfold bind. now destruct (m st) as [[a|e| |] st']. Qed.

(** *** Quantities that a function leaves unchanged *)

Variable f : St Act -> nat.

Lemma preserves_ret {A : Type} (a : A) : preserves f (@ret Act A a).
Proof. now intros st. Qed.

Lemma preserves_raise {A : Type} (e : string) : preserves f (@raise Act A e).
Proof. now intros st. Qed.

Lemma preserves_hang {A : Type} : preserves f (@hang Act A).
Proof. now intros st. Qed.

Lemma preserves_outOfFuel {A : Type} : preserves f (@outOfFuel Act A).
Proof. now intros st. Qed.

Lemma preserves_bind {A B : Type} (m : M Act A) (k : A -> M Act B) :
  preserves f m -> (forall a, preserves f (k a)) -> preserves f (x <- m ;; k x).
Proof.
  intros Hm Hk st. unfold bind. specialize (Hm st).
  destruct (m st) as [[a|e| |] st']; simpl in *; try exact Hm.
  now rewrite Hk.
Qed.

Lemma preserves_try_catch {A : Type} (body : M Act A) (handler : string -> M Act A) :
  preserves f body -> (forall e, preserves f (handler e)) ->
  preserves f (try_catch body handler).
Proof.
  intros Hb Hh st. unfold try_catch. specialize (Hb st).
  destruct (body st) as [[a|e| |] st']; simpl in *; try exact Hb.
  now rewrite Hh.
Qed.

Hypothesis f_trace : forall t t' tr, f (mkSt t tr) = f (mkSt t' tr).

Lemma preserves_ask {A : Type} (oracle : nat -> A) : preserves f (@ask Act A oracle).
Proof. intros [t tr]. simpl. apply f_trace. Qed.

Lemma preserves_await {A : Type} (oracle : nat -> Outcome A) :
  preserves f (@await Act A oracle).
Proof.
  intros [t tr]. unfold await. simpl.
  destruct (oracle t); simpl; apply f_trace.
Qed.

End Running.

Section Totality.

Context {Act : Type}.

Lemma total_ret {A : Type} (a : A) : total (@ret Act A a).
Proof. now intros st. Qed.

Lemma total_raise {A : Type} (e : string) : total (@raise Act A e).
Proof. now intros st. Qed.

Lemma total_ask {A : Type} (oracle : nat -> A) : total (@ask Act A oracle).
Proof. now intros st. Qed.

Lemma total_act (a : Act) : total (act a).
Proof. now intros st. Qed.

Lemma total_await {A : Type} (oracle : nat -> Outcome A) : total (@await Act A oracle).
Proof. intros st. unfold await. now destruct (oracle (tick st)). Qed.

Lemma total_bind {A B : Type} (m : M Act A) (k : A -> M Act B) :
  total m -> (forall a, total (k a)) -> total (x <- m ;; k x).
Proof.
  intros Hm Hk st. unfold bind. specialize (Hm st).
  destruct (m st) as [[a|e| |] st']; simpl in *; try exact Hm.
  apply Hk.
Qed.

Lemma total_try_catch {A : Type} (body : M Act A) (handler : string -> M Act A) :
  total body -> (forall e, total (handler e)) -> total (try_catch body handler).
Proof.
  intros Hb Hh st. unfold try_catch. specialize (Hb st).
  destruct (body st) as [[a|e| |] st']; simpl in *; try exact Hb.
  apply Hh.
Qed.

Lemma advances_ret {A : Type} (a : A) : advances (@ret Act A a).
Proof. now intros st. Qed.

Lemma advances_raise {A : Type} (e : string) : advances (@raise Act A e).
Proof. now intros st. Qed.

Lemma advances_ask {A : Type} (oracle : nat -> A) : advances (@ask Act A oracle).
Proof. intros st. simpl. lia. Qed.

Lemma advances_act (a : Act) : advances (act a).
Proof. intros st. simpl. lia. Qed.

Lemma advances_await {A : Type} (oracle : nat -> Outcome A) :
  advances (@await Act A oracle).
Proof. intros st. unfold await. destruct (oracle (tick st)); simpl; lia. Qed.

Lemma advances_bind {A B : Type} (m : M Act A) (k : A -> M Act B) :
  advances m -> (forall a, advances (k a)) -> advances (x <- m ;; k x).
Proof.
  intros Hm Hk st. unfold bind. specialize (Hm st).
  destruct (m st) as [[a|e| |] st']; simpl in *; try exact Hm.
  specialize (Hk a st'). lia.
Qed.

End Totality.

(** *** Counting actions *)

Lemma count_app {Act : Type} (p : Act -> bool) (l1 l2 : list Act) :
  count p (l1 ++ l2) = (count p l1 + count p l2)%nat.
Proof. unfold count. now rewrite filter_app, length_app. Qed.

Lemma counting_tick {Act : Type} (p : Act -> bool) (t t' : nat) (tr : list Act) :
  counting p (mkSt t tr) = counting p (mkSt t' tr).
Proof. reflexivity. Qed.

Lemma preserves_act {Act : Type} (p : Act -> bool) (a : Act) :
  p a = false -> preserves (counting p) (act a).
Proof.
  intros Ha st. unfold counting, act. simpl.
  rewrite count_app. unfold count at 2. simpl. rewrite Ha. simpl. lia.
Qed.

Ltac preserve :=
  repeat first
    [ assumption
    | apply preserves_ret
    | apply preserves_raise
    | apply preserves_hang
    | apply preserves_outOfFuel
    | apply preserves_ask; apply counting_tick
    | apply preserves_await; apply counting_tick
    | apply preserves_act; reflexivity
    | apply preserves_try_catch
    | apply preserves_bind
    | match goal with |- forall _, _ => intro end
    | match goal with
      | |- preserves _ (if ?b then _ else _) => destruct b
      | |- preserves _ (match ?x with _ => _ end) => destruct x
      end ].

(** ** Numbers *)

Lemma scale_pos : (0 < scale)%Z.
Proof. unfold scale. apply Z.pow_pos_nonneg; lia. Qed.

Lemma nearestEven_exact (a d : Z) : (0 < d)%Z -> nearestEven (a * d) d = a.
Proof.
  intros Hd. unfold nearestEven.
  rewrite Z.div_mul, Z.mod_mul by lia.
  replace (2 * 0 <? d)%Z with true by (symmetry; apply Z.ltb_lt; lia).
  reflexivity.
Qed.

Lemma nearestEven_floor (n d : Z) : (n / d <= nearestEven n d)%Z.
Proof.
  unfold nearestEven.
  destruct (2 * (n mod d) <? d)%Z; [lia|].
  destruct (d <? 2 * (n mod d))%Z; [lia|].
  destruct (Z.even (n / d)); lia.
Qed.

(** An integer below 2^53 is a double. *)
Lemma roundPositive_exact (v d : Z) :
  (0 < v < 2 ^ 53)%Z -> (0 < d)%Z -> roundPositive (v * d) d = Finite (v * scale).
Proof.
  intros Hv Hd. unfold roundPositive, exponent.
  replace (d <=? v * d)%Z with true by (symmetry; apply Z.leb_le; nia).
  rewrite Z.div_mul by lia.
  assert (He : (0 <= Z.log2 v < 53)%Z).
  { split; [apply Z.log2_nonneg|]. apply Z.log2_lt_pow2; lia. }
  set (e := Z.log2 v) in *.
  rewrite Z.max_l by lia.
  assert (Hm : (if (0 <=? e - 52)%Z then nearestEven (v * d) (d * 2 ^ (e - 52))
                else nearestEven (v * d * 2 ^ (- (e - 52))) d)
               = (v * 2 ^ (52 - e))%Z).
  { destruct (0 <=? e - 52)%Z eqn:E.
    - apply Z.leb_le in E. replace (e - 52)%Z with 0%Z by lia.
      replace (52 - e)%Z with 0%Z by lia.
      rewrite Z.pow_0_r, !Z.mul_1_r. now apply nearestEven_exact.
    - replace (- (e - 52))%Z with (52 - e)%Z by lia.
      replace (v * d * 2 ^ (52 - e))%Z with (v * 2 ^ (52 - e) * d)%Z by ring.
      now apply nearestEven_exact. }
  rewrite Hm.
  replace (v * 2 ^ (52 - e) * 2 ^ (e - 52 + 1074))%Z with (v * scale)%Z.
  - replace (v * scale <? 2 ^ 2098)%Z with true; [reflexivity|].
    symmetry. apply Z.ltb_lt. unfold scale.
    apply Z.lt_trans with (2 ^ 53 * 2 ^ 1074)%Z.
    + apply Z.mul_lt_mono_pos_r; [apply Z.pow_pos_nonneg; lia | lia].
    + rewrite <- Z.pow_add_r by lia. apply Z.pow_lt_mono_r; lia.
  - unfold scale. rewrite <- Z.mul_assoc, <- Z.pow_add_r by lia.
    now replace (52 - e + (e - 52 + 1074))%Z with 1074%Z by lia.
Qed.

Lemma round_exact (v d : Z) :
  (Z.abs v < 2 ^ 53)%Z -> (0 < d)%Z -> round (v * d) d = integer v.
Proof.
  intros Hv Hd. unfold round, integer.
  destruct (Z.eqb_spec (v * d) 0) as [E|E].
  - assert (v = 0)%Z by nia. subst v. reflexivity.
  - destruct (0 <? v * d)%Z eqn:P.
    + apply Z.ltb_lt in P. apply roundPositive_exact; [|exact Hd]. split; [nia | lia].
    + apply Z.ltb_ge in P.
      replace (- (v * d))%Z with (- v * d)%Z by ring.
      rewrite roundPositive_exact; [|split; [nia | lia] | exact Hd].
      cbn [negate]. f_equal. ring.
Qed.

Lemma round_integer (v : Z) : (Z.abs v < 2 ^ 53)%Z -> round v 1 = integer v.
Proof.
  intros Hv. rewrite <- (Z.mul_1_r v) at 1. apply round_exact; [exact Hv | lia].
Qed.

(** Rounding does not go below a power of two that the value has reached. *)
Lemma roundPositive_lower (n d p : Z) :
  (0 < d)%Z -> (0 <= p)%Z -> (d * 2 ^ p <= n)%Z ->
  atLeast (2 ^ p) (roundPositive n d).
Proof.
  intros Hd Hp Hn.
  assert (P2 : (0 < 2 ^ p)%Z) by (apply Z.pow_pos_nonneg; lia).
  assert (Hdn : (d <= n)%Z) by nia.
  unfold roundPositive, exponent.
  replace (d <=? n)%Z with true by (symmetry; apply Z.leb_le; lia).
  assert (Hq : (2 ^ p <= n / d)%Z) by (apply Z.div_le_lower_bound; lia).
  assert (He : (p <= Z.log2 (n / d))%Z).
  { rewrite <- (Z.log2_pow2 p) by lia. apply Z.log2_le_mono. exact Hq. }
  assert (Hlog : (2 ^ Z.log2 (n / d) <= n / d)%Z) by (apply Z.log2_spec; lia).
  set (e := Z.log2 (n / d)) in *.
  assert (Hnd : (d * 2 ^ e <= n)%Z).
  { apply Z.le_trans with (d * (n / d))%Z; [|apply Z.mul_div_le; lia].
    apply Z.mul_le_mono_nonneg_l; lia. }
  rewrite Z.max_l by lia.
  set (m := if (0 <=? e - 52)%Z then nearestEven n (d * 2 ^ (e - 52))
            else nearestEven (n * 2 ^ (- (e - 52))) d).
  assert (Hm : (2 ^ 52 <= m)%Z).
  { unfold m. destruct (0 <=? e - 52)%Z eqn:E.
    - apply Z.leb_le in E.
      etransitivity; [|apply nearestEven_floor].
      assert (0 < 2 ^ (e - 52))%Z by (apply Z.pow_pos_nonneg; lia).
      apply Z.div_le_lower_bound; [nia|].
      replace (d * 2 ^ (e - 52) * 2 ^ 52)%Z with (d * 2 ^ e)%Z; [exact Hnd|].
      rewrite <- Z.mul_assoc, <- Z.pow_add_r by lia. f_equal. f_equal. lia.
    - apply Z.leb_gt in E.
      etransitivity; [|apply nearestEven_floor].
      apply Z.div_le_lower_bound; [lia|].
      apply Z.le_trans with (d * 2 ^ e * 2 ^ (- (e - 52)))%Z.
      + rewrite <- Z.mul_assoc, <- Z.pow_add_r by lia.
        replace (e + - (e - 52))%Z with 52%Z by lia. lia.
      + apply Z.mul_le_mono_nonneg_r; [|exact Hnd].
        apply Z.pow_nonneg; lia. }
  assert (Hk : (2 ^ p * scale <= m * 2 ^ (e - 52 + 1074))%Z).
  { apply Z.le_trans with (2 ^ 52 * 2 ^ (e - 52 + 1074))%Z.
    - unfold scale. rewrite <- !Z.pow_add_r by lia.
      apply Z.pow_le_mono_r; lia.
    - apply Z.mul_le_mono_nonneg_r; [apply Z.pow_nonneg; lia | exact Hm]. }
  destruct (m * 2 ^ (e - 52 + 1074) <? 2 ^ 2098)%Z; [exact Hk | reflexivity].
Qed.

Lemma round_lower (n d p : Z) :
  (0 < d)%Z -> (0 <= p)%Z -> (d * 2 ^ p <= n)%Z -> atLeast (2 ^ p) (round n d).
Proof.
  intros Hd Hp Hn.
  assert (P2 : (0 < 2 ^ p)%Z) by (apply Z.pow_pos_nonneg; lia).
  unfold round.
  replace (n =? 0)%Z with false by (symmetry; apply Z.eqb_neq; nia).
  replace (0 <? n)%Z with true by (symmetry; apply Z.ltb_lt; nia).
  now apply roundPositive_lower.
Qed.

Lemma atLeast_weaken (z z' : Z) (x : number) :
  atLeast z x -> (z' <= z)%Z -> atLeast z' x.
Proof.
  pose proof scale_pos. destruct x as [|negative|k]; cbn [atLeast]; auto.
  intros Hk Hz. nia.
Qed.

Lemma atLeast_integer (z : Z) : atLeast z (integer z).
Proof. cbn [atLeast integer]. lia. Qed.

Lemma add_integer (a b : Z) :
  (Z.abs (a + b) < 2 ^ 53)%Z -> add (integer a) (integer b) = integer (a + b).
Proof.
  intros H. cbn [add integer].
  replace (a * scale + b * scale)%Z with ((a + b) * scale)%Z by ring.
  apply round_exact; [exact H | apply scale_pos].
Qed.

Lemma sub_integer (a b : Z) :
  (Z.abs (a - b) < 2 ^ 53)%Z -> sub (integer a) (integer b) = integer (a - b).
Proof.
  intros H. unfold sub. cbn [negate integer].
  replace (- (b * scale))%Z with (- b * scale)%Z by ring.
  now apply add_integer.
Qed.

Lemma mul_integer (a b : Z) :
  (Z.abs (a * b) < 2 ^ 53)%Z -> mul (integer a) (integer b) = integer (a * b).
Proof.
  intros H. cbn [mul integer].
  replace (a * scale * (b * scale))%Z with (a * b * (scale * scale))%Z by ring.
  pose proof scale_pos. apply round_exact; [exact H | nia].
Qed.

Lemma add_lower (a b p : Z) (x y : number) :
  atLeast a x -> atLeast b y -> (0 <= p)%Z -> (2 ^ p <= a + b)%Z ->
  atLeast (2 ^ p) (add x y).
Proof.
  pose proof scale_pos as S.
  destruct x as [|nx|kx], y as [|ny|ky]; cbn [atLeast add]; try tauto.
  - intros -> -> _ _. reflexivity.
  - intros Hx Hy Hp H. apply round_lower; [exact S | exact Hp | nia].
Qed.

Lemma sub_lower (a b p : Z) (x : number) :
  atLeast a x -> (0 <= p)%Z -> (2 ^ p <= a - b)%Z ->
  atLeast (2 ^ p) (sub x (integer b)).
Proof.
  intros Hx Hp H. unfold sub.
  apply add_lower with (a := a) (b := (- b)%Z); [exact Hx | | exact Hp | lia].
  cbn [negate integer atLeast]. lia.
Qed.

Lemma mul_lower (a b p : Z) (x y : number) :
  atLeast a x -> atLeast b y -> (0 < a)%Z -> (0 < b)%Z -> (0 <= p)%Z ->
  (2 ^ p <= a * b)%Z ->
  atLeast (2 ^ p) (mul x y).
Proof.
  pose proof scale_pos as S.
  destruct x as [|nx|kx], y as [|ny|ky]; cbn [atLeast mul]; try tauto.
  - intros -> -> _ _ _ _. reflexivity.
  - intros -> Hy Ha Hb _ _.
    replace (ky =? 0)%Z with false by (symmetry; apply Z.eqb_neq; nia).
    replace (ky <? 0)%Z with false by (symmetry; apply Z.ltb_ge; nia).
    reflexivity.
  - intros Hx -> Ha Hb _ _.
    replace (kx =? 0)%Z with false by (symmetry; apply Z.eqb_neq; nia).
    replace (kx <? 0)%Z with false by (symmetry; apply Z.ltb_ge; nia).
    reflexivity.
  - intros Hx Hy Ha Hb Hp H. apply round_lower; [nia | exact Hp |].
    assert (0 < 2 ^ p)%Z by (apply Z.pow_pos_nonneg; lia).
    assert (a * scale * (b * scale) <= kx * ky)%Z by (apply Z.mul_le_mono_nonneg; nia).
    nia.
Qed.

(** ** Tile coordinates *)

Lemma substring_whole_prefix (x y : string) :
  substring 0 (String.length x) (x ++ y) = x.
Proof.
  induction x as [|c x IH]; simpl.
  - now destruct y.
  - now rewrite IH.
Qed.

Lemma length_append (x y : string) :
  String.length (x ++ y) = (String.length x + String.length y)%nat.
Proof. induction x as [|c x IH]; simpl; [reflexivity | now rewrite IH]. Qed.

Lemma substring_brackets (x : string) :
  js_substring ("[" ++ x ++ "]") 1
               (Z.of_nat (String.length ("[" ++ x ++ "]")) - 1) = x.
Proof.
  unfold js_substring, clamp.
  replace (String.length ("[" ++ x ++ "]")) with (S (S (String.length x)))
    by (simpl; rewrite length_append; simpl; lia).
  replace (Z.to_nat (Z.of_nat (S (S (String.length x))) - 1))
    with (S (String.length x)) by lia.
  replace (Z.to_nat 1) with 1%nat by reflexivity.
  rewrite (Nat.min_l 1) by lia.
  rewrite (Nat.min_l (S (String.length x))) by lia.
  rewrite Nat.min_l by lia. rewrite Nat.max_r by lia.
  replace (S (String.length x) - 1)%nat with (String.length x) by lia.
  simpl. apply substring_whole_prefix.
Qed.

Lemma split_comma_free (s : string) :
  all_chars not_comma s = true -> split "," s = [s].
Proof.
  unfold split. induction s as [|c s IH]; intros H; [reflexivity|].
  cbn [all_chars] in H. apply andb_prop in H as [Hc Hs]. unfold not_comma in Hc.
  apply negb_true_iff in Hc. rewrite Ascii.eqb_sym in Hc.
  cbn [split_from startsWith]. rewrite Hc. cbn [andb].
  now rewrite (IH Hs).
Qed.

Lemma split_at_comma (s t : string) :
  all_chars not_comma s = true ->
  split "," (s ++ "," ++ t) = s :: split "," t.
Proof.
  unfold split. induction s as [|c s IH]; intros H.
  - reflexivity.
  - cbn [all_chars] in H. apply andb_prop in H as [Hc Hs]. unfold not_comma in Hc.
    apply negb_true_iff in Hc. rewrite Ascii.eqb_sym in Hc.
    cbn [append split_from startsWith]. rewrite Hc. cbn [andb].
    specialize (IH Hs). cbn [append] in IH. now rewrite IH.
Qed.

(** A digit is none of the other code units that the conversion looks
    for. *)
Lemma digit_is_not (c other : ascii) :
  is_digit c = true -> is_digit other = false -> (c =? other)%char = false.
Proof.
  intros Hc Ho. destruct (Ascii.eqb_spec c other) as [->|]; [congruence | reflexivity].
Qed.

Lemma digit_not_comma (c : ascii) : is_digit c = true -> not_comma c = true.
Proof.
  intros H. unfold not_comma. now rewrite (digit_is_not c "," H).
Qed.

Lemma all_chars_impl (p q : ascii -> bool) (s : string) :
  (forall c, p c = true -> q c = true) ->
  all_chars p s = true -> all_chars q s = true.
Proof.
  intros Hpq. induction s as [|c s IH]; simpl; [reflexivity|].
  intros H. apply andb_prop in H as [Hc Hs].
  now rewrite (Hpq c Hc), (IH Hs).
Qed.

Lemma digit_not_space (c : ascii) : is_digit c = true -> is_space c = false.
Proof.
  unfold is_digit, is_space. intros H.
  apply andb_prop in H as [H1 H2].
  apply Nat.leb_le in H1. apply Nat.leb_le in H2.
  repeat rewrite orb_false_iff. repeat split.
  - apply andb_false_iff. right. apply Nat.leb_gt. lia.
  - apply Nat.eqb_neq. lia.
  - apply Nat.eqb_neq. lia.
Qed.

Lemma trimStart_digits (s : string) :
  all_chars is_digit s = true -> trimStart s = s.
Proof.
  destruct s as [|c s]; simpl; [reflexivity|].
  intros H. apply andb_prop in H as [Hc _].
  now rewrite (digit_not_space c Hc).
Qed.

Lemma trimEnd_digits (s : string) :
  all_chars is_digit s = true -> trimEnd s = s.
Proof.
  induction s as [|c s IH]; simpl; [reflexivity|].
  intros H. apply andb_prop in H as [Hc Hs].
  rewrite (IH Hs), (digit_not_space c Hc). now destruct s.
Qed.

Lemma span_digits (s : string) :
  all_chars is_digit s = true -> span is_digit s = (s, EmptyString).
Proof.
  induction s as [|c s IH]; simpl; [reflexivity|].
  intros H. apply andb_prop in H as [Hc Hs]. now rewrite Hc, (IH Hs).
Qed.

Lemma append_empty (s : string) : (s ++ "")%string = s.
Proof. induction s as [|c s IH]; simpl; [reflexivity | now rewrite IH]. Qed.

(** A sequence of digits is read as the integer that it spells, rounded. *)
Lemma Number_digits (s : string) :
  some_chars is_digit s = true -> Number s = round (numeral 10 0 s) 1.
Proof.
  intros H. destruct s as [|c s]; [discriminate H|]. cbn [some_chars] in H.
  unfold Number, trim.
  rewrite (trimStart_digits _ H), (trimEnd_digits _ H).
  pose proof H as H'. cbn [all_chars] in H'. apply andb_prop in H' as [Hc Hs].
  assert (P : prefixed (String c s) = None).
  { cbn [prefixed]. destruct s as [|c' s]; [reflexivity|].
    cbn [all_chars] in Hs. apply andb_prop in Hs as [Hc' _].
    rewrite (digit_is_not c' "x" Hc'), (digit_is_not c' "X" Hc'),
      (digit_is_not c' "o" Hc'), (digit_is_not c' "O" Hc'),
      (digit_is_not c' "b" Hc'), (digit_is_not c' "B" Hc') by reflexivity.
    now destruct (c =? "0")%char. }
  rewrite P. cbn [decimalLiteral].
  rewrite (digit_is_not c "+" Hc), (digit_is_not c "-" Hc) by reflexivity.
  unfold unsignedDecimal.
  replace (String c s =? "Infinity")%string with false
    by (cbn [String.eqb]; now rewrite (digit_is_not c "I" Hc)).
  rewrite (span_digits _ H). cbv iota beta.
  cbn [String.length Nat.add Nat.eqb exponentPart].
  rewrite append_empty. cbn [Z.of_nat Z.sub Z.opp Z.leb Z.compare].
  now rewrite Z.pow_0_r, Z.mul_1_r.
Qed.

Lemma digits_of_uint (d : Decimal.uint) :
  all_chars is_digit (NilEmpty.string_of_uint d) = true.
Proof. induction d; simpl; auto. Qed.

Lemma numeral_of_uint (d : Decimal.uint) :
  forall a : nat,
    numeral 10 (Z.of_nat a) (NilEmpty.string_of_uint d)
    = Z.of_nat (Nat.of_uint_acc d a).
Proof.
  induction d; intros a;
    cbn [NilEmpty.string_of_uint Nat.of_uint_acc numeral];
    [reflexivity | ..];
    match goal with
    | |- numeral 10 ?z _ = Z.of_nat (Nat.of_uint_acc _ ?n) =>
        replace z with (Z.of_nat n)
          by (rewrite Nat.tail_mul_spec;
              match goal with
              | |- context [digit_value ?c] =>
                  let v := eval vm_compute in (digit_value c) in
                  change (digit_value c) with v
              end; lia)
    end; apply IHd.
Qed.

Lemma to_uint_not_nil (n : nat) : Nat.to_uint n <> Decimal.Nil.
Proof.
  intros E. pose proof (Unsigned.to_of (Nat.to_uint n)) as H.
  rewrite Unsigned.of_to, E in H. discriminate H.
Qed.

Lemma decimal_digits (n : nat) : some_chars is_digit (decimal n) = true.
Proof.
  unfold some_chars, decimal.
  destruct (NilEmpty.string_of_uint (Nat.to_uint n)) eqn:E.
  - exfalso. apply (to_uint_not_nil n).
    destruct (Nat.to_uint n); [reflexivity | discriminate E..].
  - rewrite <- E. apply digits_of_uint.
Qed.

Lemma decimal_not_comma (n : nat) : all_chars not_comma (decimal n) = true.
Proof.
  apply (all_chars_impl is_digit); [apply digit_not_comma | apply digits_of_uint].
Qed.

Lemma Number_decimal (n : nat) : Number (decimal n) = round (Z.of_nat n) 1.
Proof.
  rewrite Number_digits by apply decimal_digits. unfold decimal.
  change 0%Z with (Z.of_nat 0).
  rewrite (numeral_of_uint (Nat.to_uint n) 0).
  change (Nat.of_uint_acc (Nat.to_uint n) 0) with (Nat.of_uint (Nat.to_uint n)).
  now rewrite Unsigned.of_to.
Qed.

Lemma Number_decimal_small (n : nat) :
  (Z.of_nat n < 2 ^ 53)%Z -> Number (decimal n) = integer (Z.of_nat n).
Proof. intros H. rewrite Number_decimal. apply round_integer. lia. Qed.

Lemma Number_decimal_big (n : nat) (p : Z) :
  (0 <= p)%Z -> (2 ^ p <= Z.of_nat n)%Z -> atLeast (2 ^ p) (Number (decimal n)).
Proof. intros Hp H. rewrite Number_decimal. apply round_lower; lia. Qed.

Import Tiles.

Lemma parts_coordinate (row col : nat) :
  parts (coordinate row col) = [Number (decimal row); Number (decimal col)].
Proof.
  unfold parts, coordinate. rewrite substring_brackets.
  rewrite split_at_comma by apply decimal_not_comma.
  rewrite split_comma_free by apply decimal_not_comma.
  reflexivity.
Qed.

(** The index of a text whose parts are read as integers. *)
Lemma tileIndex_integers (tiles : nat) (coord : string) (row col : Z) :
  (Z.abs row <= 2 ^ 50)%Z -> (Z.abs col <= 2 ^ 50)%Z ->
  rowOf coord = integer row -> colOf coord = integer col ->
  tileIndex tiles coord
  = integer ((row - 1) * (if (tiles =? 9)%nat then 3 else 4) + (col - 1)).
Proof.
  intros Hr Hc Er Ec. unfold tileIndex. rewrite Er, Ec.
  rewrite !sub_integer by lia.
  destruct (tiles =? 9)%nat; rewrite mul_integer by lia; apply add_integer; lia.
Qed.

Lemma clickInPage_integer (tiles : nat) (coord : string) (index : Z) :
  tileIndex tiles coord = integer index ->
  clickInPage tiles coord
  = (if (0 <=? index)%Z && (index <? Z.of_nat tiles)%Z
     then (true, Some (Z.to_nat index))
     else (false, None)).
Proof.
  intros E. unfold clickInPage. rewrite E. unfold integer.
  pose proof scale_pos.
  rewrite Z.mod_mul, Z.div_mul by lia. reflexivity.
Qed.

Lemma clickInPage_beyond (tiles : nat) (coord : string) (z : Z) :
  atLeast z (tileIndex tiles coord) -> (Z.of_nat tiles <= z)%Z ->
  clickInPage tiles coord = (false, None).
Proof.
  intros H Hz. unfold clickInPage.
  destruct (tileIndex tiles coord) as [|negative|k]; try reflexivity.
  cbn [atLeast] in H. pose proof scale_pos.
  assert (z <= k / scale)%Z by (apply Z.div_le_lower_bound; lia).
  replace (k / scale <? Z.of_nat tiles)%Z with false
    by (symmetry; apply Z.ltb_ge; lia).
  now rewrite andb_false_r.
Qed.

Lemma clickInPage_NaN (tiles : nat) (coord : string) :
  rowOf coord = NaN \/ colOf coord = NaN -> clickInPage tiles coord = (false, None).
Proof.
  intros H. unfold clickInPage, tileIndex, sub.
  destruct H as [-> | ->]; cbn [add mul negate]; [reflexivity|].
  now destruct (mul _ _).
Qed.

(** What [clickInPage] can return. *)
Lemma clickInPage_cases (tiles : nat) (coord : string) :
  clickInPage tiles coord = (false, None) \/
  exists i, (i < tiles)%nat /\
            tileIndex tiles coord = integer (Z.of_nat i) /\
            clickInPage tiles coord = (true, Some i).
Proof.
  unfold clickInPage.
  destruct (tileIndex tiles coord) as [|negative|k]; auto.
  destruct (k mod scale =? 0)%Z eqn:M; [|now left].
  destruct (0 <=? k / scale)%Z eqn:L; [|now left].
  destruct (k / scale <? Z.of_nat tiles)%Z eqn:U; [|now left].
  right. exists (Z.to_nat (k / scale)).
  apply Z.eqb_eq in M. apply Z.leb_le in L. apply Z.ltb_lt in U.
  pose proof scale_pos. split; [lia|]. split; [|reflexivity].
  unfold integer. f_equal. rewrite Z2Nat.id by exact L.
  pose proof (Z.div_mod k scale ltac:(lia)). lia.
Qed.

(** The coordinate text of a large row or column leads beyond any tile
    list. *)
Lemma tileIndex_coordinate_beyond (tiles row col : nat) :
  (2 ^ 40 <= Z.of_nat row)%Z \/ (2 ^ 40 <= Z.of_nat col)%Z ->
  atLeast (2 ^ 38) (tileIndex tiles (coordinate row col)).
Proof.
  intros H. unfold tileIndex, rowOf, colOf. rewrite parts_coordinate. cbn [nth].
  set (g := if (tiles =? 9)%nat then 3%Z else 4%Z).
  assert (G : (if (tiles =? 9)%nat then integer 3 else integer 4) = integer g).
  { unfold g. now destruct (tiles =? 9)%nat. }
  assert (Hg : (3 <= g <= 4)%Z) by (unfold g; destruct (tiles =? 9)%nat; lia).
  rewrite G.
  assert (R : atLeast (-4) (mul (sub (Number (decimal row)) (integer 1)) (integer g)) /\
              ((2 ^ 40 <= Z.of_nat row)%Z ->
               atLeast (2 ^ 39) (mul (sub (Number (decimal row)) (integer 1)) (integer g)))).
  { assert (B : (2 ^ 40 <= Z.of_nat row)%Z ->
                atLeast (2 ^ 39) (mul (sub (Number (decimal row)) (integer 1)) (integer g))).
    { intros Hrow.
      apply mul_lower with (a := (2 ^ 39)%Z) (b := g); try lia.
      - apply sub_lower with (a := (2 ^ 40)%Z); [|lia|lia].
        apply Number_decimal_big; lia.
      - apply atLeast_integer. }
    split; [|exact B].
    destruct (Z_lt_le_dec (Z.of_nat row) (2 ^ 40)) as [Hrow|Hrow].
    - rewrite Number_decimal_small, sub_integer by lia.
      assert (E : g = 3%Z \/ g = 4%Z) by lia.
      destruct E as [E|E]; rewrite E; rewrite mul_integer by lia;
        (eapply atLeast_weaken; [apply atLeast_integer | lia]).
    - apply atLeast_weaken with (z := (2 ^ 39)%Z); [now apply B | lia]. }
  assert (C : atLeast (-1) (sub (Number (decimal col)) (integer 1)) /\
              ((2 ^ 40 <= Z.of_nat col)%Z ->
               atLeast (2 ^ 39) (sub (Number (decimal col)) (integer 1)))).
  { assert (B : (2 ^ 40 <= Z.of_nat col)%Z ->
                atLeast (2 ^ 39) (sub (Number (decimal col)) (integer 1))).
    { intros Hcol. apply sub_lower with (a := (2 ^ 40)%Z); [|lia|lia].
      apply Number_decimal_big; lia. }
    split; [|exact B].
    destruct (Z_lt_le_dec (Z.of_nat col) (2 ^ 40)) as [Hcol|Hcol].
    - rewrite Number_decimal_small, sub_integer by lia.
      apply atLeast_weaken with (z := (Z.of_nat col - 1)%Z);
        [apply atLeast_integer | lia].
    - apply atLeast_weaken with (z := (2 ^ 39)%Z); [now apply B | lia]. }
  destruct R as [R1 R2], C as [C1 C2]. destruct H as [H|H].
  - apply add_lower with (a := (2 ^ 39)%Z) (b := (-1)%Z); auto; lia.
  - apply add_lower with (a := (-4)%Z) (b := (2 ^ 39)%Z); auto; lia.
Qed.

(** The coordinate text of any row and column, on a tile list of any size
    that a page can hold. *)
Lemma clickTile_coordinate (tiles row col : nat) :
  (Z.of_nat tiles <= 2 ^ 38)%Z ->
  clickTile (Returned tiles) (coordinate row col)
  = (let index := ((Z.of_nat row - 1) * (if (tiles =? 9)%nat then 3 else 4)
                   + (Z.of_nat col - 1))%Z in
     if (0 <=? index)%Z && (index <? Z.of_nat tiles)%Z
     then (true, Some (Z.to_nat index))
     else (false, None)).
Proof.
  intros Ht. cbn [clickTile]. cbv zeta.
  destruct (Z_lt_le_dec (Z.of_nat row) (2 ^ 40)) as [Hrow|Hrow];
    [destruct (Z_lt_le_dec (Z.of_nat col) (2 ^ 40)) as [Hcol|Hcol]|].
  - apply clickInPage_integer. apply tileIndex_integers; try lia.
    + unfold rowOf. rewrite parts_coordinate. cbn [nth].
      apply Number_decimal_small. lia.
    + unfold colOf. rewrite parts_coordinate. cbn [nth].
      apply Number_decimal_small. lia.
  - rewrite (@clickInPage_beyond tiles (coordinate row col) (2 ^ 38)%Z);
      [|apply tileIndex_coordinate_beyond; now right | exact Ht].
    replace (_ <? Z.of_nat tiles)%Z with false; [now rewrite andb_false_r|].
    symmetry. apply Z.ltb_ge. destruct (tiles =? 9)%nat; lia.
  - rewrite (@clickInPage_beyond tiles (coordinate row col) (2 ^ 38)%Z);
      [|apply tileIndex_coordinate_beyond; now left | exact Ht].
    replace (_ <? Z.of_nat tiles)%Z with false; [now rewrite andb_false_r|].
    symmetry. apply Z.ltb_ge. destruct (tiles =? 9)%nat; lia.
Qed.

(** The two parts of a bracketed text. *)
Lemma parts_bracketed (rowText colText : string) :
  all_chars not_comma rowText = true -> all_chars not_comma colText = true ->
  rowOf ("[" ++ (rowText ++ "," ++ colText) ++ "]") = Number rowText /\
  colOf ("[" ++ (rowText ++ "," ++ colText) ++ "]") = Number colText.
Proof.
  intros Hr Hc. unfold rowOf, colOf, parts.
  rewrite (substring_brackets (rowText ++ "," ++ colText)).
  rewrite split_at_comma by exact Hr. rewrite split_comma_free by exact Hc.
  split; reflexivity.
Qed.

(** C10. For every coordinate text, [clickTile] reads the two numbers
    between the first and the last code unit, as [Number] does, and
    computes the index [(row - 1) * g + (col - 1)], with [g = 3] when the
    page holds exactly 9 tiles and [g = 4] otherwise, whatever the grid
    type says. When the two parts are read as integers (up to 2^50 in
    size), the index is that integer; the tile at the index is clicked and
    the result is [true] when the index lies within the tile list, and
    otherwise nothing is clicked and the result is [false]. A part that is
    missing or not a number gives [false]. Whatever the text, either
    nothing is clicked and the result is [false], or one tile of the list is
    clicked, the one at the index, and the result is [true]; when the
    evaluation in the frame throws the result is [false] as well. The
    decimal text of any row and column follows the formula on all tile lists
    of up to 2^38 tiles. *)
Theorem clickTile_flat_index (tiles : nat) (coord : string) :
  let g := if (tiles =? 9)%nat then 3%Z else 4%Z in
  (forall rowText colText,
      all_chars not_comma rowText = true -> all_chars not_comma colText = true ->
      coord = ("[" ++ (rowText ++ "," ++ colText) ++ "]")%string ->
      rowOf coord = Number rowText /\ colOf coord = Number colText) /\
  (forall row col : Z,
      (Z.abs row <= 2 ^ 50)%Z -> (Z.abs col <= 2 ^ 50)%Z ->
      rowOf coord = integer row -> colOf coord = integer col ->
      tileIndex tiles coord = integer ((row - 1) * g + (col - 1)) /\
      clickTile (Returned tiles) coord
      = (if (0 <=? (row - 1) * g + (col - 1))%Z
            && ((row - 1) * g + (col - 1) <? Z.of_nat tiles)%Z
         then (true, Some (Z.to_nat ((row - 1) * g + (col - 1))))
         else (false, None))) /\
  (rowOf coord = NaN \/ colOf coord = NaN ->
   clickTile (Returned tiles) coord = (false, None)) /\
  (clickTile (Returned tiles) coord = (false, None) \/
   exists i, (i < tiles)%nat /\
             tileIndex tiles coord = integer (Z.of_nat i) /\
             clickTile (Returned tiles) coord = (true, Some i)) /\
  (forall message, clickTile (Threw message) coord = (false, None)) /\
  (forall row col : nat,
      (Z.of_nat tiles <= 2 ^ 38)%Z ->
      clickTile (Returned tiles) (coordinate row col)
      = (if (0 <=? (Z.of_nat row - 1) * g + (Z.of_nat col - 1))%Z
            && ((Z.of_nat row - 1) * g + (Z.of_nat col - 1) <? Z.of_nat tiles)%Z
         then (true, Some (Z.to_nat ((Z.of_nat row - 1) * g + (Z.of_nat col - 1))))
         else (false, None))).
Proof.
  intros g. split; [|split; [|split; [|split; [|split]]]].
  - intros rowText colText Hr Hc ->. now apply parts_bracketed.
  - intros row col Hr Hc Er Ec.
    pose proof (@tileIndex_integers tiles coord row col Hr Hc Er Ec) as E.
    split; [exact E|]. cbn [clickTile]. now apply clickInPage_integer.
  - apply clickInPage_NaN.
  - apply clickInPage_cases.
  - reflexivity.
  - intros row col Ht. now apply clickTile_coordinate.
Qed.

Lemma clickTile_flat_index_witness :
  clickTile (Returned 9) "[1.0, 0x2]" = (true, Some 1%nat).
Proof.
  apply (proj2 (proj1 (proj2 (clickTile_flat_index 9 "[1.0, 0x2]")) 1%Z 2%Z
                      ltac:(vm_compute; discriminate) ltac:(vm_compute; discriminate)
                      ltac:(vm_compute; reflexivity) ltac:(vm_compute; reflexivity))).
Defined.

(** [Number] reads more than decimal integers: a fraction, an exponent, a
    prefix and white space are read as JavaScript reads them, and a text
    that is no literal is [NaN]. *)
Example Number_samples :
  Number "1.0" = integer 1 /\ Number "1e0" = integer 1 /\
  Number "0x1" = integer 1 /\ Number " 1 " = integer 1 /\
  Number "" = integer 0 /\ Number "-2" = integer (-2) /\
  Number ".5e1" = integer 5 /\ Number "0b101" = integer 5 /\
  Number "9007199254740993" = integer 9007199254740992 /\
  Number "1e309" = Infinity false /\ Number "-Infinity" = Infinity true /\
  Number "+0x1" = NaN /\ Number "1,5" = NaN /\ Number "[1" = NaN /\
  Number "1e" = NaN /\ Number "." = NaN /\
  add (Number "0.1") (Number "0.2") = Number "0.30000000000000004" /\
  add (Number "0.1") (Number "0.2") <> Number "0.3".
Proof. vm_compute. repeat split; discriminate. Qed.

(** The grid size comes from the tile count alone: on a page of 9 tiles the
    column 5 of row 1 is the tile at index 4, and it is clicked; the last
    tile of a 4 by 4 grid is out of reach. The brackets are not looked at,
    only cut off; a fraction can lead to a tile; a third part is ignored. *)
Example clickTile_samples :
  clickTile (Returned 9) (coordinate 1 5) = (true, Some 4%nat) /\
  clickTile (Returned 9) (coordinate 4 4) = (false, None) /\
  clickTile (Returned 16) (coordinate 4 4) = (true, Some 15%nat) /\
  clickTile (Returned 9) (coordinate 0 1) = (false, None) /\
  clickTile (Returned 9) "(3,3)" = (true, Some 8%nat) /\
  clickTile (Returned 9) " [1,2]" = (false, None) /\
  clickTile (Returned 16) "[1.5,1]" = (true, Some 2%nat) /\
  clickTile (Returned 9) "[1,2,7]" = (true, Some 1%nat) /\
  clickTile (Returned 9) "[2]" = (false, None) /\
  clickTile (Returned 9) "" = (false, None).
Proof. vm_compute. repeat split. Qed.

(** ** The tile analyzer *)

Import Analyzer.

Lemma has_match_None (data : json) : has_match data = None <-> data = JNull.
Proof.
  destruct data as [| b | z | s | l | fs]; simpl;
    try (split; [discriminate | discriminate]).
  - split; reflexivity.
  - destruct (lookup "has_match" fs); split; discriminate.
Qed.

Lemma matching_None (es : list (string * json)) :
  matching es = None <-> exists coord, In (coord, JNull) es.
Proof.
  induction es as [|[coord data] es IH]; simpl.
  - split; [discriminate | intros [c []]].
  - destruct (has_match data) as [keep|] eqn:Hm.
    + destruct (matching es) as [coords|].
      * split; [discriminate|].
        intros [c [Hc|Hc]].
        -- injection Hc as _ ->. discriminate Hm.
        -- discriminate (proj2 IH (ex_intro _ c Hc)).
      * split; [|reflexivity]. intros _.
        destruct (proj1 IH eq_refl) as [c Hc]. exists c. now right.
    + apply has_match_None in Hm. subst data. split; [|reflexivity].
      intros _. exists coord. now left.
Qed.

Lemma matching_empty (es : list (string * json)) :
  matching es = Some [] <-> noMatch es.
Proof.
  unfold noMatch. induction es as [|[coord data] es IH]; simpl.
  - split; [intros _ c d [] | reflexivity].
  - destruct (has_match data) as [keep|] eqn:Hm.
    + destruct (matching es) as [coords|] eqn:Hes.
      * destruct keep.
        -- split; [discriminate|]. intros H.
           specialize (H coord data (or_introl eq_refl)). congruence.
        -- split.
           ++ intros H c d [Hc|Hc].
              ** injection Hc as <- <-. exact Hm.
              ** now apply (proj1 IH H c d).
           ++ intros H. apply IH. intros c d Hc. apply (H c d). now right.
      * split; [discriminate|]. intros H.
        assert (E : @None (list string) = Some []).
        { apply IH. intros c d Hc. apply (H c d). now right. }
        discriminate E.
    + split; [discriminate|]. intros H.
      specialize (H coord data (or_introl eq_refl)). congruence.
Qed.

Lemma analyzer_null_iff_failure (JSON_parse : string -> option json) (call : VisionCall) :
  analyzeWithGemini JSON_parse call = None <-> Failure JSON_parse call.
Proof.
  unfold analyzeWithGemini. split.
  - destruct (readFile call) as [u|m] eqn:Hr; [|intros _; eapply ReadFails; eassumption].
    destruct (generateContent call) as [response|m] eqn:Hg;
      [|intros _; eapply RequestFails; eassumption].
    destruct (JSON_parse (jsonStr response)) as [v|] eqn:Hp;
      [|intros _; eapply ParseFails; eassumption].
    unfold tilesToClick. destruct (entries v) as [es|] eqn:He.
    + intros Hm. apply matching_None in Hm as [coord Hc].
      eapply NullEntry; eassumption.
    + intros _. destruct v; try discriminate He.
      eapply NullResponse; eassumption.
  - intros [m Hr | m Hg | response Hg Hp | response Hg Hp | response v es coord Hg Hp He Hin].
    + now rewrite Hr.
    + rewrite Hg. now destruct (readFile call).
    + rewrite Hg, Hp. now destruct (readFile call).
    + rewrite Hg, Hp. now destruct (readFile call).
    + rewrite Hg, Hp. unfold tilesToClick. rewrite He.
      destruct (readFile call); [|reflexivity].
      apply matching_None. now exists coord.
Qed.

Lemma analyzer_empty (JSON_parse : string -> option json) (call : VisionCall)
      (response : string) (v : json) (es : list (string * json)) :
  readFile call = Returned tt ->
  generateContent call = Returned response ->
  JSON_parse (jsonStr response) = Some v ->
  entries v = Some es ->
  (analyzeWithGemini JSON_parse call = Some [] <-> noMatch es).
Proof.
  intros Hr Hg Hp He. unfold analyzeWithGemini, tilesToClick.
  rewrite Hr, Hg, Hp, He. apply matching_empty.
Qed.

(** ** The watcher *)

Import Watcher Announcements.

Lemma some_indexed_false {A : Type} (f : nat -> A -> bool) (l : list A) :
  forall i, some_indexed f i l = false <->
            (forall k x, nth_error l k = Some x -> f (i + k)%nat x = false).
Proof.
  induction l as [|a l IH]; intros i; simpl.
  - split; [intros _ k x Hk; destruct k; discriminate | reflexivity].
  - rewrite orb_false_iff, IH. split.
    + intros [Ha Hl] k x Hk. destruct k as [|k]; simpl in Hk.
      * injection Hk as <-. now rewrite Nat.add_0_r.
      * rewrite Nat.add_succ_r. now apply Hl.
    + intros H. split.
      * specialize (H 0%nat a eq_refl). now rewrite Nat.add_0_r in H.
      * intros k x Hk. specialize (H (S k) x Hk).
        now rewrite Nat.add_succ_r in H.
Qed.

Lemma differs_at_false (new : list string) (i : nat) (url : string) :
  differs_at new i url = false <-> nth_error new i = Some url.
Proof.
  unfold differs_at. destruct (nth_error new i) as [u|].
  - rewrite negb_false_iff, String.eqb_eq. split; congruence.
  - split; discriminate.
Qed.

Lemma no_position_differs (cur new : list string) :
  length cur = length new ->
  (some_indexed (differs_at new) 0 cur = false <->
   forall i, nth_error cur i = nth_error new i).
Proof.
  intros Hlen. rewrite some_indexed_false. split.
  - intros H i. destruct (nth_error cur i) as [x|] eqn:Hi.
    + symmetry. apply differs_at_false. now apply (H i x).
    + symmetry. apply nth_error_None. rewrite <- Hlen.
      now apply nth_error_None.
  - intros H k x Hk. apply differs_at_false. simpl. now rewrite <- H.
Qed.

Lemma unchanged_iff_same (s : State) (A B : ChallengeInfo) :
  _checkIfChallengeChanged (_updateCurrentChallenge s A) B = false <->
  same_snapshot A B.
Proof.
  unfold _checkIfChallengeChanged, same_snapshot. simpl.
  destruct (String.eqb_spec (text A) (text B)) as [Ht|Ht]; simpl.
  - destruct (imageUrls A) as [la|], (imageUrls B) as [lb|].
    + destruct (Nat.eqb_spec (length la) (length lb)) as [Hl|Hl]; simpl.
      * rewrite (no_position_differs la lb Hl). split.
        -- intros H. split; [exact Ht|]. now exists la, lb.
        -- intros [_ (la' & lb' & Ha & Hb & _ & H)].
           injection Ha as <-. injection Hb as <-. exact H.
      * split; [discriminate|].
        intros [_ (la' & lb' & Ha & Hb & Hlen & _)].
        injection Ha as <-. injection Hb as <-. contradiction.
    + split; [discriminate|]. intros [_ (la' & lb' & _ & Hb & _)]. discriminate.
    + split; [discriminate|]. intros [_ (la' & lb' & Ha & _)]. discriminate.
    + split; [discriminate|]. intros [_ (la' & lb' & Ha & _)]. discriminate.
  - split; [discriminate|]. intros [Ht' _]. contradiction.
Qed.

(** An iteration of the challenge detector that reads a challenge, with
    callbacks that return, is the reaction to the read. *)
Lemma reads_in_inner_loop (B : ChallengeInfo) (s : State) (checkCount : nat) :
  isWatching s = true -> (checkCount <? 50)%nat = true ->
  _pollForChallengeFrame (readsChallenge B) s (Inner checkCount)
  = (fst (fst (onChallengeRead (fun _ => true) s B)), Inner (S checkCount),
     snd (fst (onChallengeRead (fun _ => true) s B))).
Proof.
  intros Hw Hc. unfold _pollForChallengeFrame. rewrite Hw, Hc. cbn [andb].
  unfold onChallengeInfo. cbn [readsChallenge challengeInfo callbackReturns].
  unfold onChallengeRead. cbn [negb].
  destruct (negb (truthy_opt _)); [reflexivity|].
  destruct (_checkIfChallengeChanged _ B); reflexivity.
Qed.

(** C1 (as amended). The change test of the watcher judges a stored snapshot
    [A] and a new snapshot [B] equal exactly when they have the same text and
    image lists that are both present, of the same length and equal at every
    position. When the stored text is not empty and [B] differs from [A], the
    iteration of the challenge detector that reads [B] invokes
    [onTilesReady] and then [onChallengeChange] with [B], and stores [B]. *)
Theorem challenge_change_detection (s : State) (A B : ChallengeInfo) :
  (_checkIfChallengeChanged (_updateCurrentChallenge s A) B = false <->
   same_snapshot A B) /\
  (forall checkCount,
      isWatching s = true -> (checkCount < 50)%nat ->
      text A <> "" -> ~ same_snapshot A B ->
      exists s',
        _pollForChallengeFrame (readsChallenge B) (_updateCurrentChallenge s A)
                       (Inner checkCount)
        = (s', Inner (S checkCount), [TilesReady B; ChallengeChange B]) /\
        currentChallengeText s' = Some (text B) /\
        currentImageUrls s' = imageUrls B).
Proof.
  split; [apply unchanged_iff_same|].
  intros c Hw Hc Hne Hdiff.
  assert (Hchg : _checkIfChallengeChanged (_updateCurrentChallenge s A) B = true).
  { destruct (_checkIfChallengeChanged (_updateCurrentChallenge s A) B) eqn:E;
      [reflexivity|]. apply unchanged_iff_same in E. contradiction. }
  apply Nat.ltb_lt in Hc.
  rewrite reads_in_inner_loop by assumption.
  unfold onChallengeRead. cbn [negb].
  assert (Ht : truthy_string (text A) = true).
  { unfold truthy_string. apply negb_true_iff. now apply String.eqb_neq. }
  cbn [_updateCurrentChallenge currentChallengeText truthy_opt].
  rewrite Ht. cbn [negb].
  unfold _checkIfChallengeChanged in *. cbn in *. rewrite Hchg.
  eexists. split; [reflexivity|]. simpl. split; reflexivity.
Qed.

Lemma challenge_change_detection_witness :
  exists s',
    _pollForChallengeFrame (readsChallenge buses) (_updateCurrentChallenge watching crosswalks)
                   (Inner 3)
    = (s', Inner 4, [TilesReady buses; ChallengeChange buses]) /\
    currentChallengeText s' = Some (text buses) /\
    currentImageUrls s' = imageUrls buses.
Proof.
  apply (proj2 (challenge_change_detection watching crosswalks buses) 3%nat).
  - reflexivity.
  - lia.
  - discriminate.
  - intros [H _]. discriminate H.
Defined.

(** C1, as stated, fails when the stored prompt text is empty: the stored
    snapshot [blankPrompt] differs from [crosswalks], yet the detector treats
    the read as a first challenge and invokes [onChallengeOpen]. *)
Lemma challenge_change_blank_text_counterexample :
  _checkIfChallengeChanged (_updateCurrentChallenge watching blankPrompt) crosswalks = true /\
  snd (_pollForChallengeFrame (readsChallenge crosswalks)
                      (_updateCurrentChallenge watching blankPrompt) (Inner 0))
  = [TilesReady crosswalks; ChallengeOpen crosswalks] /\
  ~ In (ChallengeChange crosswalks)
       (snd (_pollForChallengeFrame (readsChallenge crosswalks)
                            (_updateCurrentChallenge watching blankPrompt) (Inner 0))).
Proof.
  split; [reflexivity|]. split; [reflexivity|].
  simpl. intros [H|[H|[]]]; discriminate H.
Qed.

(** *** Moves of the detectors *)

Lemma replace_length {A : Type} (n : nat) (x : A) (l : list A) :
  length (replace n x l) = length l.
Proof.
  revert n; induction l as [|a l IH]; intros [|n]; cbn; auto.
Qed.

Lemma replace_sum {A : Type} (f : A -> nat) (n : nat) (x y : A) (l : list A) :
  nth_error l n = Some y ->
  (list_sum (map f (replace n x l)) + f y = list_sum (map f l) + f x)%nat.
Proof.
  revert n; induction l as [|a l IH]; intros [|n] H; cbn in H; try discriminate;
    cbn [replace map list_sum fold_right].
  - injection H as ->. lia.
  - specialize (IH n H). unfold list_sum in IH. lia.
Qed.

Lemma count_sum {A : Type} (p : A -> bool) (l : list A) :
  count p l = list_sum (map (fun x => if p x then 1%nat else 0%nat) l).
Proof.
  unfold count. induction l as [|a l IH]; cbn; [reflexivity|].
  destruct (p a); cbn; now rewrite IH.
Qed.

Lemma count_le_length {A : Type} (p : A -> bool) (l : list A) :
  (count p l <= length l)%nat.
Proof. unfold count. apply filter_length_le. Qed.

Lemma run_invariant (I : System -> Prop) :
  (forall sys i, I sys -> I (step sys i)) ->
  forall inputs sys, I sys -> I (run inputs sys).
Proof.
  intros Hstep. induction inputs as [|i inputs IH]; intros sys H; simpl; [exact H|].
  apply IH, Hstep, H.
Qed.

Lemma run_invariant_on (P : Input -> Prop) (I : System -> Prop) :
  (forall sys i, P i -> I sys -> I (step sys i)) ->
  forall inputs sys, Forall P inputs -> I sys -> I (run inputs sys).
Proof.
  intros Hstep. induction inputs as [|i inputs IH]; intros sys HP H; simpl; [exact H|].
  inversion HP as [|? ? Hi Hrest]; subst. apply IH; [exact Hrest|]. now apply Hstep.
Qed.

Lemma run_app (l1 l2 : list Input) (sys : System) :
  run (l1 ++ l2) sys = run l2 (run l1 sys).
Proof. unfold run. apply fold_left_app. Qed.

Ltac ready_case :=
  repeat (split; [first [reflexivity | assumption]|]);
  first [ left; split; [reflexivity | first [discriminate | intros _; reflexivity]]
        | right; split; [reflexivity | split; [discriminate | reflexivity]] ].

(** What a move of the checkbox detector does: it keeps the flags and the
    stored snapshot, and invokes [onCaptchaReady] at most once, ending
    there. *)
Lemma ready_iteration (o : ReadyObs) (s : State) (pc : LoopPc) :
  page (fst (fst (_pollForCaptchaReady o s pc))) = page s /\
  isWatching (fst (fst (_pollForCaptchaReady o s pc))) = isWatching s /\
  currentChallengeText (fst (fst (_pollForCaptchaReady o s pc))) = currentChallengeText s /\
  currentImageUrls (fst (fst (_pollForCaptchaReady o s pc))) = currentImageUrls s /\
  ((snd (_pollForCaptchaReady o s pc) = [] /\
    (pc = Exited -> snd (fst (_pollForCaptchaReady o s pc)) = Exited)) \/
   (snd (_pollForCaptchaReady o s pc) = [CaptchaReady] /\ pc <> Exited /\
    snd (fst (_pollForCaptchaReady o s pc)) = Exited)).
Proof.
  unfold _pollForCaptchaReady, onFrames, onCaptchaInfo, onCheckbox.
  destruct pc as [| c | | | c |].
  - destruct (isWatching s) eqn:Hw; cbn; [|ready_case].
    destruct (page s) eqn:Hp; cbn; [|ready_case].
    destruct (anchorFrame o) as [[|]|]; cbn; ready_case.
  - destruct (isWatching s) eqn:Hw; destruct (c <? 50)%nat; cbn [andb];
      try (cbn; ready_case).
    destruct (captchaInfo o) as [[|]|]; cbn; try ready_case.
    destruct (checkboxHandle o) as [h|]; cbn; ready_case.
  - cbn. ready_case.
  - destruct (anchorFrame o) as [[|]|]; cbn; ready_case.
  - destruct (captchaInfo o) as [[|]|]; cbn; ready_case.
  - destruct (checkboxHandle o) as [h|]; cbn; ready_case.
Qed.

(** What a move of the token detector does: it leaves the fields of the
    watcher, and invokes [onTokenFound] at most once, with a non-empty
    token; it ends there unless the callback throws. *)
Lemma token_iteration (o : TokenObs) (s : State) (pc : TokenPc) :
  fst (fst (_pollForToken o s pc)) = s /\
  ((snd (_pollForToken o s pc) = [] /\
    (pc = TokenExited -> snd (fst (_pollForToken o s pc)) = TokenExited)) \/
   (exists token,
       snd (_pollForToken o s pc) = [TokenFound token] /\
       truthy_string token = true /\ pc <> TokenExited /\
       (snd (fst (_pollForToken o s pc)) = TokenExited \/ o = CallbackThrew token))).
Proof.
  assert (R : fst (fst (onTokenRead o s)) = s /\
              ((snd (onTokenRead o s) = [] /\ snd (fst (onTokenRead o s)) <> AwaitToken) \/
               (exists token,
                   snd (onTokenRead o s) = [TokenFound token] /\
                   truthy_string token = true /\
                   (snd (fst (onTokenRead o s)) = TokenExited \/ o = CallbackThrew token)))).
  { unfold onTokenRead. destruct o as [|[[token|]|]|token]; cbn;
      try (split; [reflexivity|left; split; [reflexivity|discriminate]]).
    - destruct (truthy_string token) eqn:Ht; cbn.
      + split; [reflexivity|]. right. exists token. auto.
      + split; [reflexivity|left; split; [reflexivity|discriminate]].
    - destruct (truthy_string token) eqn:Ht; cbn.
      + split; [reflexivity|]. right. exists token. auto.
      + split; [reflexivity|left; split; [reflexivity|discriminate]]. }
  destruct R as [R1 R2].
  unfold _pollForToken. destruct pc.
  - destruct (isWatching s); cbn [negb]; cbv iota;
      [|split; [reflexivity|left; split; [reflexivity|discriminate]]].
    destruct (page s); cbn [negb]; cbv iota;
      [|split; [reflexivity|left; split; [reflexivity|discriminate]]].
    split; [exact R1|].
    destruct R2 as [[R2 _] | (token & R2 & Ht & R3)].
    + left. split; [exact R2 | discriminate].
    + right. exists token. repeat split; auto. discriminate.
  - split; [reflexivity|]. left. now split.
  - destruct o as [|r|token].
    + split; [reflexivity|left; split; [reflexivity|discriminate]].
    + split; [exact R1|].
      destruct R2 as [[R2 _] | (token & R2 & Ht & R3)].
      * left. split; [exact R2 | discriminate].
      * right. exists token. repeat split; auto. discriminate.
    + split; [exact R1|].
      destruct R2 as [[R2 _] | (token' & R2 & Ht & R3)].
      * left. split; [exact R2 | discriminate].
      * right. exists token'. repeat split; auto. discriminate.
Qed.

(** The reaction to a read of a challenge. *)
Lemma onChallengeRead_cases (returns : Event -> bool) (s : State) (info : ChallengeInfo) :
  page (fst (fst (onChallengeRead returns s info))) = page s /\
  isWatching (fst (fst (onChallengeRead returns s info))) = isWatching s /\
  ((snd (fst (onChallengeRead returns s info)) = [TilesReady info] /\
    currentChallengeText (fst (fst (onChallengeRead returns s info)))
    = currentChallengeText s /\
    currentImageUrls (fst (fst (onChallengeRead returns s info)))
    = currentImageUrls s) \/
   (currentChallengeText (fst (fst (onChallengeRead returns s info))) = Some (text info) /\
    currentImageUrls (fst (fst (onChallengeRead returns s info))) = imageUrls info /\
    ((truthy_opt (currentChallengeText s) = false /\
      snd (fst (onChallengeRead returns s info))
      = [TilesReady info; ChallengeOpen info]) \/
     (truthy_opt (currentChallengeText s) = true /\
      snd (fst (onChallengeRead returns s info))
      = [TilesReady info; ChallengeChange info])))).
Proof.
  unfold onChallengeRead. cbn [currentChallengeText].
  destruct (returns (TilesReady info)); cbn [negb]; cbv iota; [|cbn; auto 10].
  destruct (truthy_opt (currentChallengeText s)) eqn:Ht; cbn [negb]; cbv iota.
  - destruct (_checkIfChallengeChanged _ info); cbn; auto 10.
  - cbn. auto 10.
Qed.

(** What a move of the challenge detector does: nothing to the watcher, or
    the reaction to the challenge that it reads. *)
Lemma challenge_iteration (o : ChallengeObs) (s : State) (pc : LoopPc) :
  (fst (fst (_pollForChallengeFrame o s pc)) = s /\
   snd (_pollForChallengeFrame o s pc) = []) \/
  (exists info,
      challengeInfo o = Returned (Some info) /\
      fst (fst (_pollForChallengeFrame o s pc))
      = fst (fst (onChallengeRead (callbackReturns o) s info)) /\
      snd (_pollForChallengeFrame o s pc)
      = snd (fst (onChallengeRead (callbackReturns o) s info))).
Proof.
  assert (R : forall c,
             (fst (fst (onChallengeInfo o s c)) = s /\ snd (onChallengeInfo o s c) = []) \/
             (exists info,
                 challengeInfo o = Returned (Some info) /\
                 fst (fst (onChallengeInfo o s c))
                 = fst (fst (onChallengeRead (callbackReturns o) s info)) /\
                 snd (onChallengeInfo o s c)
                 = snd (fst (onChallengeRead (callbackReturns o) s info)))).
  { intros c. unfold onChallengeInfo.
    destruct (challengeInfo o) as [[info|]|]; [|now left|now left].
    right. exists info. split; [reflexivity|].
    now destruct (onChallengeRead (callbackReturns o) s info) as [[s' evs] completed]. }
  unfold _pollForChallengeFrame, onFrames. destruct pc as [| c | | | c |].
  - destruct (negb (isWatching s)); [now left|].
    destruct (negb (page s)); [now left|].
    destruct (bframe o) as [[|]|]; now left.
  - destruct (isWatching s && (c <? 50)%nat); [apply R | now left].
  - now left.
  - destruct (bframe o) as [[|]|]; now left.
  - apply R.
  - now left.
Qed.

(** What any move of any detector does to the fields of the watcher. *)
Lemma poll_effect (i : Input) (s : State) (d : Detectors) :
  effect i s (fst (fst (poll i s d))) (snd (poll i s d)).
Proof.
  unfold effect.
  destruct i as [o|o|o| | | | | |p|c|k i']; cbn [poll];
    try (cbn; repeat split; left; repeat split; constructor).
  - pose proof (ready_iteration o s (atReady d)) as (H1 & H2 & H3 & H4 & H5).
    destruct (_pollForCaptchaReady o s (atReady d)) as [[s' pc] evs]. cbn in *.
    repeat (split; [assumption|]). left. repeat (split; [assumption|]).
    destruct H5 as [[-> _] | (-> & _)]; repeat constructor.
  - pose proof (challenge_iteration o s (atChallenge d)) as H.
    destruct (_pollForChallengeFrame o s (atChallenge d)) as [[s' pc] evs]. cbn in *.
    destruct H as [[-> ->] | (info & Hread & -> & ->)].
    + repeat split. left. repeat split. constructor.
    + pose proof (onChallengeRead_cases (callbackReturns o) s info) as (H1 & H2 & H3).
      repeat (split; [assumption|]).
      destruct H3 as [(-> & H3 & H4) | (H3 & H4 & H5)].
      * left. repeat (split; [assumption|]). repeat constructor.
      * right. exists info. split; [now exists o|]. auto.
  - pose proof (token_iteration o s (atToken d)) as (H1 & H2).
    destruct (_pollForToken o s (atToken d)) as [[s' pc] evs]. cbn in *. subst s'.
    repeat split. left. repeat split.
    destruct H2 as [[-> _] | (token & -> & Ht & _)]; repeat constructor. exact Ht.
Qed.

Lemma effect_earlier (k : nat) (i : Input) (s s' : State) (evs : list Event) :
  effect i s s' evs -> i = move i ->
  effect (Earlier k i) s s' evs.
Proof.
  unfold effect, readsInfo. cbn [move].
  intros (H1 & H2 & H3) Hi. repeat (split; [assumption|]).
  destruct H3 as [H3 | (info & (o & Ho & Hr) & H3)]; [now left|].
  right. exists info. split; [|exact H3]. exists o. split; congruence.
Qed.

Lemma effect_nothing (i : Input) (s : State) :
  effect i s s [].
Proof.
  unfold effect. repeat split. left. repeat split. constructor.
Qed.

Lemma pollAt_effect (n : nat) (i : Input) (sys : System) :
  exists evs,
    fired (pollAt n i sys) = fired sys ++ evs /\
    effect i (state sys) (state (pollAt n i sys)) evs /\
    (i <> move i -> state (pollAt n i sys) = state sys /\ evs = []).
Proof.
  unfold pollAt. destruct (nth_error (detectors sys) n) as [d|].
  - pose proof (poll_effect i (state sys) d) as E.
    assert (M : i <> move i -> fst (fst (poll i (state sys) d)) = state sys /\
                                snd (poll i (state sys) d) = []).
    { intros Hm. destruct i; try (now contradiction Hm). now split. }
    destruct (poll i (state sys) d) as [[s d'] evs]. cbn in *.
    exists evs. split; [reflexivity|]. split; [exact E | exact M].
  - exists []. rewrite app_nil_r. split; [reflexivity|].
    split; [apply effect_nothing | now split].
Qed.

(** What an input does to the watcher: a move of a detector with its
    effect, or a call of a method, which invokes no callback. *)
Lemma step_effect (sys : System) (i : Input) :
  (isStart i = false /\ isReset i = false /\
   exists evs,
      fired (step sys i) = fired sys ++ evs /\
      effect i (state sys) (state (step sys i)) evs) \/
  (fired (step sys i) = fired sys /\
   ((i = StopWatching /\ state (step sys i) = stopWatching (state sys)) \/
    (i = Cleanup /\ state (step sys i) = cleanup (state sys)) \/
    (isStart i = true /\
     currentImageUrls (state (step sys i)) = currentImageUrls (state sys) /\
     (currentChallengeText (state (step sys i)) = currentChallengeText (state sys) \/
      exists p, i = SetPage p /\ currentChallengeText (state (step sys i)) = None)))).
Proof.
  assert (A : forall n, exists evs,
               fired (pollAt n i sys) = fired sys ++ evs /\
               effect i (state sys) (state (pollAt n i sys)) evs).
  { intros n. destruct (pollAt_effect n i sys) as (evs & H1 & H2 & _). now exists evs. }
  destruct i as [o|o|o| | | | | |p|c|k i']; cbn [step];
    try (left; split; [reflexivity|]; split; [reflexivity|]; apply A).
  - right. split; [reflexivity|]. left. now split.
  - right. split; [reflexivity|]. right. left. now split.
  - right. unfold setPage, startWatching. cbn.
    destruct p; cbn; try destruct (isWatching (state sys)); cbn;
      (split; [reflexivity|]); right; right; (split; [reflexivity|]);
      (split; [reflexivity|]); right; eexists; split; reflexivity.
  - right. unfold startWatching.
    destruct (negb (page (state sys))); [|destruct (isWatching (state sys))]; cbn;
      (split; [reflexivity|]); right; right; auto.
  - left. split; [reflexivity|]. split; [reflexivity|].
    destruct (pollAt_effect (S k) i' sys) as (evs & H1 & H2 & H3).
    exists evs. split; [exact H1|].
    assert (D : i' = move i' \/ i' <> move i').
    { destruct i'; try (left; reflexivity). right. cbn.
      intros H. clear -H. revert k0 H. induction i'; intros; try discriminate.
      injection H as _ H. eapply IHi'. exact H. }
    destruct D as [D | D].
    + now apply effect_earlier.
    + destruct (H3 D) as [-> ->]. apply effect_nothing.
Qed.

(** *** The checkbox callback *)

Lemma readyCount_app (l1 l2 : list Event) :
  readyCount (l1 ++ l2) = (readyCount l1 + readyCount l2)%nat.
Proof. unfold readyCount. now rewrite filter_app, length_app. Qed.

(** A move of a detector invokes [onCaptchaReady] only when it ends a
    checkbox detector that had not ended. *)
Lemma poll_ready_ended (i : Input) (s : State) (d : Detectors) :
  (readyCount (snd (poll i s d)) + (if readyEnded d then 1 else 0)
   <= if readyEnded (snd (fst (poll i s d))) then 1 else 0)%nat.
Proof.
  unfold readyEnded.
  destruct i as [o|o|o| | | | | |p|c|k i']; cbn [poll];
    try (cbn; destruct (atReady d); cbn; lia).
  - pose proof (ready_iteration o s (atReady d)) as (_ & _ & _ & _ & H).
    destruct (_pollForCaptchaReady o s (atReady d)) as [[s' pc] evs]. cbn [fst snd] in *.
    destruct H as [[-> H] | (-> & H1 & ->)]; cbn.
    + destruct (atReady d); cbn; try lia. now rewrite H.
    + destruct (atReady d); cbn; try lia. contradiction.
  - pose proof (challenge_iteration o s (atChallenge d)) as H.
    destruct (_pollForChallengeFrame o s (atChallenge d)) as [[s' pc] evs]. cbn [fst snd] in *.
    assert (E : readyCount evs = 0%nat).
    { destruct H as [[_ ->] | (info & _ & _ & ->)]; [reflexivity|].
      pose proof (onChallengeRead_cases (callbackReturns o) s info) as (_ & _ & C).
      destruct C as [(-> & _) | (_ & _ & [[_ ->] | [_ ->]])]; reflexivity. }
    rewrite E. destruct (atReady d); cbn; lia.
  - pose proof (token_iteration o s (atToken d)) as (_ & H).
    destruct (_pollForToken o s (atToken d)) as [[s' pc] evs]. cbn [fst snd] in *.
    assert (E : readyCount evs = 0%nat).
    { destruct H as [[-> _] | (token & -> & _)]; reflexivity. }
    rewrite E. destruct (atReady d); cbn; lia.
Qed.

(** [onCaptchaReady] has been invoked at most once for each checkbox
    detector that has ended. *)
Lemma step_ready_handled (sys : System) (i : Input) :
  (readyCount (fired sys) <= count readyEnded (detectors sys))%nat ->
  (readyCount (fired (step sys i)) <= count readyEnded (detectors (step sys i)))%nat.
Proof.
  intros H.
  assert (A : forall n j,
             (readyCount (fired (pollAt n j sys))
              <= count readyEnded (detectors (pollAt n j sys)))%nat).
  { intros n j. unfold pollAt.
    destruct (nth_error (detectors sys) n) as [d|] eqn:Hn; [|exact H].
    pose proof (poll_ready_ended j (state sys) d) as E.
    destruct (poll j (state sys) d) as [[s d'] evs]. cbn [fst snd fired detectors] in *.
    rewrite readyCount_app. rewrite !count_sum in *.
    pose proof (replace_sum (fun x => if readyEnded x then 1%nat else 0%nat)
                            n d' (detectors sys) Hn) as R.
    cbv beta in R. lia. }
  destruct i as [o|o|o| | | | | |p|c|k i']; cbn [step]; try apply A; try exact H.
  - unfold setPage, startWatching. cbn.
    destruct p; cbn; try destruct (isWatching (state sys)); cbn; try exact H;
      unfold count in *; cbn; exact H.
  - unfold startWatching.
    destruct (negb (page (state sys))); [exact H|].
    destruct (isWatching (state sys)); [exact H|]. unfold count in *. cbn.
    destruct c; exact H.
Qed.

(** An input that does not start the detectors keeps their number. *)
Lemma step_same_starts (sys : System) (i : Input) :
  isStart i = false -> length (detectors (step sys i)) = length (detectors sys).
Proof.
  assert (A : forall n j, length (detectors (pollAt n j sys)) = length (detectors sys)).
  { intros n j. unfold pollAt. destruct (nth_error (detectors sys) n) as [d|]; [|reflexivity].
    destruct (poll j (state sys) d) as [[s d'] evs]. cbn. apply replace_length. }
  intros Hi. destruct i; cbn [step]; try apply A; try reflexivity; discriminate Hi.
Qed.

Lemma run_same_starts (inputs : list Input) (sys : System) :
  Forall (fun i => isStart i = false) inputs ->
  length (detectors (run inputs sys)) = length (detectors sys).
Proof.
  intros H.
  apply (@run_invariant_on (fun i => isStart i = false)
           (fun x => length (detectors x) = length (detectors sys)));
    [|exact H|reflexivity].
  intros x i Hi Hx. now rewrite step_same_starts.
Qed.

(** The callbacks invoked are never taken back. *)
Lemma fired_grows (inputs : list Input) (sys : System) :
  exists evs, fired (run inputs sys) = fired sys ++ evs.
Proof.
  revert sys. induction inputs as [|i inputs IH]; intros sys; cbn [run fold_left].
  - exists []. now rewrite app_nil_r.
  - change (fold_left step inputs (step sys i)) with (run inputs (step sys i)).
    destruct (IH (step sys i)) as (evs & ->).
    destruct (step_effect sys i) as [(_ & _ & evs' & -> & _) | [-> _]].
    + exists (evs' ++ evs). now rewrite app_assoc.
    + now exists evs.
Qed.

(** C8 (as amended). Each start of the detectors leads to at most one
    invocation of [onCaptchaReady]. Over the lifetime of a watcher whose
    detectors are started once (created, given its page, then any
    interleaving of moves of the detectors and of calls of [stopWatching]
    and [cleanup]), [onCaptchaReady] is invoked at most once; once it has
    been invoked the checkbox detector has ended and the callback is not
    invoked again, whatever the other detectors do afterwards. *)
Theorem captcha_ready_at_most_once (inputs : list Input) :
  (readyCount (fired (run inputs started))
   <= length (detectors (run inputs started)))%nat /\
  (Forall (fun i => isStart i = false) inputs ->
   (readyCount (fired (run inputs started)) <= 1)%nat /\
   (readyCount (fired (run inputs started)) = 1%nat ->
    forall more,
      Forall (fun i => isStart i = false) more ->
      readyPc (run (inputs ++ more) started) = Exited /\
      readyCount (fired (run (inputs ++ more) started)) = 1%nat)).
Proof.
  assert (I : forall l, (readyCount (fired (run l started))
                         <= count readyEnded (detectors (run l started)))%nat).
  { intros l. apply run_invariant; [apply step_ready_handled|]. cbn. lia. }
  assert (L : forall l, Forall (fun i => isStart i = false) l ->
                        exists d, detectors (run l started) = [d]).
  { intros l Hl. pose proof (run_same_starts started Hl) as E.
    destruct (detectors (run l started)) as [|d [|d' rest]]; try discriminate E.
    now exists d. }
  split.
  - etransitivity; [apply I | apply count_le_length].
  - intros Hin. destruct (L inputs Hin) as (d & Hd).
    pose proof (I inputs) as B. rewrite Hd in B. split.
    + etransitivity; [exact B|]. unfold count. cbn. destruct (readyEnded d); cbn; lia.
    + intros H1 more Hmore.
      assert (Hall : Forall (fun i => isStart i = false) (inputs ++ more))
        by (apply Forall_app; now split).
      destruct (L _ Hall) as (d' & Hd').
      pose proof (I (inputs ++ more)) as B'. rewrite Hd' in B'.
      unfold readyPc, running. rewrite Hd'. cbn [hd].
      rewrite run_app in B' |- *.
      destruct (fired_grows more (run inputs started)) as (evs & E).
      rewrite E, readyCount_app in B' |- *.
      unfold count, readyEnded in B'. cbn [filter] in B'.
      destruct (atReady d'); cbn [length] in B'; try lia.
      split; [reflexivity | lia].
Qed.

Lemma captcha_ready_at_most_once_witness :
  readyPc (run (checkboxSeen ++ checkboxSeenAgain) started) = Exited /\
  readyCount (fired (run (checkboxSeen ++ checkboxSeenAgain) started)) = 1%nat.
Proof.
  apply (proj2 (proj2 (captcha_ready_at_most_once checkboxSeen)
                      ltac:(repeat constructor))).
  - reflexivity.
  - repeat constructor.
Defined.

(** C8, as stated, fails for a watcher that is stopped and given its page
    again: [setPage] starts the three detectors once more, and the new
    checkbox detector invokes [onCaptchaReady] a second time on the same
    watcher. *)
Lemma captcha_ready_restart_counterexample :
  readyCount (fired (run restarted started)) = 2%nat /\
  length (detectors (run restarted started)) = 2%nat.
Proof. split; reflexivity. Qed.

(** *** The token callback *)

Lemma step_fired_truthy (sys : System) (i : Input) :
  Forall tokenTruthy (fired sys) -> Forall tokenTruthy (fired (step sys i)).
Proof.
  intros H. destruct (step_effect sys i) as [(_ & _ & evs & -> & E) | [-> _]]; [|exact H].
  apply Forall_app. split; [exact H|].
  destruct E as (_ & _ & [(_ & _ & E) | (info & _ & _ & _ & [[_ ->] | [_ ->]])]);
    [|repeat constructor..].
  eapply Forall_impl; [|exact E]. intros [| | | |token]; cbn; auto.
Qed.

Lemma run_fired_truthy (inputs : list Input) :
  forall sys, Forall tokenTruthy (fired sys) ->
              Forall tokenTruthy (fired (run inputs sys)).
Proof.
  induction inputs as [|i inputs IH]; intros sys H; simpl; [exact H|].
  apply IH. now apply step_fired_truthy.
Qed.

(** ** The visual solver *)

Import Visual.

Section Rounds.

Variable env : Env.
Variable p : Action -> bool.
Hypothesis p_reload : p ClickReload = false.
Hypothesis p_screenshot : p TakeScreenshot = false.
Hypothesis p_analyze : p Analyze = false.
Hypothesis p_tile : forall coord clicked, p (ClickTile coord clicked) = false.
Hypothesis p_verify : p ClickVerify = false.

Lemma preserves_waitForTilesReady : preserves (counting p) (waitForTilesReady env).
Proof. unfold waitForTilesReady. preserve. Qed.

Lemma preserves_refreshChallenge : preserves (counting p) (refreshChallenge env).
Proof. unfold refreshChallenge. preserve. now apply preserves_act. Qed.

Lemma preserves_takeScreenshotAndAnalyze (frame : bool) (info : ChallengeInfo) :
  preserves (counting p) (takeScreenshotAndAnalyze env frame info).
Proof.
  unfold takeScreenshotAndAnalyze. preserve;
    try apply preserves_waitForTilesReady; preserve;
    try (now apply preserves_act); preserve;
    try (now apply preserves_act); preserve.
Qed.

Lemma preserves_clickTiles (coords : list string) :
  preserves (counting p) (clickTiles env coords).
Proof.
  induction coords as [|c coords IH]; cbn [clickTiles]; [preserve|].
  unfold clickTileNow. preserve. now apply preserves_act.
Qed.

Lemma preserves_tilesLoop (left : nat) (info : ChallengeInfo) :
  preserves (counting p) (tilesLoop env left info).
Proof.
  induction left as [|left IH]; cbn [tilesLoop]; [preserve|].
  apply preserves_bind; [apply preserves_waitForTilesReady|]. intros ready.
  destruct (negb ready); [preserve|].
  apply preserves_bind; [preserve|]. intros frame.
  apply preserves_bind; [apply preserves_takeScreenshotAndAnalyze|].
  intros [[|c cs]|]; [preserve| |preserve].
  apply preserves_bind; [apply preserves_clickTiles|]. intros clicked.
  destruct (negb clicked); [preserve|].
  destruct (negb (isDynamic info)); [preserve|].
  destruct left; [preserve | exact IH].
Qed.

Lemma preserves_verifyChallenge (fuel : nat) :
  preserves (counting p) (verifyChallenge env fuel).
Proof.
  induction fuel as [|fuel IH]; cbn [verifyChallenge]; [preserve|].
  apply preserves_bind; [preserve|]. intros frame.
  destruct (negb frame); [preserve|].
  apply preserves_bind; [apply preserves_waitForTilesReady|]. intros ready.
  destruct (negb ready); [preserve|].
  apply preserves_bind; [preserve|]. intros should.
  destruct (negb should); [preserve|].
  apply preserves_bind; [preserve|]. intros button.
  destruct (negb button); [preserve|].
  apply preserves_bind; [preserve|]. intros _.
  apply preserves_bind; [now apply preserves_act|]. intros _.
  apply preserves_bind; [preserve|]. intros events.
  destruct (raceAfterVerify events) as [value|info|]; [preserve| |preserve].
  destruct (negb (hasCorrectFormat info)).
  - apply preserves_bind; [apply preserves_refreshChallenge|]. preserve.
  - apply preserves_bind; [apply preserves_tilesLoop|]. intros success.
    destruct (negb success); [preserve | exact IH].
Qed.

End Rounds.




Ltac totalize :=
  repeat first
    [ assumption
    | apply total_ret
    | apply total_raise
    | apply total_ask
    | apply total_await
    | apply total_act
    | apply total_try_catch
    | apply total_bind
    | match goal with |- forall _, _ => intro end
    | match goal with
      | |- total (if ?b then _ else _) => destruct b
      | |- total (match ?x with _ => _ end) => destruct x
      end ].

Ltac advance :=
  repeat first
    [ assumption
    | apply advances_ret
    | apply advances_raise
    | apply advances_ask
    | apply advances_await
    | apply advances_act
    | apply advances_bind
    | match goal with |- forall _, _ => intro end
    | match goal with
      | |- advances (if ?b then _ else _) => destruct b
      | |- advances (match ?x with _ => _ end) => destruct x
      end ].

Section Termination.

Variable env : Env.





Lemma advances_refreshChallenge : advances (refreshChallenge env).
Proof. unfold refreshChallenge. advance. Qed.






End Termination.

Lemma tilesLoop_to_analysis (env : Env) (left : nat) (info : ChallengeInfo)
      (st : St Action) :
  reachesAnalysis env st ->
  tilesLoop env (S left) info st
  = (let st' := mkSt (7 + tick st) (trace st ++ [TakeScreenshot; Analyze]) in
     match analysisOf env st with
     | None => (Done false, st')
     | Some [] => (Done true, st')
     | Some coords =>
         (clicked <- clickTiles env coords ;;
          if negb clicked then ret false
          else if negb (isDynamic info) then ret true
               else match left with
                    | O => ret true
                    | S _ => tilesLoop env left info
                    end) st'
     end).
Proof.
  intros (Hready & Hframe & Hmkdir & Harea & Hshot).
  unfold analysisOf. simpl in *.
  unfold bind at 1. unfold waitForTilesReady, bind at 1. unfold ask at 1.
  cbn [tick trace]. unfold ret at 1. rewrite Hready. cbn [negb].
  unfold bind at 1. unfold ask at 1. cbn [tick trace]. rewrite Hframe.
  unfold bind at 1. unfold takeScreenshotAndAnalyze.
  unfold bind at 1. unfold await at 1. cbn [tick trace]. rewrite Hmkdir.
  unfold bind at 1. unfold await at 1. cbn [tick trace]. rewrite Harea.
  cbn [negb].
  unfold bind at 1. unfold waitForTilesReady, bind at 1. unfold ask at 1.
  unfold ret at 1. cbn [tick trace].
  unfold bind at 1. unfold await at 1. cbn [tick trace]. rewrite Hshot.
  unfold bind at 1. unfold act at 1. cbn [tick trace].
  unfold bind at 1. unfold ask at 1. cbn [tick trace].
  unfold bind at 1. unfold act at 1. cbn [tick trace].
  unfold ret at 1. rewrite <- app_assoc. cbn [app].
  destruct (analyzeWithGemini _ _) as [[|c cs]|]; reflexivity.
Qed.











(** Four rounds that end without a token: the loop returns null. *)
Example four_failed_rounds :
  fst (solveChallengeLoop noneMatching 1 start) = Done None /\
  counting isRound (snd (solveChallengeLoop noneMatching 1 start)) = 4%nat /\
  counting isClickVerify (snd (solveChallengeLoop noneMatching 1 start)) = 4%nat.
Proof. repeat split. Qed.

Lemma raceAfterCheckbox_token (events : list Event) (token : string) :
  raceAfterCheckbox events = Some (Token token) -> In (TokenFound token) events.
Proof.
  induction events as [|e events IH]; simpl; [discriminate|].
  destruct e; intros H; try (right; now apply IH); try discriminate.
  injection H as ->. now left.
Qed.

Lemma raceAfterCheckbox_first (events : list Event) (token : string) :
  tokenComesFirst events token -> raceAfterCheckbox events = Some (Token token).
Proof.
  intros (before & after & -> & H).
  induction H as [|e before He _ IH]; [reflexivity|].
  destruct e; cbn [app raceAfterCheckbox]; try exact IH; contradiction.
Qed.

(** C4. After the checkbox click the solver waits for the first of
    [onTokenFound] and [onChallengeOpen]. Whenever, among the callbacks that
    the watcher invokes from then on, [onTokenFound] comes before any
    [onChallengeOpen], the solver returns the token of that invocation (a
    token of the watcher is never empty); it clicked the checkbox and
    cleaned up the watcher, and did nothing else: no challenge was read, no
    tile analysed or clicked, no verify button pressed. *)
Theorem token_first_skips_challenge
        (env : Env) (fuel : nat) (st : St Action) (token : string) :
  captchaReady env = true ->
  checkbox env = true ->
  click env (tick st) = Returned tt ->
  tokenComesFirst (timeline env (S (tick st))) token ->
  truthy_string token = true ->
  solveCaptchaChallenge env fuel st
  = (Done (Some token),
     mkSt (S (S (tick st))) (trace st ++ [ClickCheckbox; WatcherCleanup])).
Proof.
  intros Hready Hbox Hclick Hfirst Htruthy.
  apply raceAfterCheckbox_first in Hfirst.
  unfold solveCaptchaChallenge, finally, try_catch.
  unfold waitForCaptchaReady. rewrite Hready, run_ret.
  unfold handleCheckboxClick. rewrite Hbox. cbn [negb].
  unfold bind at 1. unfold try_catch.
  rewrite run_await, Hclick, run_act, run_ask. cbn [tick trace].
  rewrite Hfirst. unfold ret at 1. cbn [truthy_opt]. rewrite Htruthy.
  unfold ret. cbn [tick trace]. now rewrite <- app_assoc.
Qed.

Lemma cooperative_reaches (env : Env) (st : St Action) :
  cooperative env -> reachesAnalysis env st.
Proof. intros (H1 & H2 & H3 & H4 & H5). repeat split; auto. Qed.

Lemma counting_act {Act : Type} (p : Act -> bool) (a : Act) (t : nat) (tr : list Act) :
  counting p (mkSt t (tr ++ [a]))
  = (counting p (mkSt t tr) + if p a then 1 else 0)%nat.
Proof.
  unfold counting. cbn [trace]. rewrite count_app. unfold count at 2.
  simpl. now destruct (p a).
Qed.

Lemma clickTiles_succeed (env : Env) (coords : list string) :
  (forall n, challengeFrame env n = true) ->
  (forall m coord, In coord coords ->
                   fst (Tiles.clickTile (tileList env m) coord) = true) ->
  forall st, exists st',
      clickTiles env coords st = (Done true, st') /\
      counting isAnalyze st' = counting isAnalyze st /\
      counting isClickTile st' = (counting isClickTile st + length coords)%nat.
Proof.
  intros Hframe. induction coords as [|c coords IH]; intros Hclick st.
  - exists st. cbn. repeat split; lia.
  - cbn [clickTiles]. unfold clickTileNow.
    rewrite run_bind_bind, run_ask, run_bind_bind, run_ask, run_bind_bind, run_act.
    rewrite run_ret. cbn [tick trace]. rewrite Hframe.
    rewrite (Hclick _ c (or_introl eq_refl)). cbn [negb].
    destruct (IH (fun m coord H => Hclick m coord (or_intror H))
                 (mkSt (S (S (tick st)))
                       (trace st ++
                        [ClickTile c (snd (Tiles.clickTile
                                             (tileList env (S (tick st))) c))])))
      as (st' & Hrun & Ha & Hc).
    exists st'. split; [exact Hrun|].
    rewrite Ha, Hc, !counting_act. cbn [isAnalyze isClickTile length].
    unfold counting. cbn [trace]. split; lia.
Qed.

Lemma tilesLoop_rounds_dynamic (env : Env) (info : ChallengeInfo) :
  cooperative env -> alwaysMatches env -> clicksSucceed env ->
  isDynamic info = true ->
  forall left st, exists st',
      tilesLoop env (S left) info st = (Done true, st') /\
      counting isAnalyze st' = (counting isAnalyze st + S left)%nat.
Proof.
  intros Hcoop Hmatch Hclick Hdyn.
  induction left as [|left IH]; intros st;
    rewrite tilesLoop_to_analysis by now apply cooperative_reaches.
  all: unfold analysisOf; destruct (Hmatch (6 + tick st)%nat) as (c & cs & Han);
    rewrite Han; cbv zeta.
  all: destruct (@clickTiles_succeed env (c :: cs) (proj1 (proj2 Hcoop))
                   (fun m coord H => Hclick _ m _ coord Han H)
                   (mkSt (7 + tick st) (trace st ++ [TakeScreenshot; Analyze])))
      as (st1 & Hrun & Ha & _).
  all: unfold bind at 1; rewrite Hrun; cbn [negb]; rewrite Hdyn; cbn [negb].
  all: assert (H1 : counting isAnalyze st1 = S (counting isAnalyze st))
      by (rewrite Ha; unfold counting; cbn [trace]; rewrite count_app;
          unfold count; simpl; lia).
  - exists st1. split; [reflexivity | lia].
  - destruct (IH st1) as (st' & Hrun' & Ha').
    exists st'. split; [exact Hrun' | lia].
Qed.

Lemma tilesLoop_round_static (env : Env) (info : ChallengeInfo) :
  cooperative env -> alwaysMatches env -> clicksSucceed env ->
  isDynamic info = false ->
  forall left st, exists st',
      tilesLoop env (S left) info st = (Done true, st') /\
      counting isAnalyze st' = S (counting isAnalyze st) /\
      (counting isClickTile st < counting isClickTile st')%nat.
Proof.
  intros Hcoop Hmatch Hclick Hdyn left st.
  rewrite tilesLoop_to_analysis by now apply cooperative_reaches.
  unfold analysisOf. destruct (Hmatch (6 + tick st)%nat) as (c & cs & Han).
  rewrite Han. cbv zeta.
  destruct (@clickTiles_succeed env (c :: cs) (proj1 (proj2 Hcoop))
              (fun m coord H => Hclick _ m _ coord Han H)
              (mkSt (7 + tick st) (trace st ++ [TakeScreenshot; Analyze])))
    as (st1 & Hrun & Ha & Hc).
  unfold bind at 1. rewrite Hrun. cbn [negb]. rewrite Hdyn. cbn [negb].
  exists st1. split; [reflexivity|]. rewrite Ha, Hc.
  unfold counting. cbn [trace length]. rewrite !count_app.
  unfold count. simpl. split; lia.
Qed.


(** C5 (as amended). When every wait for the tiles succeeds, every analysis
    returns at least one tile and every returned tile is clicked
    successfully, the tile loop runs exactly [maxDynamicIterations] (4)
    analyses on a dynamic challenge and exactly one analysis, with its
    clicks, on a static challenge, and hands over to verification (it
    returns [true]). *)
Theorem handleChallengeTiles_rounds (env : Env) (info : ChallengeInfo) (st : St Action) :
  cooperative env -> alwaysMatches env -> clicksSucceed env ->
  exists st',
    handleChallengeTiles env info st = (Done true, st') /\
    counting isAnalyze st'
    = (counting isAnalyze st + if isDynamic info then maxDynamicIterations else 1)%nat.
Proof.
  intros Hcoop Hmatch Hclick. unfold handleChallengeTiles, maxDynamicIterations.
  destruct (isDynamic info) eqn:Hdyn.
  - exact (@tilesLoop_rounds_dynamic env info Hcoop Hmatch Hclick Hdyn 3 st).
  - destruct (@tilesLoop_round_static env info Hcoop Hmatch Hclick Hdyn 3 st)
      as (st' & Hrun & Ha & _).
    exists st'. split; [exact Hrun | lia].
Qed.

Lemma obliging_cooperative (answer : option json) : cooperative (pageWith tilesReadyOnly answer).
Proof. repeat split. Qed.

Lemma handleChallengeTiles_rounds_witness :
  exists st',
    handleChallengeTiles obliging dynamicChallenge start = (Done true, st') /\
    counting isAnalyze st'
    = (counting isAnalyze start
       + if isDynamic dynamicChallenge then maxDynamicIterations else 1)%nat.
Proof.
  apply (@handleChallengeTiles_rounds obliging dynamicChallenge start).
  - apply obliging_cooperative.
  - intros n. exists "[1,2]", []. reflexivity.
  - intros n m coords coord Han Hin.
    vm_compute in Han. injection Han as <-.
    destruct Hin as [<-|[]]. reflexivity.
Defined.

(** C5, as stated, fails: on this dynamic challenge every analysis returns a
    tile, but the tile cannot be clicked, and the loop gives up after one
    analysis instead of four, without handing over to verification. *)
Lemma stubborn_tile_counterexample :
  isDynamic dynamicChallenge = true /\
  alwaysMatches stubborn /\
  handleChallengeTiles stubborn dynamicChallenge start
  = (Done false, mkSt 9 [TakeScreenshot; Analyze; ClickTile "[9,9]" None]) /\
  counting isAnalyze (snd (handleChallengeTiles stubborn dynamicChallenge start)) = 1%nat.
Proof.
  split; [reflexivity|]. split; [|split; vm_compute; reflexivity].
  intros n. exists "[9,9]", []. reflexivity.
Qed.

(** C6. The analyzer returns null exactly when one of its steps fails:
    reading the screenshot, the request to the model, parsing the response,
    or walking the parsed value (a null response, a null entry). When all
    steps succeed and no entry is marked as a match it returns the empty
    list. The tile loop tells the two apart: on null it fails (returns
    [false]), on the empty list it clicks nothing and hands over to
    verification (returns [true]). *)
Theorem analysis_null_or_empty (env : Env) (info : ChallengeInfo) (st : St Action) :
  (forall call,
      analyzeWithGemini (JSON_parse env) call = None <-> Failure (JSON_parse env) call) /\
  (forall call response v es,
      readFile call = Returned tt ->
      generateContent call = Returned response ->
      JSON_parse env (jsonStr response) = Some v ->
      entries v = Some es ->
      (analyzeWithGemini (JSON_parse env) call = Some [] <-> noMatch es)) /\
  (reachesAnalysis env st ->
   (analysisOf env st = None ->
    fst (handleChallengeTiles env info st) = Done false) /\
   (analysisOf env st = Some [] ->
    fst (handleChallengeTiles env info st) = Done true /\
    counting isClickTile (snd (handleChallengeTiles env info st))
    = counting isClickTile st)).
Proof.
  split; [intros call; apply analyzer_null_iff_failure|].
  split; [intros call response v es; apply analyzer_empty|].
  intros Hreach. unfold handleChallengeTiles, maxDynamicIterations.
  rewrite tilesLoop_to_analysis by exact Hreach. cbv zeta.
  split; intros Han; rewrite Han; cbn [fst snd]; [reflexivity|].
  split; [reflexivity|].
  unfold counting. cbn [trace]. rewrite count_app. unfold count. simpl. lia.
Qed.

Lemma analysis_null_or_empty_witness :
  (fst (handleChallengeTiles unparsable dynamicChallenge start) = Done false) /\
  (fst (handleChallengeTiles noneMatching dynamicChallenge start) = Done true /\
   counting isClickTile (snd (handleChallengeTiles noneMatching dynamicChallenge start))
   = counting isClickTile start).
Proof.
  split.
  - apply (proj2 (proj2 (analysis_null_or_empty unparsable dynamicChallenge start))).
    + repeat split.
    + reflexivity.
  - apply (proj2 (proj2 (analysis_null_or_empty noneMatching dynamicChallenge start))).
    + repeat split.
    + reflexivity.
Defined.

Lemma token_first_skips_challenge_witness :
  solveCaptchaChallenge immediate 1 start
  = (Done (Some "03AGdBq27"), mkSt 2 ([] ++ [ClickCheckbox; WatcherCleanup])).
Proof.
  apply (@token_first_skips_challenge immediate 1 start "03AGdBq27");
    try reflexivity.
  exists [], [TilesReady crosswalks; ChallengeOpen crosswalks].
  split; [reflexivity | constructor].
Defined.


(** ** The audio solver *)

Import Audio.


Section Download.

Variable env : Env.

Lemma downloadLoop_attempt (left downloadAttempts : nat) (st : St Action) :
  downloadLoop env (S left) downloadAttempts st
  = (let st1 := mkSt (S (tick st)) (trace st ++ [AxiosGet (S downloadAttempts)]) in
     match download env (tick st) with
     | Returned r =>
         if (status r =? 200)%nat then (Done (LoopLeft (Some (data r))), st1)
         else if (S downloadAttempts =? maxDownloadAttempts)%nat
              then (Done ReturnedNull, st1)
              else downloadLoop env left (S downloadAttempts)
                                (mkSt (tick st1) (trace st1 ++ [Delay 1000]))
     | Threw _ =>
         if (S downloadAttempts =? maxDownloadAttempts)%nat
         then (Done ReturnedNull, st1)
         else downloadLoop env left (S downloadAttempts)
                           (mkSt (tick st1) (trace st1 ++ [Delay 1000]))
     end).
Proof.
  cbn [downloadLoop]. unfold bind at 1. unfold try_catch.
  rewrite run_act, run_await. cbn [tick trace].
  destruct (download env (tick st)) as [r|e].
  - destruct (status r =? 200)%nat; cbn [negb].
    + reflexivity.
    + unfold raise, ret at 1.
      destruct (S downloadAttempts =? maxDownloadAttempts)%nat; [reflexivity|].
      now rewrite run_act.
  - unfold ret at 1.
    destruct (S downloadAttempts =? maxDownloadAttempts)%nat; [reflexivity|].
    now rewrite run_act.
Qed.


Lemma downloadLoop_gets (left : nat) :
  forall downloadAttempts st,
    (counting isAxiosGet (snd (downloadLoop env left downloadAttempts st))
     <= counting isAxiosGet st + left)%nat.
Proof.
  induction left as [|left IH]; intros n st.
  - simpl. lia.
  - rewrite downloadLoop_attempt. cbv zeta.
    assert (H1 : counting isAxiosGet
                   (mkSt (S (tick st)) (trace st ++ [AxiosGet (S n)]))
                 = S (counting isAxiosGet st)).
    { unfold counting. cbn [trace]. rewrite count_app. unfold count. simpl. lia. }
    assert (H2 : forall t,
               counting isAxiosGet
                 (mkSt t ((trace st ++ [AxiosGet (S n)]) ++ [Delay 1000]))
               = S (counting isAxiosGet st)).
    { intros t. unfold counting. cbn [trace]. rewrite !count_app.
      unfold count. simpl. lia. }
    destruct (download env (tick st)) as [r|e].
    + destruct (status r =? 200)%nat; [cbn [snd]; lia|].
      destruct (S n =? maxDownloadAttempts)%nat; [cbn [snd]; lia|].
      cbn [tick trace]. etransitivity; [apply IH|]. rewrite H2. lia.
    + destruct (S n =? maxDownloadAttempts)%nat; [cbn [snd]; lia|].
      cbn [tick trace]. etransitivity; [apply IH|]. rewrite H2. lia.
Qed.

Lemma downloadAndTranscribeAudio_gets (st : St Action) :
  (counting isAxiosGet (snd (downloadAndTranscribeAudio env st))
   <= counting isAxiosGet st + maxDownloadAttempts)%nat.
Proof.
  unfold downloadAndTranscribeAudio, try_catch, bind at 1.
  pose proof (downloadLoop_gets maxDownloadAttempts 0 st) as H.
  destruct (downloadLoop env maxDownloadAttempts 0 st) as [[exit|e| |] st1];
    cbn [snd] in *; try exact H.
  destruct exit as [audioData|]; [|exact H].
  rewrite run_act, run_await. cbn [tick trace].
  assert (H1 : forall t, counting isAxiosGet (mkSt t (trace st1 ++ [WitRequest audioData]))
                         = counting isAxiosGet st1).
  { intros t. unfold counting. cbn [trace]. rewrite count_app. unfold count. simpl. lia. }
  destruct (witRequest env (tick st1)); cbn [snd ret]; rewrite H1; exact H.
Qed.

Lemma failed_attempt (left n : nat) (st : St Action) :
  failed (download env (tick st)) = true ->
  downloadLoop env (S left) n st
  = (let st1 := mkSt (S (tick st)) (trace st ++ [AxiosGet (S n)]) in
     if (S n =? maxDownloadAttempts)%nat then (Done ReturnedNull, st1)
     else downloadLoop env left (S n) (mkSt (tick st1) (trace st1 ++ [Delay 1000]))).
Proof.
  intros H. rewrite downloadLoop_attempt. cbv zeta.
  destruct (download env (tick st)) as [r|e]; [|reflexivity].
  simpl in H. apply negb_true_iff in H. now rewrite H.
Qed.

Lemma successful_attempt (left n : nat) (st : St Action) (audio : string) :
  download env (tick st) = Returned (mkResponse 200 audio) ->
  downloadLoop env (S left) n st
  = (Done (LoopLeft (Some audio)),
     mkSt (S (tick st)) (trace st ++ [AxiosGet (S n)])).
Proof. intros H. rewrite downloadLoop_attempt, H. reflexivity. Qed.


Lemma transcription_follows (st st1 : St Action) (audio : string) :
  downloadLoop env maxDownloadAttempts 0 st = (Done (LoopLeft (Some audio)), st1) ->
  downloadAndTranscribeAudio env st
  = (transcribed env (tick st1), mkSt (S (tick st1)) (trace st1 ++ [WitRequest (Some audio)])).
Proof.
  intros H. unfold downloadAndTranscribeAudio, try_catch, bind at 1, transcribed.
  rewrite H, run_act, run_await. cbn [tick trace].
  now destruct (witRequest env (tick st1)).
Qed.

(** C7. The audio file is requested at most 3 times. After three failed
    requests (transport error or a status other than 200), separated by
    delays of one second, the function returns null: there is no fourth
    request and the speech service is not called. When a request succeeds,
    be it the first, the second or the third, the data it returned is sent
    to the speech service. *)
Theorem download_retries (st : St Action) :
  (counting isAxiosGet (snd (downloadAndTranscribeAudio env st))
   <= counting isAxiosGet st + maxDownloadAttempts)%nat /\
  (failed (download env (tick st)) = true ->
   failed (download env (1 + tick st)) = true ->
   failed (download env (2 + tick st)) = true ->
   downloadAndTranscribeAudio env st
   = (Done None,
      mkSt (3 + tick st)
           (trace st ++ [AxiosGet 1; Delay 1000; AxiosGet 2; Delay 1000; AxiosGet 3]))) /\
  (forall audio,
      download env (tick st) = Returned (mkResponse 200 audio) ->
      downloadAndTranscribeAudio env st
      = (transcribed env (1 + tick st),
         mkSt (2 + tick st) (trace st ++ [AxiosGet 1; WitRequest (Some audio)]))) /\
  (forall audio,
      failed (download env (tick st)) = true ->
      download env (1 + tick st) = Returned (mkResponse 200 audio) ->
      downloadAndTranscribeAudio env st
      = (transcribed env (2 + tick st),
         mkSt (3 + tick st)
              (trace st ++ [AxiosGet 1; Delay 1000; AxiosGet 2;
                            WitRequest (Some audio)]))) /\
  (forall audio,
      failed (download env (tick st)) = true ->
      failed (download env (1 + tick st)) = true ->
      download env (2 + tick st) = Returned (mkResponse 200 audio) ->
      downloadAndTranscribeAudio env st
      = (transcribed env (3 + tick st),
         mkSt (4 + tick st)
              (trace st ++ [AxiosGet 1; Delay 1000; AxiosGet 2; Delay 1000;
                            AxiosGet 3; WitRequest (Some audio)]))).
Proof.
  split; [apply downloadAndTranscribeAudio_gets|].
  split; [|split; [|split]].
  - intros F1 F2 F3.
    unfold downloadAndTranscribeAudio, try_catch, bind at 1, maxDownloadAttempts.
    rewrite failed_attempt by exact F1. cbv zeta. cbn [Nat.eqb tick trace].
    rewrite failed_attempt by exact F2. cbv zeta. cbn [Nat.eqb tick trace].
    rewrite failed_attempt by exact F3. cbv zeta. cbn [Nat.eqb tick trace].
    unfold ret. now rewrite <- !app_assoc.
  - intros audio S1.
    rewrite (@transcription_follows st _ audio
               (successful_attempt _ _ _ S1)).
    cbn [tick trace].
    now rewrite <- !app_assoc.
  - intros audio F1 S2.
    erewrite transcription_follows.
    2:{ unfold maxDownloadAttempts. rewrite failed_attempt by exact F1.
        cbv zeta. cbn [Nat.eqb tick trace].
        apply successful_attempt. exact S2. }
    cbn [tick trace].
    now rewrite <- !app_assoc.
  - intros audio F1 F2 S3.
    erewrite transcription_follows.
    2:{ unfold maxDownloadAttempts. rewrite failed_attempt by exact F1.
        cbv zeta. cbn [Nat.eqb tick trace].
        rewrite failed_attempt by exact F2.
        cbv zeta. cbn [Nat.eqb tick trace].
        apply successful_attempt. exact S3. }
    cbn [tick trace].
    now rewrite <- !app_assoc.
Qed.

End Download.

Section Token.

Variable env : Env.

Lemma tokenLoop_returns (left : nat) :
  forall st, exists r st', tokenLoop env left st = (Done r, st').
Proof.
  induction left as [|left IH]; intros st; cbn [tokenLoop].
  - now exists None, st.
  - unfold bind at 1, try_catch. rewrite run_act, run_await. cbn [tick trace].
    destruct (tokenRead env (tick st)) as [token|e].
    + unfold ret at 1. destruct (truthy_opt token); [|apply IH].
      eexists _, _. reflexivity.
    + unfold ret at 1. eexists _, _. reflexivity.
Qed.

Lemma waitForToken_returns (maxAttempts : nat) (st : St Action) :
  exists r st', waitForToken env maxAttempts st = (Done r, st').
Proof.
  unfold waitForToken, try_catch.
  destruct (tokenLoop_returns maxAttempts st) as (r & st' & H).
  rewrite H. now exists r, st'.
Qed.

End Token.


Section Blocked.

Variable env : Env.

Local Abbreviation quiet := (preserves (counting isBlocked)).

Lemma quiet_downloadLoop (left : nat) :
  forall n, quiet (downloadLoop env left n).
Proof.
  induction left as [|left IH]; intros n; cbn [downloadLoop]; [preserve|].
  apply preserves_bind; [preserve|]. intros [audioData|]; [preserve|].
  destruct (S n =? maxDownloadAttempts)%nat; [preserve|].
  apply preserves_bind; [preserve | intros _; apply IH].
Qed.

Lemma quiet_downloadAndTranscribeAudio : quiet (downloadAndTranscribeAudio env).
Proof.
  unfold downloadAndTranscribeAudio.
  apply preserves_try_catch; [|preserve].
  apply preserves_bind; [apply quiet_downloadLoop|]. preserve.
Qed.

Lemma quiet_tokenLoop (left : nat) : quiet (tokenLoop env left).
Proof.
  induction left as [|left IH]; cbn [tokenLoop]; [preserve|].
  apply preserves_bind; [preserve|]. intros [token|]; [|preserve].
  destruct (truthy_opt token); [preserve | exact IH].
Qed.

Lemma quiet_waitForToken (maxAttempts : nat) : quiet (waitForToken env maxAttempts).
Proof. unfold waitForToken. apply preserves_try_catch; [apply quiet_tokenLoop | preserve]. Qed.

Lemma quiet_element : quiet (element env).
Proof. unfold element. preserve. Qed.

Lemma quiet_clickAudioButton : quiet (clickAudioButton env).
Proof. unfold clickAudioButton. preserve. Qed.

Lemma quiet_raceAfterAudioButton : quiet (raceAfterAudioButton env).
Proof. unfold raceAfterAudioButton. preserve. Qed.

Lemma quiet_raceAfterVerify : quiet (raceAfterVerify env).
Proof.
  unfold raceAfterVerify.
  apply preserves_bind; [preserve|]. intros first.
  apply preserves_bind; [|preserve].
  destruct first; [|preserve..].
  apply preserves_bind; [apply quiet_waitForToken | preserve].
Qed.

Lemma quiet_raceAfterCheckbox : quiet (raceAfterCheckbox env).
Proof.
  unfold raceAfterCheckbox.
  apply preserves_bind; [preserve|]. intros first.
  apply preserves_bind; [|preserve].
  destruct first; [|preserve..].
  apply preserves_bind; [apply quiet_waitForToken | preserve].
Qed.

Lemma blockedLast_quiet {B : Type} (null : B) (m : M Action B) (st : St Action) :
  quiet m -> counting isBlocked st = 0%nat -> blockedLast null (m st).
Proof. intros Hm H0. left. now rewrite Hm. Qed.

Lemma blockedLast_bind {A B : Type} (null : B) (m : M Action A) (k : A -> M Action B)
      (st : St Action) :
  quiet m -> counting isBlocked st = 0%nat ->
  (forall a st1, counting isBlocked st1 = 0%nat -> blockedLast null (k a st1)) ->
  blockedLast null ((x <- m ;; k x) st).
Proof.
  intros Hm H0 Hk. unfold bind. specialize (Hm st). rewrite H0 in Hm.
  destruct (m st) as [[a|e| |] st1]; cbn [snd] in Hm;
    try (left; exact Hm).
  now apply Hk.
Qed.

Lemma blockedLast_catch {B : Type} (null other : B) (body : M Action B) (st : St Action) :
  blockedLast null (body st) ->
  blockedLast null (try_catch body (fun _ => ret other) st).
Proof.
  unfold try_catch. destruct (body st) as [[b|e| |] st1]; try (intros H; exact H).
  intros [H|[H _]]; [left; exact H | discriminate H].
Qed.

Lemma blockedLast_signal {B : Type} (null : B) (st : St Action) :
  counting isBlocked st = 0%nat ->
  blockedLast null ((_ <- act Blocked ;; ret null) st).
Proof.
  intros H0. right. rewrite run_act. split; [reflexivity|].
  exists (trace st). split; [reflexivity | exact H0].
Qed.

Ltac quietly :=
  first [ apply quiet_downloadAndTranscribeAudio
        | apply quiet_waitForToken
        | apply quiet_element
        | apply quiet_clickAudioButton
        | apply quiet_raceAfterAudioButton
        | apply quiet_raceAfterVerify
        | apply quiet_raceAfterCheckbox
        | preserve ].

Lemma afterVerify_blockedLast (verifyResult : option VerifyResult) (st : St Action) :
  counting isBlocked st = 0%nat ->
  blockedLast (Return None) (afterVerify verifyResult st).
Proof.
  intros H0. destruct verifyResult as [[token| |]|]; cbn [afterVerify].
  - apply blockedLast_quiet; [preserve | exact H0].
  - apply blockedLast_quiet; [preserve | exact H0].
  - now apply blockedLast_signal.
  - apply blockedLast_quiet; [preserve | exact H0].
Qed.

Lemma quiet_reloadAudio : quiet (reloadAudio env).
Proof. unfold reloadAudio. apply preserves_bind; [apply quiet_element|]. preserve. Qed.

Lemma afterAudioButton_blockedLast (audioResult : option AudioResult) (st : St Action) :
  counting isBlocked st = 0%nat ->
  blockedLast (Return None) (afterAudioButton env audioResult st).
Proof.
  intros H0. destruct audioResult as [[url|]|]; cbn [afterAudioButton].
  - apply blockedLast_bind; [quietly | exact H0 |].
    intros [answer|] st1 H1;
      [|apply blockedLast_quiet; [apply quiet_reloadAudio | exact H1]].
    destruct (truthy_string answer);
      [|apply blockedLast_quiet; [apply quiet_reloadAudio | exact H1]].
    apply blockedLast_bind; [quietly | exact H1 |]. intros _ st2 H2.
    apply blockedLast_bind; [quietly | exact H2 |]. intros _ st3 H3.
    apply blockedLast_bind; [quietly | exact H3 |]. intros _ st4 H4.
    apply blockedLast_bind; [quietly | exact H4 |]. intros _ st5 H5.
    apply blockedLast_bind; [quietly | exact H5 |]. intros _ st6 H6.
    apply blockedLast_bind; [quietly | exact H6 |]. intros _ st7 H7.
    apply blockedLast_bind; [quietly | exact H7 |]. intros _ st8 H8.
    apply blockedLast_bind; [quietly | exact H8 |]. intros verifyResult st9 H9.
    now apply afterVerify_blockedLast.
  - now apply blockedLast_signal.
  - apply blockedLast_quiet; [preserve | exact H0].
Qed.

Lemma attempt_blockedLast (audioAttempts : nat) (st : St Action) :
  counting isBlocked st = 0%nat ->
  blockedLast (Return None) (attempt env audioAttempts st).
Proof.
  intros H0. unfold attempt. apply blockedLast_catch.
  apply blockedLast_bind; [destruct (audioAttempts =? 1)%nat; quietly | exact H0 |].
  intros proceed st1 H1.
  destruct (negb proceed); [apply blockedLast_quiet; [preserve | exact H1]|].
  apply blockedLast_bind; [quietly | exact H1 |].
  intros audioResult st2 H2. now apply afterAudioButton_blockedLast.
Qed.

Lemma attemptLoop_blockedLast (left : nat) :
  forall audioAttempts st,
    counting isBlocked st = 0%nat ->
    blockedLast None (attemptLoop env left audioAttempts st).
Proof.
  induction left as [|left IH]; intros n st H0; cbn [attemptLoop].
  - now left.
  - rewrite run_act.
    assert (H1 : counting isBlocked (mkSt (tick st) (trace st ++ [Attempt (S n)])) = 0%nat).
    { rewrite counting_act. cbn [isBlocked]. unfold counting in *. cbn [trace]. lia. }
    pose proof (attempt_blockedLast (S n) _ H1) as Ha.
    unfold bind.
    destruct (attempt env (S n) _) as [[next|e| |] st1];
      destruct Ha as [Ha|[Ha Hpre]]; cbn [fst snd] in *;
      try discriminate Ha; try (left; exact Ha).
    + destruct next as [|result]; [now apply IH | left; exact Ha].
    + injection Ha as ->. right. split; [reflexivity | exact Hpre].
Qed.

Lemma solveCaptchaChallenge_blockedLast (st : St Action) :
  counting isBlocked st = 0%nat -> blockedLast None (solveCaptchaChallenge env st).
Proof.
  intros H0.
  unfold solveCaptchaChallenge. apply blockedLast_catch.
  destruct (negb (findCaptchaFrame env)); [now left|].
  apply blockedLast_bind; [quietly | exact H0 |]. intros _ st1 H1.
  apply blockedLast_bind; [quietly | exact H1 |]. intros _ st2 H2.
  apply blockedLast_bind; [quietly | exact H2 |].
  intros [[token|]|] st3 H3.
  - now left.
  - apply blockedLast_bind; [quietly | exact H3 |]. intros immediateToken st4 H4.
    destruct (truthy_opt immediateToken); [now left|].
    now apply attemptLoop_blockedLast.
  - apply blockedLast_quiet; [preserve | exact H3].
Qed.

(** *** A race that the blocking message settles *)

Lemma race_after_audio_button_blocked (st : St Action) :
  settlesFirst env (tick st) <> FirstRacer ->
  blockingMessage env (1 + tick st) = true ->
  raceAfterAudioButton env st
  = (Done (Some AudioBlocked), mkSt (2 + tick st) (trace st ++ [Background])).
Proof.
  intros Hf Hb. unfold raceAfterAudioButton.
  rewrite run_ask. cbn [tick trace].
  destruct (settlesFirst env (tick st)); [contradiction| |]; cbv beta iota;
    rewrite run_bind_bind, run_ask; cbn [tick trace Nat.add] in *; rewrite Hb;
    rewrite run_ret, run_act; reflexivity.
Qed.

Lemma race_after_audio_button_audio (st : St Action) (url : string) :
  settlesFirst env (tick st) = FirstRacer ->
  audioChallenge env (1 + tick st) = Some url -> truthy_string url = true ->
  raceAfterAudioButton env st
  = (Done (Some (AudioUrl url)), mkSt (2 + tick st) (trace st ++ [Background])).
Proof.
  intros Hf Ha Ht. unfold raceAfterAudioButton.
  rewrite run_ask, Hf. cbn [tick trace]. cbv beta iota.
  rewrite run_bind_bind, run_ask. cbn [tick trace Nat.add] in *. rewrite Ha.
  cbn [truthy_opt option_map]. rewrite Ht.
  rewrite run_ret, run_act. reflexivity.
Qed.

Lemma race_after_verify_blocked (st : St Action) :
  settlesFirst env (tick st) = ThirdRacer ->
  blockingMessage env (1 + tick st) = true ->
  raceAfterVerify env st
  = (Done (Some VerifyBlocked), mkSt (2 + tick st) (trace st ++ [Background])).
Proof.
  intros Hf Hb. unfold raceAfterVerify.
  rewrite run_ask, Hf. cbn [tick trace]. cbv beta iota.
  rewrite run_bind_bind, run_ask. cbn [tick trace Nat.add] in *. rewrite Hb.
  rewrite run_ret, run_act. reflexivity.
Qed.

Lemma clickAudioButton_clicks (st : St Action) :
  audioButtonReady env (tick st) = Returned tt ->
  handle env (1 + tick st) = Returned true ->
  scroll env (2 + tick st) = Returned tt ->
  click env (3 + tick st) = Returned tt ->
  clickAudioButton env st
  = (Done true, mkSt (4 + tick st) (trace st ++ [ClickAudioButton])).
Proof.
  intros H1 H2 H3 H4. unfold clickAudioButton, try_catch.
  cbn [Nat.add] in *.
  rewrite run_await, H1. rewrite run_await. cbn [tick trace]. rewrite H2. cbn [negb].
  rewrite run_await. cbn [tick trace]. rewrite H3.
  rewrite run_await. cbn [tick trace]. rewrite H4.
  rewrite run_act. reflexivity.
Qed.

(** The attempt up to its race after the audio button. *)
Lemma attempt_to_audio_race (audioAttempts n : nat) (st : St Action)
      (k : bool -> M Action Next) :
  reachesAudioRace env audioAttempts (tick st) n ->
  exists tr,
    count isAttempt tr = 0%nat /\
    (proceed <- (if (audioAttempts =? 1)%nat then clickAudioButton env else ret true) ;;
     k proceed) st
    = k true (mkSt n (trace st ++ tr)).
Proof.
  unfold reachesAudioRace. destruct (audioAttempts =? 1)%nat.
  - intros (H1 & H2 & H3 & H4 & ->). exists [ClickAudioButton]. split; [reflexivity|].
    unfold bind at 1. now rewrite clickAudioButton_clicks.
  - intros ->. exists []. split; [reflexivity|].
    rewrite run_ret, app_nil_r. now destruct st.
Qed.

(** The audio file is there after [d] failed requests. *)
Lemma download_after_failures (d : nat) (st : St Action) (audio : string) :
  (d < maxDownloadAttempts)%nat ->
  (forall j, (j < d)%nat -> failed (download env (tick st + j)) = true) ->
  download env (tick st + d) = Returned (mkResponse 200 audio) ->
  exists tr,
    count isAttempt tr = 0%nat /\
    downloadLoop env maxDownloadAttempts 0 st
    = (Done (LoopLeft (Some audio)), mkSt (S (tick st + d)) (trace st ++ tr)).
Proof.
  intros Hd Hfail Hok. unfold maxDownloadAttempts in *.
  destruct d as [|[|[|d]]]; [| | |lia].
  - exists [AxiosGet 1]. split; [reflexivity|].
    rewrite Nat.add_0_r in *. now rewrite (@successful_attempt env 2 0 st audio Hok).
  - exists [AxiosGet 1; Delay 1000; AxiosGet 2]. split; [reflexivity|].
    pose proof (Hfail 0%nat ltac:(lia)) as F0. rewrite Nat.add_0_r in F0.
    rewrite (@failed_attempt env 2 0 st F0). cbv zeta. cbn [Nat.eqb maxDownloadAttempts tick trace].
    rewrite (@successful_attempt env 1 1) with (audio := audio)
      by (cbn [tick]; now rewrite <- Nat.add_1_r).
    cbn [tick trace]. rewrite <- !app_assoc. cbn [app].
    now rewrite Nat.add_1_r.
  - exists [AxiosGet 1; Delay 1000; AxiosGet 2; Delay 1000; AxiosGet 3].
    split; [reflexivity|].
    pose proof (Hfail 0%nat ltac:(lia)) as F0. rewrite Nat.add_0_r in F0.
    pose proof (Hfail 1%nat ltac:(lia)) as F1. rewrite Nat.add_1_r in F1.
    rewrite (@failed_attempt env 2 0 st F0). cbv zeta. cbn [Nat.eqb maxDownloadAttempts tick trace].
    rewrite (@failed_attempt env 1 1) by (cbn [tick]; exact F1). cbv zeta. cbn [Nat.eqb maxDownloadAttempts tick trace].
    rewrite (@successful_attempt env 0 2) with (audio := audio)
      by (cbn [tick]; now replace (S (S (tick st))) with (tick st + 2)%nat by lia).
    cbn [tick trace]. rewrite <- !app_assoc. cbn [app].
    now replace (tick st + 2)%nat with (S (S (tick st))) by lia.
Qed.

Lemma element_found (st : St Action) (k : unit -> M Action Next) :
  handle env (tick st) = Returned true ->
  (x <- element env ;; k x) st = k tt (mkSt (S (tick st)) (trace st)).
Proof.
  intros H. unfold element. rewrite run_bind_bind, run_await, H. now rewrite run_ret.
Qed.

(** From the race after the audio button to the race after the verify
    click. *)
Lemma attempt_to_verify_race (n d m : nat) (tr0 : list Action) :
  reachesVerifyRace env n d m ->
  exists tr,
    count isAttempt tr = 0%nat /\
    (audioResult <- raceAfterAudioButton env ;; afterAudioButton env audioResult)
      (mkSt n tr0)
    = (verifyResult <- raceAfterVerify env ;; afterVerify verifyResult)
        (mkSt m (tr0 ++ tr)).
Proof.
  intros (Hf & (url & Hu & Htu) & Hd & Hfail & (audio & full & answer & Hok & Hw & Ht & Hta)
          & H4 & H5 & H6 & H7 & H8 & ->).
  unfold bind at 1.
  rewrite (@race_after_audio_button_audio (mkSt n tr0) url Hf Hu Htu).
  cbn [afterAudioButton tick trace].
  destruct (@download_after_failures d (mkSt (2 + n) (tr0 ++ [Background])) audio Hd)
    as (tr1 & Hc1 & Hdl).
  { intros j Hj. cbn [tick]. now apply Hfail. }
  { exact Hok. }
  unfold bind at 1.
  cbn [tick trace] in Hdl. rewrite (@transcription_follows env _ _ _ Hdl). unfold transcribed. cbn [tick trace].
  replace (S (2 + n + d)) with (3 + n + d)%nat by lia. rewrite Hw, Ht, Hta.
  rewrite element_found by (cbn [tick]; now replace (S (3 + n + d)) with (4 + n + d)%nat by lia).
  rewrite run_await. cbn [tick trace].
  replace (S (S (3 + n + d))) with (5 + n + d)%nat by lia. rewrite H5.
  rewrite run_await. cbn [tick trace].
  replace (S (5 + n + d)) with (6 + n + d)%nat by lia. rewrite H6.
  rewrite run_act. cbn [tick trace].
  rewrite element_found by (cbn [tick]; now replace (S (6 + n + d)) with (7 + n + d)%nat by lia).
  rewrite run_await. cbn [tick trace].
  replace (S (S (6 + n + d))) with (8 + n + d)%nat by lia. rewrite H8.
  rewrite run_act. cbn [tick trace].
  replace (S (8 + n + d)) with (9 + n + d)%nat by lia.
  exists ([Background] ++ tr1 ++ [WitRequest (Some audio); TypeResponse answer; ClickVerify]).
  split.
  - rewrite !count_app, Hc1. reflexivity.
  - rewrite <- !app_assoc. reflexivity.
Qed.

Lemma counting_more (p : Action -> bool) (t : nat) (st : St Action) (tr : list Action) :
  counting p (mkSt t (trace st ++ tr)) = (counting p st + count p tr)%nat.
Proof. unfold counting. cbn [trace]. apply count_app. Qed.

(** C3. In the audio solver a blocked signal ends the session at once,
    however many attempts are left. The signal is seen whenever the check
    for the blocking message settles a race with the message found: when an
    attempt of the loop gets to its race after the audio button and the race
    is settled that way, or when it gets on to its race after the verify
    click and that race is, the loop returns null there, having started
    this one attempt and no other. And in every run, if the signal was seen
    at all, the solver returned null and seeing it was the last step of the
    solver itself (the promises that lost a race may still be polling in
    the background then). *)
Theorem blocked_ends_session (st : St Action) :
  (counting isBlocked st = 0%nat ->
   counting isBlocked (snd (solveCaptchaChallenge env st)) = 0%nat \/
   (fst (solveCaptchaChallenge env st) = Done None /\
    exists pre,
      trace (snd (solveCaptchaChallenge env st)) = pre ++ [Blocked] /\
      count isBlocked pre = 0%nat)) /\
  (forall left audioAttempts n,
      reachesAudioRace env (S audioAttempts) (tick st) n ->
      settlesFirst env n <> FirstRacer ->
      blockingMessage env (1 + n) = true ->
      endsBlocked st (attemptLoop env (S left) audioAttempts st)) /\
  (forall left audioAttempts n d m,
      reachesAudioRace env (S audioAttempts) (tick st) n ->
      reachesVerifyRace env n d m ->
      settlesFirst env m = ThirdRacer ->
      blockingMessage env (1 + m) = true ->
      endsBlocked st (attemptLoop env (S left) audioAttempts st)).
Proof.
  split; [apply solveCaptchaChallenge_blockedLast|]. split.
  - intros left k n Hreach Hf Hb. cbn [attemptLoop]. rewrite run_act.
    unfold bind at 1, attempt, try_catch.
    destruct (@attempt_to_audio_race (S k) n
                (mkSt (tick st) (trace st ++ [Attempt (S k)]))
                (fun proceed =>
                   if negb proceed then ret Continue
                   else audioResult <- raceAfterAudioButton env ;;
                        afterAudioButton env audioResult) Hreach)
      as (tr & Hc & ->).
    cbn [negb tick trace]. unfold bind at 1.
    rewrite race_after_audio_button_blocked by assumption.
    cbn [afterAudioButton tick trace]. rewrite run_act. unfold ret. cbn [tick trace].
    unfold endsBlocked. cbn [fst snd trace]. split; [reflexivity|]. split.
    + rewrite <- !app_assoc. rewrite counting_more, !count_app, Hc. cbn. lia.
    + eexists. reflexivity.
  - intros left k n d m Hreach Hverify Hf Hb. cbn [attemptLoop]. rewrite run_act.
    unfold bind at 1, attempt, try_catch.
    destruct (@attempt_to_audio_race (S k) n
                (mkSt (tick st) (trace st ++ [Attempt (S k)]))
                (fun proceed =>
                   if negb proceed then ret Continue
                   else audioResult <- raceAfterAudioButton env ;;
                        afterAudioButton env audioResult) Hreach)
      as (tr & Hc & ->).
    cbn [negb tick trace].
    destruct (@attempt_to_verify_race n d m ((trace st ++ [Attempt (S k)]) ++ tr) Hverify)
      as (tr' & Hc' & ->).
    unfold bind at 1.
    rewrite race_after_verify_blocked by assumption.
    cbn [afterVerify tick trace]. rewrite run_act. unfold ret. cbn [tick trace].
    unfold endsBlocked. cbn [fst snd trace]. split; [reflexivity|]. split.
    + rewrite <- !app_assoc. rewrite counting_more, !count_app, Hc, Hc'. cbn. lia.
    + eexists. reflexivity.
Qed.

End Blocked.

Lemma blocked_ends_session_witness :
  endsBlocked (mkSt 13 []) (attemptLoop blockedAtOnce 3 0 (mkSt 13 [])) /\
  endsBlocked (mkSt 13 []) (attemptLoop blockedAfterVerify 3 0 (mkSt 13 [])).
Proof.
  split.
  - apply (proj1 (proj2 (blocked_ends_session blockedAtOnce (mkSt 13 []))) 2 0 17)%nat.
    + repeat split.
    + discriminate.
    + reflexivity.
  - apply (proj2 (proj2 (blocked_ends_session blockedAfterVerify (mkSt 13 []))) 2 0 17 0 26)%nat.
    + repeat split.
    + split; [reflexivity|]. split; [eexists; split; reflexivity|].
      split; [unfold maxDownloadAttempts; lia|].
      split; [intros j Hj; inversion Hj|].
      split; [do 3 eexists; repeat split; reflexivity|].
      repeat split.
    + reflexivity.
    + reflexivity.
Defined.

(** In both sessions one attempt out of three was started, and the whole
    solver returns null. *)
Lemma blocked_sessions_attempts :
  solveCaptchaChallenge blockedAtOnce start
  = (Done None,
     mkSt 19 ([ClickCheckbox; Background] ++ repeat ReadToken 10
              ++ [Attempt 1; ClickAudioButton; Background; Blocked])) /\
  counting isAttempt (snd (solveCaptchaChallenge blockedAfterVerify start)) = 1%nat /\
  In (TypeResponse "seven two")
     (trace (snd (solveCaptchaChallenge blockedAfterVerify start))).
Proof.
  split; [vm_compute; reflexivity|]. split; [vm_compute; reflexivity|].
  vm_compute. tauto.
Qed.

Lemma download_retries_witness :
  downloadAndTranscribeAudio thirdTimeLucky start
  = (transcribed thirdTimeLucky (3 + tick (@start Action)),
     mkSt (4 + tick (@start Action))
          (trace (@start Action)
           ++ [AxiosGet 1; Delay 1000; AxiosGet 2; Delay 1000;
               AxiosGet 3; WitRequest (Some "ID3")])).
Proof.
  apply (proj2 (proj2 (proj2 (proj2 (download_retries thirdTimeLucky start))))).
  - reflexivity.
  - reflexivity.
  - reflexivity.
Defined.

Import Watcher.

(** C9 (as amended). A failed read of the token field is never surfaced.
    In the token detector of the watcher it counts as not ready: the
    detector keeps polling, invokes no callback, and a token read on a later
    tick is still reported, whether the failed read was pending or is made
    by the iteration. The wait for the token of the audio solver never
    throws either, whatever the page answers. *)
Theorem evaluation_failures_swallowed :
  (forall s message,
      isWatching s = true ->
      _pollForToken (TokenEval (Threw message)) s TokenPolling = (s, TokenPolling, [])) /\
  (forall sys message token,
      tokenPc sys <> TokenExited ->
      isWatching (state sys) = true -> page (state sys) = true ->
      truthy_string token = true ->
      fired (run [PollToken (TokenEval (Threw message));
                  PollToken (TokenEval (Returned (Some token)))] sys)
      = fired sys ++ [TokenFound token]) /\
  (forall env maxAttempts st,
      exists r st', waitForToken env maxAttempts st = (Done r, st')).
Proof.
  split; [|split].
  - intros s message Hw. unfold _pollForToken. rewrite Hw. cbn [negb].
    now destruct (page s).
  - intros [s [|[r c t] rest] f] message token Hpc Hw Hp Ht;
      [now elim Hpc|].
    unfold tokenPc, running in Hpc. cbn [detectors hd state atToken] in *.
    assert (E : _pollForToken (TokenEval (Threw message)) s t = (s, TokenPolling, [])).
    { destruct t; [|now elim Hpc|reflexivity].
      unfold _pollForToken. now rewrite Hw, Hp. }
    cbn [run fold_left step pollAt detectors nth_error poll state fired
         atToken atReady atChallenge replace].
    rewrite E. cbv beta iota zeta.
    cbn [pollAt detectors nth_error poll state fired atToken atReady atChallenge replace].
    unfold _pollForToken. rewrite Hw, Hp. cbn [negb onTokenRead]. rewrite Ht.
    cbn [fired]. now rewrite app_nil_r.
  - intros env maxAttempts st. apply waitForToken_returns.
Qed.

Lemma evaluation_failures_swallowed_witness :
  fired (run [PollToken (TokenEval (Threw "Execution context was destroyed"));
              PollToken (TokenEval (Returned (Some "03AGdBq27")))] started)
  = fired started ++ [TokenFound "03AGdBq27"].
Proof.
  apply (proj1 (proj2 evaluation_failures_swallowed)); [discriminate|reflexivity..].
Defined.

(** C9, as stated, fails for the wait of the audio solver: the first read
    fails because the execution context was destroyed, the token is there
    from the second read on, yet the wait ends after one read, with null. *)
Lemma torn_down_read_counterexample :
  tokenRead tornDown 0 = Threw "Execution context was destroyed" /\
  tokenRead tornDown 1 = Returned (Some "03AGdBq27") /\
  waitForToken tornDown 50 start = (Done None, mkSt 1 [ReadToken]).
Proof. repeat split. Qed.

(** ** What a run returns and how much it does *)

Section Yields.

Context {Act : Type}.

Lemma yields_ret {A : Type} (P : A -> Prop) (a : A) : P a -> yields P (@ret Act A a).
Proof. intros H st a' st' [= <- _]. exact H. Qed.

Lemma yields_raise {A : Type} (P : A -> Prop) (e : string) : yields P (@raise Act A e).
Proof. intros st a st' H. discriminate H. Qed.

Lemma yields_hang {A : Type} (P : A -> Prop) : yields P (@hang Act A).
Proof. intros st a st' H. discriminate H. Qed.

Lemma yields_outOfFuel {A : Type} (P : A -> Prop) : yields P (@outOfFuel Act A).
Proof. intros st a st' H. discriminate H. Qed.

Lemma yields_bind {A B : Type} (P : B -> Prop) (m : M Act A) (k : A -> M Act B) :
  (forall a, yields P (k a)) -> yields P (bind m k).
Proof.
  intros Hk st b st' H. unfold bind in H.
  destruct (m st) as [[a|e| |] st1]; try discriminate H.
  exact (Hk a st1 b st' H).
Qed.

Lemma yields_bind_with {A B : Type} (Q : A -> Prop) (P : B -> Prop)
      (m : M Act A) (k : A -> M Act B) :
  yields Q m -> (forall a, Q a -> yields P (k a)) -> yields P (bind m k).
Proof.
  intros Hm Hk st b st' H. unfold bind in H.
  destruct (m st) as [[a|e| |] st1] eqn:E; try discriminate H.
  exact (Hk a (Hm st a st1 E) st1 b st' H).
Qed.

Lemma yields_try_catch {A : Type} (P : A -> Prop) (body : M Act A)
      (handler : string -> M Act A) :
  yields P body -> (forall e, yields P (handler e)) -> yields P (try_catch body handler).
Proof.
  intros Hb Hh st a st' H. unfold try_catch in H.
  destruct (body st) as [[r|e| |] st1] eqn:E; try discriminate H.
  - injection H as <- <-. exact (Hb st r st1 E).
  - exact (Hh e st1 a st' H).
Qed.

Lemma yields_finally {A : Type} (P : A -> Prop) (body : M Act A) (a : Act) :
  yields P body -> yields P (finally body a).
Proof.
  intros Hb st r st' H. unfold finally in H.
  destruct (body st) as [[r0|e| |] st1] eqn:E; try discriminate H.
  injection H as <- _. exact (Hb st r0 st1 E).
Qed.

Lemma yields_ask {A : Type} (P : A -> Prop) (oracle : nat -> A) :
  (forall n, P (oracle n)) -> yields P (@ask Act A oracle).
Proof. intros H st a st' [= <- _]. apply H. Qed.

End Yields.

Ltac yield :=
  repeat first
    [ assumption
    | apply yields_raise
    | apply yields_hang
    | apply yields_outOfFuel
    | apply yields_ret; exact I
    | apply yields_try_catch
    | apply yields_bind
    | match goal with |- forall _, _ => intro end
    | match goal with
      | |- yields _ (if ?b then _ else _) => destruct b
      | |- yields _ (match ?x with _ => _ end) => destruct x
      end ].

Section Returning.

Context {Act : Type}.

Lemma returns_ret {A : Type} (a : A) : returns (@ret Act A a).
Proof. intros st. now exists a, st. Qed.

Lemma returns_ask {A : Type} (oracle : nat -> A) : returns (@ask Act A oracle).
Proof. intros st. eexists _, _. reflexivity. Qed.

Lemma returns_act (a : Act) : returns (act a).
Proof. intros st. eexists _, _. reflexivity. Qed.

Lemma returns_bind {A B : Type} (m : M Act A) (k : A -> M Act B) :
  returns m -> (forall a, returns (k a)) -> returns (bind m k).
Proof.
  intros Hm Hk st. destruct (Hm st) as (a & st1 & E).
  unfold bind. rewrite E. apply Hk.
Qed.

Lemma returns_try_catch {A : Type} (body : M Act A) (handler : string -> M Act A) :
  total body -> (forall e, returns (handler e)) -> returns (try_catch body handler).
Proof.
  intros Hb Hh st. specialize (Hb st). unfold try_catch.
  destruct (body st) as [[a|e| |] st1]; cbn [fst] in Hb; try contradiction.
  - now exists a, st1.
  - apply Hh.
Qed.

Lemma returns_total {A : Type} (m : M Act A) : returns m -> total m.
Proof. intros H st. destruct (H st) as (a & st' & ->). exact I. Qed.

(** *** Bounds on the actions of a run *)

Variable p : Act -> bool.

Lemma grows_preserves {A : Type} (m : M Act A) :
  preserves (counting p) m -> grows p 0 m.
Proof. intros H st. rewrite H. lia. Qed.

Lemma grows_weaken {A : Type} (k k' : nat) (m : M Act A) :
  grows p k m -> (k <= k')%nat -> grows p k' m.
Proof. intros H Hk st. specialize (H st). lia. Qed.

Lemma grows_bind {A B : Type} (a b : nat) (m : M Act A) (k : A -> M Act B) :
  grows p a m -> (forall x, grows p b (k x)) -> grows p (a + b) (bind m k).
Proof.
  intros Hm Hk st. specialize (Hm st). unfold bind.
  destruct (m st) as [[x|e| |] st1]; cbn [snd] in *; try lia.
  specialize (Hk x st1). lia.
Qed.

Lemma grows_try_catch {A : Type} (a b : nat) (body : M Act A)
      (handler : string -> M Act A) :
  grows p a body -> (forall e, grows p b (handler e)) ->
  grows p (a + b) (try_catch body handler).
Proof.
  intros Hb Hh st. specialize (Hb st). unfold try_catch.
  destruct (body st) as [[x|e| |] st1]; cbn [snd] in *; try lia.
  specialize (Hh e st1). lia.
Qed.

Lemma grows_act (a : Act) : grows p 1 (act a).
Proof.
  intros st. unfold counting, act. cbn [snd trace]. rewrite count_app.
  unfold count at 2. cbn [filter]. destruct (p a); cbn [length]; lia.
Qed.

End Returning.

(** ** The result tracker *)

Import Stats.

Lemma lastn_length {A : Type} (n : nat) (l : list A) :
  length (lastn n l) = Nat.min (length l) n.
Proof. unfold lastn. rewrite length_skipn. lia. Qed.

Lemma skipn_tl {A : Type} (k : nat) (l : list A) :
  skipn (S k) l = tl (skipn k l).
Proof.
  revert l. induction k as [|k IH]; intros [|x l]; try reflexivity.
  change (skipn (S (S k)) (x :: l)) with (skipn (S k) l).
  change (skipn (S k) (x :: l)) with (skipn k l). apply IH.
Qed.

Lemma lastn_snoc {A : Type} (n : nat) (l : list A) (x : A) :
  lastn n (l ++ [x])
  = if (n <? length (lastn n l ++ [x]))%nat
    then tl (lastn n l ++ [x]) else lastn n l ++ [x].
Proof.
  unfold lastn. rewrite !length_app, !length_skipn. cbn [length].
  destruct (Nat.ltb_spec n (length l - (length l - n) + 1)) as [H|H].
  - destruct (Nat.eq_dec n 0) as [->|Hn0].
    + rewrite !Nat.sub_0_r. rewrite skipn_all. cbn [app tl].
      rewrite skipn_all2 by (rewrite length_app; cbn [length]; lia). reflexivity.
    + replace (length l + 1 - n)%nat with (S (length l - n)) by lia.
      rewrite skipn_app.
      replace (S (length l - n) - length l)%nat with 0%nat by lia.
      change (skipn 0 [x]) with [x].
      rewrite skipn_tl.
      remember (skipn (length l - n) l) as m eqn:Hm.
      assert (Hlen : length m = n) by (subst m; rewrite length_skipn; lia).
      destruct m as [|y m]; [simpl in Hlen; lia|]. reflexivity.
  - replace (length l + 1 - n)%nat with 0%nat by lia.
    replace (length l - n)%nat with 0%nat by lia. reflexivity.
Qed.

Lemma addResults_state (v : Solver) (calls : list Call) :
  forall (t : ResultTracker) (done : list Call),
    maxResults t = 500%nat ->
    results t = lastn 500 (map (entryOf v) done) ->
    results (addResults v calls t) = lastn 500 (map (entryOf v) (done ++ calls)) /\
    maxResults (addResults v calls t) = 500%nat /\
    startTime (addResults v calls t) = startTime t.
Proof.
  induction calls as [|c calls IH]; intros t done Hmax Hres.
  - rewrite app_nil_r. auto.
  - cbn [addResults fold_left].
    change (fold_left _ calls ?x) with (addResults v calls x).
    destruct (IH (addResult v (firstNow c) (pushNow c) (result c) t) (done ++ [c]))
      as (H1 & H2 & H3).
    + exact Hmax.
    + cbn [addResult results]. rewrite Hmax, Hres.
      rewrite map_app. cbn [map]. rewrite lastn_snoc. reflexivity.
    + rewrite <- app_assoc in H1. cbn [app] in H1. auto.
Qed.

Lemma results_addResults (v : Solver) (now : Z) (calls : list Call) :
  results (addResults v calls (create now)) = lastn 500 (map (entryOf v) calls).
Proof.
  destruct (@addResults_state v calls (create now) []) as (H & _); try reflexivity.
  exact H.
Qed.

(** X1. After any sequence of calls of [addResult] on a new tracker, the
    tracker holds the entries of the newest 500 calls, in the order of the
    calls: once 500 entries are held, each call drops the oldest one. *)
Theorem tracker_keeps_newest_results (v : Solver) (now : Z) (calls : list Call) :
  results (addResults v calls (create now)) = lastn 500 (map (entryOf v) calls) /\
  length (results (addResults v calls (create now))) = Nat.min (length calls) 500.
Proof.
  rewrite results_addResults, lastn_length, length_map. now split.
Qed.

Section Counts.

Variable number : Type.
Variable fromInteger : Z -> number.
Variables divide times : number -> number -> number.
Variable toFixed : number -> nat -> string.

Local Abbreviation stats := (getStats fromInteger divide times toFixed).

Lemma filter_length_le {A : Type} (p : A -> bool) (l : list A) :
  (length (filter p l) <= length l)%nat.
Proof. induction l as [|x l IH]; simpl; [lia|]. destruct (p x); simpl; lia. Qed.

(** X2. [getStats] returns null exactly for a tracker that no result was
    added to. Otherwise [totalAttempts] is the number of calls of
    [addResult], capped at 500, and [successfulTokens] counts the successes
    among the newest 500 entries only; it never exceeds [totalAttempts]. *)
Theorem getStats_counts (v : Solver) (start now : Z) (calls : list Call) :
  let t := addResults v calls (create start) in
  (stats now t = None <-> calls = []) /\
  (forall s, stats now t = Some s ->
     totalAttempts s = Nat.min (length calls) 500 /\
     successfulTokens s
     = length (filter succeeded (lastn 500 (map (entryOf v) calls))) /\
     (successfulTokens s <= totalAttempts s)%nat).
Proof.
  intros t. pose proof (results_addResults v start calls) as Hres.
  assert (Hlen : length (results t) = Nat.min (length calls) 500).
  { unfold t. rewrite Hres, lastn_length, length_map. reflexivity. }
  fold t in Hres. unfold getStats. rewrite Hlen. split.
  - destruct calls as [|c calls]; [now split|].
    cbn [length]. split; [|discriminate].
    destruct (Nat.eqb_spec (Nat.min (S (length calls)) 500) 0); [lia | discriminate].
  - intros s. destruct (Nat.min (length calls) 500 =? 0)%nat eqn:E; [discriminate|].
    intros [= <-]. cbn [totalAttempts successfulTokens].
    rewrite Hres. split; [reflexivity|]. split; [reflexivity|].
    rewrite <- Hlen, Hres. apply filter_length_le.
Qed.

Lemma no_success_in_lastn (v : Solver) (calls : list Call) (n : nat) :
  (forall c, In c calls -> recorded v (result c) = false) ->
  filter succeeded (lastn n (map (entryOf v) calls)) = [].
Proof.
  intros H. unfold lastn.
  assert (Hall : forall e, In e (skipn (length (map (entryOf v) calls) - n)
                                       (map (entryOf v) calls)) ->
                           succeeded e = false).
  { intros e He.
    assert (Hin : In e (map (entryOf v) calls)).
    { rewrite <- (firstn_skipn (length (map (entryOf v) calls) - n)).
      apply in_or_app. now right. }
    apply in_map_iff in Hin as (c & <- & Hc). apply (H c Hc). }
  induction (skipn _ _) as [|e l IH]; [reflexivity|].
  cbn [filter]. rewrite (Hall e) by now left.
  apply IH. intros e' He'. apply Hall. now right.
Qed.

(** X3. The tracker of the visual solver takes the success of a result
    from its token field alone. When no result carries a token, as with the
    objects that [generateTokens] passes, [successfulTokens] is 0 and the
    average time per token is the text of 0, whatever the [success] fields
    say. *)
Theorem visual_tracker_counts_tokens_only (start now : Z) (calls : list Call)
        (s : Statistics) :
  (forall c, In c calls -> token (result c) = None) ->
  stats now (addResults VisualSolver calls (create start)) = Some s ->
  successfulTokens s = 0%nat /\
  avgTimePerToken s = toFixed (fromInteger 0) 2.
Proof.
  intros Hnone Hs.
  assert (Hno : filter succeeded (lastn 500 (map (entryOf VisualSolver) calls)) = []).
  { apply no_success_in_lastn. intros c Hc. cbn [recorded]. now rewrite (Hnone c Hc). }
  pose proof (results_addResults VisualSolver start calls) as Hres.
  unfold getStats in Hs. rewrite Hres, Hno in Hs. cbn [length] in Hs.
  destruct (length _ =? 0)%nat; [discriminate|].
  change (0 <? 0)%nat with false in Hs. cbv iota in Hs.
  injection Hs as <-. split; reflexivity.
Qed.

End Counts.

Lemma visual_tracker_counts_tokens_only_witness :
  successfulTokens (mkStatistics "0" "0" 2 0) = 0%nat /\
  avgTimePerToken (mkStatistics "0" "0" 2 0) = wholeFixed 0 2.
Proof.
  apply (@visual_tracker_counts_tokens_only Z (fun z => z) Z.div Z.mul wholeFixed
           0%Z 3000%Z twoReports).
  - intros c [<- | [<- | []]]; reflexivity.
  - reflexivity.
Defined.

(** ** One tab of the visual generator *)

Import Stats Generator.

Lemma run_awaitPromise {Act A B : Type} (oracle : nat -> Awaited A) (k : A -> M Act B)
      (st : St Act) :
  (x <- awaitPromise oracle ;; k x) st
  = match oracle (tick st) with
    | Fulfilled a => k a (mkSt (S (tick st)) (trace st))
    | Rejected e => (Raised e, mkSt (S (tick st)) (trace st))
    | Pending => (Hung, st)
    end.
Proof. unfold bind, awaitPromise. now destruct (oracle (tick st)). Qed.

Ltac run_tab :=
  repeat first
    [ rewrite run_bind_bind
    | rewrite run_await
    | rewrite run_awaitPromise
    | rewrite run_act
    | rewrite run_ret
    | progress cbn [tick trace]
    | match goal with
      | |- context [match solve ?e ?n with Fulfilled _ => _ | Rejected _ => _ | Pending => _ end] =>
          let E := fresh "Hsolve" in destruct (solve e n) as [[value|]|?|] eqn:E
      | |- context [match ?f ?e ?n with Returned _ => _ | Threw _ => _ end] =>
          destruct (f e n) as [[]|?]
      | |- context [if truthy_string ?v then _ else _] =>
          destruct (truthy_string v)
      end ].

Ltac count_tab :=
  cbn [fst snd]; unfold counting; cbn [trace]; rewrite ?count_app;
  unfold count; cbn; repeat split; try exact I; try lia;
  try (intros; lia); try (intros; discriminate).

(** X4. A tab of the visual generator whose page was opened settles or
    waits for ever, and it settles whenever the promise of its solver does.
    A tab that settles has closed its page exactly once, also when the task
    throws; a tab that does not settle waits for its solver, has not closed
    its page and has added no result. A tab adds at most one result to the
    tracker, exactly one when the task is fulfilled, and no result that the
    tracker counts as a success: the results it adds have no token
    field. *)
Theorem tab_adds_one_result (env : Generator.Env) (st : St Generator.Action) :
  newPage env (tick st) = Returned tt ->
  (settled (fst (tabPromise env st)) \/ fst (tabPromise env st) = Hung) /\
  ((forall n, solve env n <> Pending) -> settled (fst (tabPromise env st))) /\
  (settled (fst (tabPromise env st)) ->
   counting isClosePage (snd (tabPromise env st)) = S (counting isClosePage st)) /\
  (fst (tabPromise env st) = Hung ->
   solve env (3 + tick st) = Pending /\
   counting isClosePage (snd (tabPromise env st)) = counting isClosePage st /\
   counting isAddResult (snd (tabPromise env st)) = counting isAddResult st) /\
  (counting isAddResult (snd (tabPromise env st)) <= S (counting isAddResult st))%nat /\
  (forall u, fst (tabPromise env st) = Done u ->
             counting isAddResult (snd (tabPromise env st))
             = S (counting isAddResult st)) /\
  counting isSuccess (snd (tabPromise env st)) = counting isSuccess st.
Proof.
  intros Hpage. unfold tabPromise. rewrite run_await, Hpage.
  unfold ensure, try_catch. run_tab.
  all: unfold bind, act, await, ret; cbn [tick trace].
  all: repeat match goal with
       | |- context [close ?e ?n] => destruct (close e n) as [[]|?]
       end.
  all: cbn [fst snd]; unfold counting; cbn [trace]; rewrite ?count_app;
       unfold count; cbn [filter length isClosePage isAddResult isSuccess
                          recorded app Nat.add settled token success].
  all: repeat split; try exact I; try (left; exact I); try (right; reflexivity);
       try lia; try (intros; lia); try (intros; discriminate);
       try (intros []); try assumption.
  all: try (intros H; exfalso; eapply H; eassumption).
  all: cbn; lia.
Qed.

Lemma tab_adds_one_result_witness :
  (settled (fst (tabPromise solved start)) \/ fst (tabPromise solved start) = Hung) /\
  ((forall n, solve solved n <> Pending) -> settled (fst (tabPromise solved start))) /\
  (settled (fst (tabPromise solved start)) ->
   counting isClosePage (snd (tabPromise solved start)) = 1%nat) /\
  (fst (tabPromise solved start) = Hung ->
   solve solved 3 = Pending /\
   counting isClosePage (snd (tabPromise solved start)) = 0%nat /\
   counting isAddResult (snd (tabPromise solved start)) = 0%nat) /\
  (counting isAddResult (snd (tabPromise solved start)) <= 1)%nat /\
  (forall u, fst (tabPromise solved start) = Done u ->
             counting isAddResult (snd (tabPromise solved start)) = 1%nat) /\
  counting isSuccess (snd (tabPromise solved start)) = 0%nat.
Proof.
  apply (@tab_adds_one_result solved start). reflexivity.
Defined.

Example solved_tab :
  tabPromise solved start
  = (Done tt, mkSt 6 [EmitTokenGenerated "03AGdBq27"; CountToken; AddResult active;
                      PrintStats; ClosePage]).
Proof. reflexivity. Qed.

(** A tab whose solver never settles never settles itself: its page stays
    open and the tracker gets no result. *)
Example stuck_tab :
  tabPromise stuck start = (Hung, mkSt 3 []).
Proof. reflexivity. Qed.

(** ** Invariants of the watcher *)

Import Watcher Announcements.

(** *** The token callback *)

(** While its callback returns, a move of a detector invokes
    [onTokenFound] only when it ends a token detector that had not
    ended. *)
Lemma poll_token_ended (i : Input) (s : State) (d : Detectors) :
  (forall token, i <> PollToken (CallbackThrew token)) ->
  (count isTokenFound (snd (poll i s d)) + (if tokenEnded d then 1 else 0)
   <= if tokenEnded (snd (fst (poll i s d))) then 1 else 0)%nat.
Proof.
  intros Hi. unfold tokenEnded.
  destruct i as [o|o|o| | | | | |p|c|k i']; cbn [poll];
    try (cbn; destruct (atToken d); cbn; lia).
  - pose proof (ready_iteration o s (atReady d)) as (_ & _ & _ & _ & H).
    destruct (_pollForCaptchaReady o s (atReady d)) as [[s' pc] evs]. cbn [fst snd] in *.
    assert (E : count isTokenFound evs = 0%nat)
      by (destruct H as [[-> _] | (-> & _)]; reflexivity).
    rewrite E. cbn. destruct (atToken d); cbn; lia.
  - pose proof (challenge_iteration o s (atChallenge d)) as H.
    destruct (_pollForChallengeFrame o s (atChallenge d)) as [[s' pc] evs]. cbn [fst snd] in *.
    assert (E : count isTokenFound evs = 0%nat).
    { destruct H as [[_ ->] | (info & _ & _ & ->)]; [reflexivity|].
      pose proof (onChallengeRead_cases (callbackReturns o) s info) as (_ & _ & C).
      destruct C as [(-> & _) | (_ & _ & [[_ ->] | [_ ->]])]; reflexivity. }
    rewrite E. cbn. destruct (atToken d); cbn; lia.
  - pose proof (token_iteration o s (atToken d)) as (_ & H).
    destruct (_pollForToken o s (atToken d)) as [[s' pc] evs]. cbn [fst snd] in *.
    destruct H as [[-> H] | (token & -> & _ & H1 & [-> | ->])]; cbn.
    + destruct (atToken d); cbn; try lia. now rewrite H.
    + destruct (atToken d); cbn; try lia. contradiction.
    + now contradiction (Hi token).
Qed.

Lemma step_token_handled (sys : System) (i : Input) :
  tokenCallbackReturns i ->
  (count isTokenFound (fired sys) <= count tokenEnded (detectors sys))%nat ->
  (count isTokenFound (fired (step sys i))
   <= count tokenEnded (detectors (step sys i)))%nat.
Proof.
  intros Hi H.
  assert (A : forall n j,
             (forall token, j <> PollToken (CallbackThrew token)) ->
             (count isTokenFound (fired (pollAt n j sys))
              <= count tokenEnded (detectors (pollAt n j sys)))%nat).
  { intros n j Hj. unfold pollAt.
    destruct (nth_error (detectors sys) n) as [d|] eqn:Hn; [|exact H].
    pose proof (poll_token_ended (state sys) d Hj) as E.
    destruct (poll j (state sys) d) as [[s d'] evs]. cbn [fst snd fired detectors] in *.
    rewrite count_app. rewrite !(count_sum tokenEnded) in *.
    pose proof (replace_sum (fun x => if tokenEnded x then 1%nat else 0%nat)
                            n d' (detectors sys) Hn) as R.
    cbv beta in R. lia. }
  unfold tokenCallbackReturns in Hi.
  destruct i as [o|o|o| | | | | |p|c|k i']; cbn [step]; try exact H;
    try (apply A; intros token; discriminate).
  - apply A. intros token E. injection E as ->. exact Hi.
  - unfold setPage, startWatching. cbn.
    destruct p; cbn; try destruct (isWatching (state sys)); cbn; try exact H;
      unfold count in *; cbn; exact H.
  - unfold startWatching.
    destruct (negb (page (state sys))); [exact H|].
    destruct (isWatching (state sys)); [exact H|]. unfold count in *. cbn.
    destruct c; exact H.
  - apply A. intros token ->. exact Hi.
Qed.

(** X5. A token that the watcher hands to [onTokenFound] is never empty.
    As long as the callback returns when it is invoked, each start of the
    detectors leads to at most one invocation of [onTokenFound]; over the
    lifetime of a watcher whose detectors are started once it is invoked at
    most once, and once it has been invoked the token detector has
    ended. *)
Theorem token_found_at_most_once (inputs : list Input) :
  Forall tokenTruthy (fired (run inputs started)) /\
  (Forall tokenCallbackReturns inputs ->
   (count isTokenFound (fired (run inputs started))
    <= length (detectors (run inputs started)))%nat /\
   (Forall (fun i => isStart i = false) inputs ->
    (count isTokenFound (fired (run inputs started)) <= 1)%nat /\
    (count isTokenFound (fired (run inputs started)) = 1%nat ->
     tokenPc (run inputs started) = TokenExited))).
Proof.
  split; [apply run_fired_truthy; constructor|].
  intros Hret.
  assert (I : (count isTokenFound (fired (run inputs started))
               <= count tokenEnded (detectors (run inputs started)))%nat).
  { apply (@run_invariant_on tokenCallbackReturns
             (fun x => (count isTokenFound (fired x)
                        <= count tokenEnded (detectors x))%nat));
      [intros sys i; apply step_token_handled | exact Hret | cbn; lia]. }
  split; [etransitivity; [exact I | apply count_le_length]|].
  intros Hin. pose proof (run_same_starts started Hin) as E.
  unfold tokenPc, running.
  destruct (detectors (run inputs started)) as [|d [|d' rest]]; try discriminate E.
  unfold count at 2 in I. unfold tokenEnded in I. cbn [filter hd] in *.
  destruct (atToken d); cbn [length] in I; (split; [lia|]); intros H1;
    first [reflexivity | lia].
Qed.

Lemma token_found_at_most_once_witness :
  tokenPc (run tokenSeenAgain started) = TokenExited.
Proof.
  apply (proj2 (proj2 (proj2 (token_found_at_most_once tokenSeenAgain)
                             ltac:(repeat constructor))
                      ltac:(repeat constructor))).
  reflexivity.
Defined.

(** A callback [onTokenFound] that throws is invoked again with the next
    token that the detector reads. *)
Example throwing_callback_is_invoked_again :
  fired (run [PollToken (CallbackThrew "03AGdBq27");
              PollToken (CallbackThrew "03AGdBq27")] started)
  = [TokenFound "03AGdBq27"; TokenFound "03AGdBq27"].
Proof. reflexivity. Qed.

(** *** A challenge that stays is announced once *)

Lemma onChallengeRead_again (s : State) (B : ChallengeInfo)
        (urls : list string) :
  text B <> "" -> imageUrls B = Some urls ->
  onChallengeRead (fun _ => true) (fst (fst (onChallengeRead (fun _ => true) s B))) B
  = (fst (fst (onChallengeRead (fun _ => true) s B)), [TilesReady B], true).
Proof.
  intros Ht Hu.
  assert (Htruthy : truthy_string (text B) = true).
  { unfold truthy_string. apply negb_true_iff. now apply String.eqb_neq. }
  assert (Hsame : same_snapshot B B).
  { split; [reflexivity|]. exists urls, urls. auto. }
  assert (Hupd : forall s0, onChallengeRead (fun _ => true) (_updateCurrentChallenge s0 B) B
                            = (_updateCurrentChallenge
                                 (mkState (page s0) (isWatching s0)
                                          (currentChallengeText s0) (currentImageUrls s0)
                                          (currentCaptchaFrame s0) true (currentCheckbox s0)) B,
                               [TilesReady B], true)).
  { intros s0. unfold onChallengeRead. cbn [negb].
    change (currentChallengeText (mkState _ _ ?t _ _ _ _)) with t.
    cbn [_updateCurrentChallenge currentChallengeText truthy_opt].
    rewrite Htruthy. cbn [negb].
    match goal with
    | |- (if ?c then _ else _) = _ =>
        replace c with false; [reflexivity|]
    end.
    symmetry. apply (unchanged_iff_same s0 B B) in Hsame.
    unfold _checkIfChallengeChanged in *. exact Hsame. }
  destruct (onChallengeRead (fun _ => true) s B) as [[s1 evs] completed] eqn:E. cbn [fst].
  unfold onChallengeRead in E. cbn [currentChallengeText negb] in E.
  destruct (truthy_opt (currentChallengeText s)) eqn:E1; cbn [negb] in E.
  - destruct (_checkIfChallengeChanged _ B) eqn:E2 in E; injection E as <- <- <-.
    + rewrite Hupd. reflexivity.
    + unfold onChallengeRead. cbn [currentChallengeText negb].
      rewrite E1. cbn [negb].
      unfold _checkIfChallengeChanged in *. cbn in *. rewrite E2. reflexivity.
  - injection E as <- <- <-. rewrite Hupd. reflexivity.
Qed.

(** X6. A challenge that stays is announced once: when the challenge
    detector reads the same snapshot (non-empty prompt text, image list
    present) in two successive iterations, the second iteration invokes
    [onTilesReady] only, whatever the first one did, and leaves the watcher
    as it is. *)
Theorem unchanged_challenge_is_silent (s : State) (B : ChallengeInfo)
        (urls : list string) (checkCount : nat) :
  isWatching s = true -> (S checkCount < 50)%nat ->
  text B <> "" -> imageUrls B = Some urls ->
  let '(s1, pc1, _) :=
    _pollForChallengeFrame (readsChallenge B) s (Inner checkCount) in
  _pollForChallengeFrame (readsChallenge B) s1 pc1
  = (s1, Inner (S (S checkCount)), [TilesReady B]).
Proof.
  intros Hw Hc Ht Hu.
  pose proof (@onChallengeRead_again s B urls Ht Hu) as Hagain.
  pose proof (onChallengeRead_cases (fun _ => true) s B) as Hcases.
  assert (Hc1 : (checkCount <? 50)%nat = true) by (apply Nat.ltb_lt; lia).
  assert (Hc2 : (S checkCount <? 50)%nat = true) by (apply Nat.ltb_lt; lia).
  rewrite (reads_in_inner_loop B s checkCount Hw Hc1).
  destruct (onChallengeRead (fun _ => true) s B) as [[s1 evs] completed].
  cbn [fst snd] in *.
  destruct Hcases as (_ & Hw1 & _).
  rewrite reads_in_inner_loop by congruence. rewrite Hagain. reflexivity.
Qed.

Lemma unchanged_challenge_is_silent_witness :
  _pollForChallengeFrame (readsChallenge crosswalks)
    (fst (fst (_pollForChallengeFrame (readsChallenge crosswalks) watching (Inner 0))))
    (snd (fst (_pollForChallengeFrame (readsChallenge crosswalks) watching (Inner 0))))
  = (fst (fst (_pollForChallengeFrame (readsChallenge crosswalks) watching (Inner 0))),
     Inner 2, [TilesReady crosswalks]).
Proof.
  apply (@unchanged_challenge_is_silent watching crosswalks ["a.png"; "b.png"] 0).
  - reflexivity.
  - lia.
  - discriminate.
  - reflexivity.
Defined.

(** *** The order of the announcements *)

Lemma firstAnnounced_app (l1 l2 : list Event) :
  firstAnnounced (l1 ++ l2)
  = match firstAnnounced l1 with
    | Some e => Some e
    | None => firstAnnounced l2
    end.
Proof.
  induction l1 as [|e l1 IH]; [reflexivity|].
  cbn [app firstAnnounced]. now destruct (announcement e).
Qed.

Lemma lastAnnounced_app (l1 l2 : list Event) :
  lastAnnounced (l1 ++ l2)
  = match lastAnnounced l2 with
    | Some info => Some info
    | None => lastAnnounced l1
    end.
Proof.
  induction l1 as [|e l1 IH]; cbn [app lastAnnounced].
  - now destruct (lastAnnounced l2).
  - rewrite IH. now destruct (lastAnnounced l2).
Qed.

(** Callbacks other than [onChallengeOpen] and [onChallengeChange] announce
    nothing. *)
Lemma quiet_events (evs : list Event) :
  Forall quietEvent evs ->
  firstAnnounced evs = None /\ lastAnnounced evs = None /\
  count isChallengeOpen evs = 0%nat.
Proof.
  induction 1 as [|e evs He _ (IH1 & IH2 & IH3)]; [now repeat split|].
  unfold count in *. cbn [firstAnnounced lastAnnounced filter].
  rewrite IH2. destruct e; cbn in *; try contradiction; now repeat split.
Qed.

Lemma step_opens_first (sys : System) (i : Input) :
  opens_first sys -> opens_first (step sys i).
Proof.
  unfold opens_first. intros H.
  destruct (step_effect sys i) as [(_ & _ & evs & -> & E) | [-> C]].
  - rewrite firstAnnounced_app.
    destruct H as [[H1 H2] | (info & H)]; [|right; exists info; now rewrite H].
    rewrite H1.
    destruct E as (_ & _ & [(-> & _ & E) | (info & _ & _ & _ & [[_ ->] | [E _]])]).
    + left. split; [apply (quiet_events E) | exact H2].
    + right. now exists info.
    + congruence.
  - destruct H as [[H1 H2] | H]; [left | now right]. split; [exact H1|].
    destruct C as [[_ ->] | [[_ ->] | (_ & _ & [-> | (p & _ & ->)])]]; auto.
Qed.

(** X7. The first challenge that a watcher announces is announced by
    [onChallengeOpen], never by [onChallengeChange]: as long as neither was
    the first, none of the two has been invoked. *)
Theorem first_announcement_is_open (inputs : list Input) :
  match firstAnnounced (fired (run inputs started)) with
  | Some e => isChallengeOpen e = true
  | None =>
      count isChallengeOpen (fired (run inputs started)) = 0%nat /\
      count isChallengeChange (fired (run inputs started)) = 0%nat
  end.
Proof.
  assert (H : opens_first (run inputs started)).
  { apply run_invariant; [apply step_opens_first|]. left. now split. }
  destruct H as [[H _] | (info & H)]; rewrite H; [|reflexivity].
  clear -H. induction (fired (run inputs started)) as [|e evs IH]; [now split|].
  cbn [firstAnnounced] in H. unfold count in *. cbn [filter].
  destruct e; cbn in *; try discriminate H; now apply IH.
Qed.

Lemma step_opened_upto (sys : System) (i : Input) (resets : nat) :
  readsPrompt i -> opened_upto resets sys ->
  opened_upto ((if isReset i then 1 else 0) + resets) (step sys i).
Proof.
  unfold opened_upto. intros Hp H.
  destruct (step_effect sys i) as [(_ & -> & evs & -> & E) | [-> C]].
  - cbn [Nat.add]. rewrite count_app.
    destruct E as (_ & _ & [(-> & _ & E) | (info & (o & Ho & Hr) & -> & _ & E)]).
    + destruct (quiet_events E) as (_ & _ & ->). now rewrite Nat.add_0_r.
    + unfold readsPrompt in Hp. rewrite Ho, Hr in Hp.
      assert (Ht : truthy_string (text info) = true).
      { unfold truthy_string. apply negb_true_iff. now apply String.eqb_neq. }
      cbn [truthy_opt]. rewrite Ht.
      destruct E as [[E ->] | [E ->]]; rewrite E in H; unfold count in *; cbn; lia.
  - destruct C as [[-> ->] | [[-> ->] | (Hs & _ & [-> | (p & -> & ->)])]]; cbn.
    + exact H.
    + destruct (truthy_opt _); lia.
    + destruct (isReset i), (truthy_opt _); cbn; lia.
    + destruct (truthy_opt _); lia.
Qed.

Lemma run_opened_upto (inputs : list Input) :
  forall sys resets,
    Forall readsPrompt inputs -> opened_upto resets sys ->
    opened_upto (count isReset inputs + resets) (run inputs sys).
Proof.
  induction inputs as [|i inputs IH]; intros sys resets Hp H; [exact H|].
  inversion Hp as [|? ? Hi Hrest]; subst.
  cbn [run fold_left]. change (fold_left step inputs ?x) with (run inputs x).
  replace (count isReset (i :: inputs) + resets)%nat
    with (count isReset inputs + ((if isReset i then 1 else 0) + resets))%nat
    by (unfold count; cbn [filter]; destruct (isReset i); cbn [length]; lia).
  apply IH; [exact Hrest|]. now apply step_opened_upto.
Qed.

(** X8. When every challenge that the detectors read has a non-empty
    prompt text, [onChallengeOpen] is invoked at most once, and at most
    once more after each call of [setPage] or [cleanup], the calls that set
    the stored text back to null: at most once over the lifetime of a
    watcher on which neither is called again. *)
Theorem challenge_opens_once (inputs : list Input) :
  Forall readsPrompt inputs ->
  (count isChallengeOpen (fired (run inputs started)) <= 1 + count isReset inputs)%nat.
Proof.
  intros Hp.
  assert (H : opened_upto (count isReset inputs + 0) (run inputs started)).
  { apply run_opened_upto; [exact Hp|]. unfold opened_upto. cbn. lia. }
  unfold opened_upto in H. destruct (truthy_opt _); lia.
Qed.

Lemma challenge_opens_once_witness :
  (count isChallengeOpen (fired (run pageSetAgain started))
   <= 1 + count isReset pageSetAgain)%nat.
Proof.
  apply challenge_opens_once.
  repeat constructor; discriminate.
Defined.

(** After [setPage] the challenge that is still shown is announced as a
    new one. *)
Example challenge_reopened_after_setPage :
  fired (run pageSetAgain started)
  = [TilesReady crosswalks; ChallengeOpen crosswalks;
     TilesReady crosswalks; ChallengeOpen crosswalks].
Proof. reflexivity. Qed.

(** *** The stored snapshot *)

Lemma step_stores_last (sys : System) (i : Input) :
  isReset i = false -> stores_last sys -> stores_last (step sys i).
Proof.
  unfold stores_last. intros Hi H.
  destruct (step_effect sys i) as [(_ & _ & evs & -> & E) | [-> C]].
  - rewrite lastAnnounced_app.
    destruct E as (_ & _ & [(-> & -> & E) | (info & _ & -> & -> & E)]).
    + destruct (quiet_events E) as (_ & -> & _). exact H.
    + destruct E as [[_ ->] | [_ ->]]; reflexivity.
  - destruct C as [[-> ->] | [[-> ->] | (Hs & -> & [-> | (p & -> & ->)])]];
      try exact H; discriminate Hi.
Qed.

(** X9. As long as neither [setPage] nor [cleanup] is called again, the
    snapshot that the watcher stores (text and image list) is the one of the
    challenge it announced last, by [onChallengeOpen] or
    [onChallengeChange]; before any announcement both fields are null. *)
Theorem stored_challenge_is_last_announced (inputs : list Input) :
  Forall (fun i => isReset i = false) inputs ->
  (currentChallengeText (state (run inputs started)),
   currentImageUrls (state (run inputs started)))
  = snapshotOf (lastAnnounced (fired (run inputs started))).
Proof.
  intros Hno.
  apply (@run_invariant_on (fun i => isReset i = false) stores_last);
    [intros sys i; apply step_stores_last | exact Hno | reflexivity].
Qed.

Lemma stored_challenge_is_last_announced_witness :
  (currentChallengeText (state (run twoChallenges started)),
   currentImageUrls (state (run twoChallenges started)))
  = snapshotOf (lastAnnounced (fired (run twoChallenges started))).
Proof.
  apply stored_challenge_is_last_announced.
  repeat constructor.
Defined.

(** *** A stopped watcher *)

(** While the flag is down, a move of a detector invokes callbacks only for
    a read that was pending, and uses that read up. *)
Ltac down := split; [first [assumption | reflexivity] | cbn; lia].

Lemma ready_owed (o : ReadyObs) (s : State) (pc : LoopPc) :
  isWatching s = false ->
  isWatching (fst (fst (_pollForCaptchaReady o s pc))) = false /\
  (length (snd (_pollForCaptchaReady o s pc))
   + match snd (fst (_pollForCaptchaReady o s pc)) with
     | AwaitInfo _ | AwaitHandle => 1
     | _ => 0
     end
   <= match pc with AwaitInfo _ | AwaitHandle => 1 | _ => 0 end)%nat.
Proof.
  intros Hw. unfold _pollForCaptchaReady, onFrames, onCaptchaInfo, onCheckbox.
  rewrite Hw. destruct pc as [| c | | | c |]; cbn.
  - down.
  - down.
  - down.
  - destruct (anchorFrame o) as [[|]|]; cbn; down.
  - destruct (captchaInfo o) as [[|]|]; cbn; down.
  - destruct (checkboxHandle o) as [h|]; cbn; down.
Qed.

Lemma challenge_owed (o : ChallengeObs) (s : State) (pc : LoopPc) :
  isWatching s = false ->
  isWatching (fst (fst (_pollForChallengeFrame o s pc))) = false /\
  (length (snd (_pollForChallengeFrame o s pc))
   + match snd (fst (_pollForChallengeFrame o s pc)) with
     | AwaitInfo _ => 2
     | _ => 0
     end
   <= match pc with AwaitInfo _ => 2 | _ => 0 end)%nat.
Proof.
  intros Hw. unfold _pollForChallengeFrame, onFrames, onChallengeInfo.
  rewrite Hw. destruct pc as [| c | | | c |]; cbn; try down.
  - destruct (bframe o) as [[|]|]; cbn; down.
  - destruct (challengeInfo o) as [[info|]|]; cbn; try down.
    pose proof (onChallengeRead_cases (callbackReturns o) s info) as (_ & H2 & H3).
    destruct (onChallengeRead (callbackReturns o) s info) as [[s' evs] completed].
    cbn [fst snd] in *. split; [congruence|].
    assert (L : (length evs <= 2)%nat).
    { destruct H3 as [(-> & _) | (_ & _ & [[_ ->] | [_ ->]])]; cbn; lia. }
    destruct completed; cbn; lia.
Qed.

Lemma token_owed (o : TokenObs) (s : State) (pc : TokenPc) :
  isWatching s = false ->
  isWatching (fst (fst (_pollForToken o s pc))) = false /\
  (length (snd (_pollForToken o s pc))
   + match snd (fst (_pollForToken o s pc)) with AwaitToken => 1 | _ => 0 end
   <= match pc with AwaitToken => 1 | _ => 0 end)%nat.
Proof.
  intros Hw. unfold _pollForToken, onTokenRead.
  rewrite Hw. destruct pc; cbn; try down.
  destruct o as [|[[token|]|]|token]; cbn; try down.
  - destruct (truthy_string token); cbn; down.
  - destruct (truthy_string token); cbn; down.
Qed.

Lemma poll_owed (i : Input) (s : State) (d : Detectors) :
  isWatching s = false ->
  isWatching (fst (fst (poll i s d))) = false /\
  (length (snd (poll i s d)) + owed (snd (fst (poll i s d))) <= owed d)%nat.
Proof.
  intros Hw. unfold owed.
  destruct i as [o|o|o| | | | | |p|c|k i']; cbn [poll];
    try (split; [exact Hw | cbn; lia]).
  - pose proof (@ready_owed o s (atReady d) Hw) as (H1 & H2).
    destruct (_pollForCaptchaReady o s (atReady d)) as [[s' pc] evs].
    cbn [fst snd atReady atChallenge atToken] in *. split; [exact H1 | lia].
  - pose proof (@challenge_owed o s (atChallenge d) Hw) as (H1 & H2).
    destruct (_pollForChallengeFrame o s (atChallenge d)) as [[s' pc] evs].
    cbn [fst snd atReady atChallenge atToken] in *. split; [exact H1 | lia].
  - pose proof (@token_owed o s (atToken d) Hw) as (H1 & H2).
    destruct (_pollForToken o s (atToken d)) as [[s' pc] evs].
    cbn [fst snd atReady atChallenge atToken] in *. split; [exact H1 | lia].
  - unfold issueRead. rewrite Hw. split; [exact Hw|].
    destruct (atReady d); cbn; lia.
  - unfold issueRead. rewrite Hw. split; [exact Hw|].
    destruct (atChallenge d); cbn; lia.
  - unfold issueTokenRead. rewrite Hw. split; [exact Hw|].
    destruct (atToken d); cbn; lia.
Qed.

Lemma stopped_step (sys : System) (i : Input) :
  isStart i = false -> isWatching (state sys) = false ->
  isWatching (state (step sys i)) = false /\
  exists evs,
    fired (step sys i) = fired sys ++ evs /\
    (length evs + list_sum (map owed (detectors (step sys i)))
     <= list_sum (map owed (detectors sys)))%nat.
Proof.
  intros Hi Hw.
  assert (A : forall n j,
             isWatching (state (pollAt n j sys)) = false /\
             exists evs,
               fired (pollAt n j sys) = fired sys ++ evs /\
               (length evs + list_sum (map owed (detectors (pollAt n j sys)))
                <= list_sum (map owed (detectors sys)))%nat).
  { intros n j. unfold pollAt.
    destruct (nth_error (detectors sys) n) as [d|] eqn:Hn.
    - pose proof (@poll_owed j (state sys) d Hw) as (E1 & E2).
      destruct (poll j (state sys) d) as [[s d'] evs]. cbn [fst snd state fired detectors] in *.
      split; [exact E1|]. exists evs. split; [reflexivity|].
      pose proof (replace_sum owed n d' (detectors sys) Hn). lia.
    - split; [exact Hw|]. exists []. rewrite app_nil_r. split; [reflexivity | cbn; lia]. }
  destruct i; cbn [step]; try apply A; try discriminate Hi;
    (split; [reflexivity|]); exists []; rewrite app_nil_r; (split; [reflexivity|]);
    cbn [length detectors Nat.add]; apply Nat.le_refl.
Qed.

Lemma stopped_run (inputs : list Input) :
  forall sys,
    Forall (fun i => isStart i = false) inputs ->
    isWatching (state sys) = false ->
    exists late,
      fired (run inputs sys) = fired sys ++ late /\
      (length late <= list_sum (map owed (detectors sys)))%nat.
Proof.
  induction inputs as [|i inputs IH]; intros sys Hin Hw.
  - exists []. rewrite app_nil_r. split; [reflexivity | cbn; lia].
  - inversion Hin as [|? ? Hi Hrest]; subst.
    cbn [run fold_left]. change (fold_left step inputs ?x) with (run inputs x).
    destruct (@stopped_step sys i Hi Hw) as (Hw' & evs & E1 & E2).
    destruct (IH (step sys i) Hrest Hw') as (late & L1 & L2).
    exists (evs ++ late). rewrite L1, E1, app_assoc. split; [reflexivity|].
    rewrite length_app. lia.
Qed.

Lemma owed_reads (l : list Detectors) :
  (list_sum (map owed l) <= 2 * list_sum (map awaited l))%nat.
Proof.
  induction l as [|d l IH]; cbn [map list_sum fold_right]; [lia|].
  unfold list_sum in IH.
  assert (owed d <= 2 * awaited d)%nat; [|lia].
  unfold owed, awaited.
  destruct (atReady d), (atChallenge d), (atToken d); cbn; lia.
Qed.

(** X10. After [stopWatching()] or [cleanup()], and until the detectors
    are started again, callbacks are invoked only for reads that were
    pending at the call, at most two for each of them; when no read was
    pending, no callback is invoked any more. *)
Theorem stopped_watcher_is_silent (before after : list Input) (call : Input) :
  call = StopWatching \/ call = Cleanup ->
  Forall (fun i => isStart i = false) after ->
  exists late,
    fired (run (before ++ call :: after) started) = fired (run before started) ++ late /\
    (length late <= 2 * reads (run before started))%nat /\
    (reads (run before started) = 0%nat -> late = []).
Proof.
  intros Hcall Hafter. rewrite run_app.
  change (run (call :: after) (run before started))
    with (run after (step (run before started) call)).
  assert (Hw : isWatching (state (step (run before started) call)) = false)
    by (destruct Hcall as [-> | ->]; reflexivity).
  assert (Hd : detectors (step (run before started) call) = detectors (run before started))
    by (destruct Hcall as [-> | ->]; reflexivity).
  assert (Hf : fired (step (run before started) call) = fired (run before started))
    by (destruct Hcall as [-> | ->]; reflexivity).
  destruct (@stopped_run after _ Hafter Hw) as (late & L1 & L2).
  rewrite Hd in L2. rewrite Hf in L1.
  pose proof (owed_reads (detectors (run before started))) as B.
  exists late. split; [exact L1|]. unfold reads.
  split; [etransitivity; [exact L2 | exact B]|].
  intros Z. rewrite Z in B. destruct late; [reflexivity|].
  cbn [length] in L2. apply Nat.le_0_r in B. rewrite B in L2. inversion L2.
Qed.

Lemma stopped_watcher_is_silent_witness :
  exists late,
    fired (run (lateToken ++ StopWatching :: afterStop) started)
    = fired (run lateToken started) ++ late /\
    (length late <= 2 * reads (run lateToken started))%nat /\
    (reads (run lateToken started) = 0%nat -> late = []).
Proof.
  apply stopped_watcher_is_silent; [now left | repeat constructor].
Defined.

(** The read that was pending when the watcher was stopped still invokes
    its callback; the reads after it do not. *)
Example pending_read_still_fires :
  fired (run (lateToken ++ StopWatching :: afterStop) started)
  = [TokenFound "03AGdBq27"].
Proof. reflexivity. Qed.

(** ** What the visual solver returns *)

Import Watcher Analyzer Visual VisualResults.

Lemma raceAfterCheckbox_reported (events : list Event) (value : string) :
  raceAfterCheckbox events = Some (Token value) -> In (TokenFound value) events.
Proof.
  induction events as [|e events IH]; [discriminate|].
  destruct e; cbn [raceAfterCheckbox]; intros H;
    try (right; now apply IH); try discriminate H.
  injection H as <-. now left.
Qed.

Lemma raceAfterVerify_reported (events : list Event) (value : string) :
  raceAfterVerify events = Token value -> In (TokenFound value) events.
Proof.
  induction events as [|e events IH]; [discriminate|].
  destruct e; cbn [raceAfterVerify]; intros H;
    try (right; now apply IH); try discriminate H.
  injection H as <-. now left.
Qed.

Section Reported.

Variable env : Env.

Lemma handleCheckboxClick_reported :
  yields (reportedOrNull env) (handleCheckboxClick env).
Proof.
  unfold handleCheckboxClick.
  destruct (negb (checkbox env)); [yield|].
  apply yields_try_catch; [|yield].
  apply yields_bind. intros _. apply yields_bind. intros _.
  intros st a st' H. rewrite run_ask in H.
  destruct (raceAfterCheckbox (timeline env (tick st))) as [[value|info|]|] eqn:E;
    try discriminate H; injection H as <- _; try exact I.
  exists (tick st). now apply raceAfterCheckbox_reported.
Qed.

Lemma verifyChallenge_reported (fuel : nat) :
  yields (reportedOrNull env) (verifyChallenge env fuel).
Proof.
  induction fuel as [|fuel IH]; cbn [verifyChallenge]; [yield|].
  apply yields_bind. intros frame. destruct (negb frame); [yield|].
  apply yields_bind. intros ready. destruct (negb ready); [yield|].
  apply yields_bind. intros should. destruct (negb should); [yield|].
  apply yields_bind. intros button. destruct (negb button); [yield|].
  apply yields_bind. intros _. apply yields_bind. intros _.
  intros st a st' H. rewrite run_ask in H.
  destruct (raceAfterVerify (timeline env (tick st))) as [value|info|] eqn:E.
  - injection H as <- _. exists (tick st). now apply raceAfterVerify_reported.
  - revert H. generalize (mkSt (S (tick st)) (trace st)). intros st0 H.
    revert st0 a st' H. fold (yields (reportedOrNull env)
      (if negb (hasCorrectFormat info)
       then _ <- refreshChallenge env;; ret None
       else success <- handleChallengeTiles env info;;
            (if negb success then ret None else verifyChallenge env fuel))).
    yield.
  - injection H as <- _. exact I.
Qed.

Lemma roundsLoop_reported (fuel left : nat) :
  yields (fun r => reportedOrNull env r /\ (r = None \/ truthy_opt r = true))
         (roundsLoop env fuel left).
Proof.
  induction left as [|left IH]; cbn [roundsLoop].
  - apply yields_ret. split; [exact I | now left].
  - apply yields_bind. intros [info|]; [|exact IH].
    apply yields_bind. intros success. destruct (negb success); [exact IH|].
    apply yields_bind_with with (Q := reportedOrNull env);
      [apply verifyChallenge_reported|]. intros token Ht.
    destruct (truthy_opt token) eqn:E; [|exact IH].
    apply yields_ret. split; [exact Ht | now right].
Qed.

End Reported.

(** X11. A token that the visual solver returns is never empty and was
    handed to [onTokenFound] by the watcher during one of the waits of the
    solver; any other run that returns, returns null. *)
Theorem solver_returns_reported_token (env : Env) (fuel : nat) (st st' : St Action)
        (r : option string) :
  solveCaptchaChallenge env fuel st = (Done r, st') ->
  r = None \/
  exists value, r = Some value /\ truthy_string value = true /\ reported env value.
Proof.
  intros H.
  assert (Y : yields (fun r => reportedOrNull env r /\ (r = None \/ truthy_opt r = true))
                     (solveCaptchaChallenge env fuel)).
  { unfold solveCaptchaChallenge. apply yields_finally.
    apply yields_try_catch; [|intros e; apply yields_ret; split; [exact I | now left]].
    apply yields_bind. intros _.
    apply yields_bind_with with (Q := reportedOrNull env);
      [apply handleCheckboxClick_reported|]. intros initialResult Hi.
    destruct (truthy_opt initialResult) eqn:E.
    - apply yields_ret. split; [exact Hi | now right].
    - apply roundsLoop_reported. }
  destruct (Y st r st' H) as [Hr [Hn | Ht]]; [now left|].
  destruct r as [value|]; [|now left].
  right. exists value. auto.
Qed.

Lemma solver_returns_reported_token_witness :
  Some "03AGdBq27" = None \/
  exists value, Some "03AGdBq27" = Some value /\ truthy_string value = true /\
                reported immediate value.
Proof.
  apply (@solver_returns_reported_token immediate 1 start
           (snd (solveCaptchaChallenge immediate 1 start))).
  reflexivity.
Defined.

(** *** The watcher is cleaned up *)

Section CleanedUp.

Variable env : Env.

Local Abbreviation kept := (preserves (counting isWatcherCleanup)).

Lemma kept_getCurrentChallenge : kept (getCurrentChallenge env).
Proof.
  unfold getCurrentChallenge. preserve;
    try (apply preserves_refreshChallenge; reflexivity); preserve.
Qed.

Lemma kept_handleCheckboxClick : kept (handleCheckboxClick env).
Proof. unfold handleCheckboxClick. preserve. Qed.

Lemma kept_roundsLoop (fuel left : nat) : kept (roundsLoop env fuel left).
Proof.
  induction left as [|left IH]; cbn [roundsLoop]; [preserve|].
  apply preserves_bind; [apply kept_getCurrentChallenge|].
  intros [info|]; [|exact IH].
  apply preserves_bind;
    [apply preserves_tilesLoop; intros; reflexivity|].
  intros success. destruct (negb success); [exact IH|].
  apply preserves_bind;
    [apply preserves_verifyChallenge; intros; reflexivity|].
  intros token. destruct (truthy_opt token); [preserve | exact IH].
Qed.

Lemma kept_solving (fuel : nat) :
  kept (try_catch
          (_ <- waitForCaptchaReady env ;;
           initialResult <- handleCheckboxClick env ;;
           if truthy_opt initialResult then ret initialResult
           else solveChallengeLoop env fuel)
          (fun _ => ret None)).
Proof.
  apply preserves_try_catch; [|preserve].
  apply preserves_bind; [unfold waitForCaptchaReady; preserve|]. intros _.
  apply preserves_bind; [apply kept_handleCheckboxClick|]. intros initialResult.
  destruct (truthy_opt initialResult); [preserve | apply kept_roundsLoop].
Qed.

(** X12. [watcher.cleanup()] is the last action of every run of the
    visual solver that settles, and it happens once; a run that does not
    settle (it waits for a callback that never comes) never cleans the
    watcher up. *)
Theorem cleanup_when_solver_returns (fuel : nat) (st : St Action) :
  (settled (fst (solveCaptchaChallenge env fuel st)) ->
   exists pre,
     trace (snd (solveCaptchaChallenge env fuel st)) = pre ++ [WatcherCleanup] /\
     count isWatcherCleanup pre = counting isWatcherCleanup st) /\
  (~ settled (fst (solveCaptchaChallenge env fuel st)) ->
   counting isWatcherCleanup (snd (solveCaptchaChallenge env fuel st))
   = counting isWatcherCleanup st).
Proof.
  pose proof (kept_solving fuel st) as K.
  unfold solveCaptchaChallenge, finally.
  destruct (try_catch _ _ st) as [[r|e| |] st1]; cbn [fst snd trace] in *; split;
    try (intros []; fail); try (intros _; exact K);
    try (intros H; now destruct H).
  - intros _. exists (trace st1). now split.
  - intros _. exists (trace st1). now split.
Qed.

End CleanedUp.

Lemma cleanup_when_solver_returns_witness :
  (exists pre,
      trace (snd (solveCaptchaChallenge immediate 1 start)) = pre ++ [WatcherCleanup] /\
      count isWatcherCleanup pre = counting isWatcherCleanup start) /\
  counting isWatcherCleanup (snd (solveCaptchaChallenge neverReady 1 start))
  = counting isWatcherCleanup start.
Proof.
  split.
  - apply (proj1 (cleanup_when_solver_returns immediate 1 start)). exact I.
  - apply (proj2 (cleanup_when_solver_returns neverReady 1 start)). intros H. exact H.
Defined.

(** ** The grid of tiles and the choice of the analyzer *)

Import Tiles Analyzer Analysis.

(** X13. On a complete grid of 3 by 3 or 4 by 4 tiles, the coordinates
    with a row and a column between 1 and the grid size correspond one to
    one to the tiles: tile [i] is clicked through the coordinate of row
    [i / g + 1] and column [i mod g + 1], and two coordinates with columns
    in that range that click the same tile are the same. *)
Theorem grid_coordinates_reach_every_tile (g : nat) :
  g = 3%nat \/ g = 4%nat ->
  (forall i, (i < g * g)%nat ->
     clickTile (Returned (g * g)) (coordinate (i / g + 1) (i mod g + 1))
     = (true, Some i)) /\
  (forall row col row' col' tile,
     (1 <= col <= g)%nat -> (1 <= col' <= g)%nat ->
     clickTile (Returned (g * g)) (coordinate row col) = (true, Some tile) ->
     clickTile (Returned (g * g)) (coordinate row' col') = (true, Some tile) ->
     row = row' /\ col = col').
Proof.
  intros Hg.
  assert (Hsize : (if (g * g =? 9)%nat then 3%Z else 4%Z) = Z.of_nat g).
  { destruct Hg as [-> | ->]; reflexivity. }
  assert (Hpos : (0 < g)%nat) by (destruct Hg; lia).
  assert (Hfew : (Z.of_nat (g * g) <= 2 ^ 38)%Z) by (destruct Hg as [-> | ->]; cbn; lia).
  split.
  - intros i Hi. rewrite clickTile_coordinate by exact Hfew. cbv zeta.
    rewrite Hsize.
    replace ((Z.of_nat (i / g + 1) - 1) * Z.of_nat g + (Z.of_nat (i mod g + 1) - 1))%Z
      with (Z.of_nat i).
    + replace (0 <=? Z.of_nat i)%Z with true by (symmetry; apply Z.leb_le; lia).
      replace (Z.of_nat i <? Z.of_nat (g * g))%Z with true
        by (symmetry; apply Z.ltb_lt; lia).
      cbn [andb]. now rewrite Nat2Z.id.
    + rewrite (Nat.div_mod_eq i g) at 1. nia.
  - intros row col row' col' tile Hc Hc'.
    rewrite !clickTile_coordinate by exact Hfew. cbv zeta. rewrite Hsize.
    set (a := ((Z.of_nat row - 1) * Z.of_nat g + (Z.of_nat col - 1))%Z).
    set (b := ((Z.of_nat row' - 1) * Z.of_nat g + (Z.of_nat col' - 1))%Z).
    destruct (0 <=? a)%Z eqn:Ha; [|discriminate].
    destruct (a <? Z.of_nat (g * g))%Z; [|discriminate]. cbn [andb].
    destruct (0 <=? b)%Z eqn:Hb; [|discriminate].
    destruct (b <? Z.of_nat (g * g))%Z; [|discriminate]. cbn [andb].
    intros [= <-] [= E]. apply Z.leb_le in Ha, Hb.
    assert (Hab : a = b) by lia. unfold a, b in *.
    assert (Hrow : (Z.of_nat row = Z.of_nat row')%Z) by nia.
    split; [lia | nia].
Qed.

Lemma grid_coordinates_reach_every_tile_witness :
  clickTile (Returned 9) (coordinate 3 2) = (true, Some 7%nat).
Proof.
  apply (proj1 (grid_coordinates_reach_every_tile (or_introl eq_refl)) 7%nat).
  lia.
Defined.

(** ** The texts of the analyzer *)

Import Analyzer Analysis.

Lemma startsWith_refl (s : string) : startsWith s s = true.
Proof. induction s as [|c s IH]; simpl; [reflexivity|]. now rewrite Ascii.eqb_refl. Qed.

Lemma startsWith_trans (x y z : string) :
  startsWith x y = true -> startsWith y z = true -> startsWith x z = true.
Proof.
  revert y z. induction x as [|a x IH]; intros y z Hxy Hyz; [reflexivity|].
  destruct y as [|b y]; [discriminate Hxy|].
  destruct z as [|c z]; [discriminate Hyz|].
  cbn [startsWith] in *.
  apply andb_prop in Hxy as [Hab Hxy]. apply andb_prop in Hyz as [Hbc Hyz].
  apply Ascii.eqb_eq in Hab. apply Ascii.eqb_eq in Hbc. subst.
  rewrite Ascii.eqb_refl. cbn [andb]. now apply (IH y z).
Qed.

(** A text found in a prefix, or in a suffix, is found in the whole. *)
Lemma includes_prefix (sub x y : string) :
  startsWith x y = true -> includes sub x = true -> includes sub y = true.
Proof.
  revert y. induction x as [|a x IH]; intros y Hxy H.
  - cbn [includes] in H. rewrite orb_false_r in H.
    destruct sub; [|discriminate H]. now destruct y.
  - destruct y as [|b y]; [discriminate Hxy|].
    cbn [includes] in *. apply orb_prop in H as [H|H].
    + now rewrite (startsWith_trans _ _ _ H Hxy).
    + cbn [startsWith] in Hxy. apply andb_prop in Hxy as [_ Hxy].
      rewrite (IH y Hxy H). apply orb_true_r.
Qed.

Lemma includes_tail (sub : string) (c : ascii) (s : string) :
  includes sub s = true -> includes sub (String c s) = true.
Proof. intros H. cbn [includes]. rewrite H. apply orb_true_r. Qed.

Lemma includes_trimStart (sub s : string) :
  includes sub (trimStart s) = true -> includes sub s = true.
Proof.
  induction s as [|c s IH]; cbn [trimStart]; [auto|].
  destruct (is_space c); [|auto]. intros H. apply includes_tail. auto.
Qed.

Lemma trimEnd_prefix (s : string) : startsWith (trimEnd s) s = true.
Proof.
  induction s as [|c s IH]; [reflexivity|]. cbn [trimEnd].
  destruct (trimEnd s) as [|d t] eqn:E.
  - destruct (is_space c); [reflexivity|].
    cbn [startsWith]. now rewrite Ascii.eqb_refl.
  - cbn [startsWith] in *. now rewrite Ascii.eqb_refl.
Qed.

Lemma dropFinalDot_prefix (s : string) : startsWith (dropFinalDot s) s = true.
Proof.
  induction s as [|c s IH]; [reflexivity|]. cbn [dropFinalDot].
  destruct s as [|d s].
  - destruct (c =? ".")%char; [reflexivity|].
    cbn [startsWith]. now rewrite Ascii.eqb_refl.
  - cbn [startsWith] in *. now rewrite Ascii.eqb_refl.
Qed.

Lemma includes_trim (sub s : string) :
  includes sub s = false -> includes sub (trim s) = false.
Proof.
  intros H. unfold trim.
  destruct (includes sub (trimEnd (trimStart s))) eqn:E; [|reflexivity].
  apply (includes_prefix _ _ _ (trimEnd_prefix _)) in E.
  apply includes_trimStart in E. congruence.
Qed.

(** The first piece of a split is a prefix of the text and does not hold
    the separator. *)
Lemma split_head_prefix (sep s : string) :
  startsWith (nth 0 (split sep s) EmptyString) s = true.
Proof.
  unfold split. induction s as [|c s IH]; [reflexivity|].
  cbn [split_from]. destruct (startsWith sep (String c s)); [reflexivity|].
  destruct (split_from sep 0 s) as [|h t]; cbn [nth startsWith] in *;
    rewrite Ascii.eqb_refl; [reflexivity | exact IH].
Qed.

Lemma split_head_excludes (sep s : string) :
  sep <> EmptyString ->
  includes sep (nth 0 (split sep s) EmptyString) = false.
Proof.
  intros Hsep. unfold split. induction s as [|c s IH].
  - cbn. destruct sep; [contradiction | reflexivity].
  - cbn [split_from]. destruct (startsWith sep (String c s)) eqn:E.
    + cbn. destruct sep; [contradiction | reflexivity].
    + pose proof (split_head_prefix sep s) as P. unfold split in P.
      destruct (split_from sep 0 s) as [|h t]; cbn [nth] in *.
      * change (includes sep (String c ""))
          with (startsWith sep (String c "") || includes sep "").
        rewrite IH, orb_false_r.
        destruct (startsWith sep (String c "")) eqn:F; [|reflexivity].
        rewrite (startsWith_trans sep (String c "") (String c s)) in E;
          [discriminate E | exact F |].
        cbn [startsWith]. now rewrite Ascii.eqb_refl.
      * change (includes sep (String c h))
          with (startsWith sep (String c h) || includes sep h).
        rewrite IH, orb_false_r.
        destruct (startsWith sep (String c h)) eqn:F; [|reflexivity].
        rewrite (startsWith_trans sep (String c h) (String c s)) in E;
          [discriminate E | exact F |].
        cbn [startsWith]. now rewrite Ascii.eqb_refl.
Qed.

Lemma trimStart_prefix (x y : string) :
  startsWith x y = true -> startsWith (trimStart x) (trimStart y) = true.
Proof.
  revert y. induction x as [|a x IH]; intros y H; [reflexivity|].
  destruct y as [|b y]; [discriminate H|].
  pose proof H as H'. cbn [startsWith] in H'. apply andb_prop in H' as [Hab Hxy].
  apply Ascii.eqb_eq in Hab. subst b.
  cbn [trimStart]. destruct (is_space a); [now apply IH | exact H].
Qed.

(** X16. The prompt that the analyzer puts into its request never
    contains the instruction of a dynamic challenge, and it is an initial
    part of the challenge text, leading white space aside. *)
Theorem mainPrompt_drops_dynamic_instruction (prompt : string) :
  includes dynamicInstruction (mainPrompt prompt) = false /\
  startsWith (mainPrompt prompt) (trimStart prompt) = true.
Proof.
  unfold mainPrompt. split.
  - destruct (includes _ (dropFinalDot _)) eqn:E; [|reflexivity].
    apply (includes_prefix _ _ _ (dropFinalDot_prefix _)) in E.
    rewrite includes_trim in E; [discriminate E|].
    apply split_head_excludes. discriminate.
  - eapply startsWith_trans; [apply dropFinalDot_prefix|].
    eapply startsWith_trans; [apply trimEnd_prefix|].
    apply trimStart_prefix, split_head_prefix.
Qed.

(** X15. The text that the analyzer hands to [JSON.parse] never contains
    a code fence (three backquotes), whatever the model answered. *)
Theorem jsonStr_has_no_fence (response : string) :
  includes "```" (jsonStr response) = false.
Proof.
  unfold jsonStr.
  destruct (includes "```json" response).
  - apply includes_trim, split_head_excludes. discriminate.
  - destruct (includes "```" response) eqn:E; [|exact E].
    apply includes_trim, split_head_excludes. discriminate.
Qed.

(** ** The transcription *)

Import Transcript.

Section Transcription.

Local Open Scope string_scope.

Lemma append_assoc (x y z : string) : (x ++ y) ++ z = x ++ (y ++ z).
Proof. induction x as [|c x IH]; cbn [append]; [reflexivity | now rewrite IH]. Qed.

Lemma takeRun_afterRun (p : ascii -> bool) (s : string) :
  s = takeRun p s ++ afterRun p s.
Proof.
  induction s as [|c s IH]; [reflexivity|]. cbn [takeRun afterRun].
  destruct (p c); [|reflexivity]. cbn [append]. now rewrite <- IH.
Qed.

Lemma takeRun_all (p : ascii -> bool) (s : string) :
  all_chars p (takeRun p s) = true.
Proof.
  induction s as [|c s IH]; [reflexivity|]. cbn [takeRun].
  destruct (p c) eqn:E; [|reflexivity]. cbn [all_chars]. now rewrite E.
Qed.

Lemma afterRun_head (p : ascii -> bool) (s : string) (c : ascii) (s' : string) :
  afterRun p s = String c s' -> p c = false.
Proof.
  induction s as [|d s IH]; [discriminate|]. cbn [afterRun].
  destruct (p d) eqn:E; [exact IH|]. intros [= <- _]. exact E.
Qed.

Lemma takeRun_stop (p : ascii -> bool) (run : string) (c : ascii) (rest : string) :
  all_chars p run = true -> p c = false ->
  takeRun p (run ++ String c rest) = run /\
  afterRun p (run ++ String c rest) = String c rest.
Proof.
  intros Hrun Hc. induction run as [|d run IH]; cbn [append takeRun afterRun].
  - now rewrite Hc.
  - cbn [all_chars] in Hrun. apply andb_prop in Hrun as [Hd Hrun].
    rewrite Hd. destruct (IH Hrun) as [-> ->]. now split.
Qed.

Lemma stripPrefix_append (p s : string) : stripPrefix p (p ++ s) = Some s.
Proof.
  induction p as [|a p IH]; [reflexivity|]. cbn [append stripPrefix].
  now rewrite Ascii.eqb_refl.
Qed.

Lemma stripPrefix_Some (p s rest : string) :
  stripPrefix p s = Some rest -> s = p ++ rest.
Proof.
  revert s. induction p as [|a p IH]; intros s H.
  - now injection H as <-.
  - destruct s as [|b s]; [discriminate H|]. cbn [stripPrefix] in H.
    destruct (Ascii.eqb_spec a b) as [<-|]; [|discriminate H].
    cbn [append]. now rewrite (IH s H).
Qed.

Lemma match_then_rest (key ws group rest : string) :
  (key ++ ws ++ String quote (group ++ String quote EmptyString)) ++ rest
  = key ++ ws ++ String quote (group ++ String quote rest).
Proof.
  rewrite !append_assoc. cbn [append]. now rewrite append_assoc.
Qed.

(** The shape of a match. *)
Lemma matchAt_shape (s matched group : string) :
  matchAt s = Some (matched, group) ->
  exists ws rest,
    s = matched ++ rest /\
    matched = textKey ++ ws ++ String quote (group ++ String quote EmptyString) /\
    all_chars is_space ws = true /\
    all_chars not_quote group = true /\ group <> EmptyString.
Proof.
  unfold matchAt. destruct (stripPrefix textKey s) as [s1|] eqn:E1; [|discriminate].
  destruct (afterRun is_space s1) as [|q s2] eqn:E2; [discriminate|].
  destruct (Ascii.eqb_spec q quote) as [->|]; [|discriminate].
  destruct (takeRun not_quote s2) as [|g group'] eqn:E3; [discriminate|].
  destruct (afterRun not_quote s2) as [|q' rest] eqn:E4; [discriminate|].
  intros [= <- <-]. exists (takeRun is_space s1), rest.
  assert (Hq : q' = quote).
  { apply afterRun_head in E4. unfold not_quote in E4.
    apply negb_false_iff in E4. now apply Ascii.eqb_eq in E4. }
  subst q'. repeat split.
  - rewrite (@stripPrefix_Some textKey s s1 E1).
    rewrite (takeRun_afterRun is_space s1) at 1. rewrite E2.
    rewrite (takeRun_afterRun not_quote s2) at 1. rewrite E3, E4.
    symmetry.
    exact (match_then_rest textKey (takeRun is_space s1) (String g group') rest).
  - apply takeRun_all.
  - rewrite <- E3. apply takeRun_all.
  - discriminate.
Qed.

Lemma quote_not_space : is_space quote = false.
Proof. reflexivity. Qed.

Lemma matchAt_build (ws group rest : string) :
  all_chars is_space ws = true ->
  all_chars not_quote group = true -> group <> EmptyString ->
  matchAt (textKey ++ ws ++ String quote (group ++ String quote rest))
  = Some (textKey ++ ws ++ String quote (group ++ String quote EmptyString), group).
Proof.
  intros Hws Hg Hne. unfold matchAt. rewrite stripPrefix_append.
  destruct (takeRun_stop is_space ws quote (group ++ String quote rest) Hws quote_not_space)
    as [-> ->].
  rewrite Ascii.eqb_refl.
  destruct (takeRun_stop not_quote group quote rest Hg eq_refl) as [-> ->].
  destruct group; [contradiction | reflexivity].
Qed.

Lemma textFields_from_skipped (s : string) :
  forall skip, (String.length s <= skip)%nat -> textFields_from skip s = [].
Proof.
  induction s as [|c s IH]; intros skip H; [reflexivity|].
  cbn [String.length] in H. destruct skip as [|k]; [lia|].
  cbn [textFields_from]. apply IH. lia.
Qed.

(** A matched text matches again, as a whole and with the same group. *)
Lemma textFields_of_match (s matched group : string) :
  matchAt s = Some (matched, group) -> textFields matched = [(matched, group)].
Proof.
  intros H. destruct (@matchAt_shape s matched group H) as (ws & rest & _ & Hm & Hws & Hg & Hne).
  assert (Hagain : matchAt matched = Some (matched, group)).
  { rewrite Hm at 1. rewrite (@matchAt_build ws group "" Hws Hg Hne). now rewrite <- Hm. }
  unfold textFields. destruct matched as [|c matched']; [now rewrite Hm|].
  cbn [textFields_from]. rewrite Hagain.
  rewrite textFields_from_skipped; [reflexivity|]. cbn [String.length]. lia.
Qed.

Lemma textFields_from_are_matches (s : string) :
  forall skip m, In m (textFields_from skip s) -> exists t, matchAt t = Some m.
Proof.
  induction s as [|c s IH]; intros skip m H; [contradiction|].
  cbn [textFields_from] in H. destruct skip as [|k]; [|exact (IH k m H)].
  destruct (matchAt (String c s)) as [[matched group]|] eqn:E.
  - destruct H as [<- | H]; [now exists (String c s) | exact (IH _ m H)].
  - exact (IH 0%nat m H).
Qed.

Lemma last_In {A : Type} (l : list A) (d : A) : In (last l d) (d :: l).
Proof.
  destruct l as [|x l]; [now left|]. right.
  revert x. induction l as [|y l IH]; intros x; [now left|].
  right. apply (IH y).
Qed.

(** The transcript is the group of the last match. *)
Lemma audioTranscript_last (fullResponse : string) :
  audioTranscript fullResponse
  = match textFields fullResponse with
    | [] => None
    | m :: ms => Some (snd (last ms m))
    end.
Proof.
  unfold audioTranscript. destruct (textFields fullResponse) as [|m ms] eqn:E;
    [reflexivity|].
  cbv zeta.
  assert (Hin : In (last ms m) (textFields_from 0 fullResponse)).
  { fold (textFields fullResponse). rewrite E. apply last_In. }
  destruct (@textFields_from_are_matches fullResponse 0 (last ms m) Hin) as (t & Ht).
  destruct (last ms m) as [matched group]. cbn [fst snd].
  now rewrite (@textFields_of_match t matched group Ht).
Qed.

Lemma audioTranscript_group (fullResponse transcript : string) :
  audioTranscript fullResponse = Some transcript ->
  transcript <> EmptyString /\ all_chars not_quote transcript = true.
Proof.
  rewrite audioTranscript_last.
  destruct (textFields fullResponse) as [|m ms] eqn:E; [discriminate|].
  intros [= <-].
  assert (Hin : In (last ms m) (textFields_from 0 fullResponse)).
  { fold (textFields fullResponse). rewrite E. apply last_In. }
  destruct (@textFields_from_are_matches fullResponse 0 (last ms m) Hin) as (t & Ht).
  destruct (last ms m) as [matched group]. cbn [snd].
  destruct (@matchAt_shape t matched group Ht) as (ws & rest & _ & _ & _ & Hg & Hne).
  now split.
Qed.

(** X17. The transcription taken from the response of the speech
    service is the group of the last match of the text-field pattern. It is
    never empty and holds no double quote; it is null exactly when the
    pattern has no match. *)
Theorem transcript_is_last_text_field (fullResponse : string) :
  match audioTranscript fullResponse with
  | Some transcript =>
      (exists m ms, textFields fullResponse = m :: ms /\ transcript = snd (last ms m)) /\
      transcript <> EmptyString /\ all_chars not_quote transcript = true
  | None => textFields fullResponse = []
  end.
Proof.
  pose proof (audioTranscript_group fullResponse) as G.
  rewrite audioTranscript_last in *.
  destruct (textFields fullResponse) as [|m ms] eqn:E; [reflexivity|].
  split; [now exists m, ms | now apply G].
Qed.

Example transcript_of_chunks : audioTranscript chunked = Some "seven two".
Proof. reflexivity. Qed.

End Transcription.

Import Audio Heard.

(** X18. With that extraction, a transcription that
    [downloadAndTranscribeAudio] returns is a non-empty text without double
    quotes: the test [!transcription] of the solver holds for null only. *)
Theorem transcription_is_never_empty (env : Env) (st st' : St Action)
        (transcription : string) :
  (forall fullResponse, textField env fullResponse = audioTranscript fullResponse) ->
  downloadAndTranscribeAudio env st = (Done (Some transcription), st') ->
  truthy_string transcription = true /\ all_chars not_quote transcription = true.
Proof.
  intros Hfield H.
  assert (Y : yields (fun r => match r with
                               | Some t => t <> EmptyString /\ all_chars not_quote t = true
                               | None => True
                               end)
                     (downloadAndTranscribeAudio env)).
  { unfold downloadAndTranscribeAudio.
    apply yields_try_catch; [|intros e; now apply yields_ret].
    apply yields_bind. intros [audioData|]; [|now apply yields_ret].
    apply yields_bind. intros _. apply yields_bind. intros fullResponse.
    apply yields_ret. rewrite Hfield.
    destruct (audioTranscript fullResponse) as [t|] eqn:E; [|exact I].
    now apply (audioTranscript_group fullResponse). }
  destruct (Y st (Some transcription) st' H) as [Hne Hq]. split; [|exact Hq].
  unfold truthy_string. apply negb_true_iff. now apply String.eqb_neq.
Qed.

Lemma transcription_is_never_empty_witness :
  truthy_string "seven two" = true /\ all_chars not_quote "seven two" = true.
Proof.
  apply (@transcription_is_never_empty heard start
           (snd (downloadAndTranscribeAudio heard start)) "seven two").
  - reflexivity.
  - reflexivity.
Defined.

(** ** The audio session *)

Import Audio AudioResults.

(** *** The audio solver always returns *)

Section AudioReturns.

Variable env : Env.

Lemma total_downloadLoop (left : nat) :
  forall n, total (downloadLoop env left n).
Proof.
  induction left as [|left IH]; intros n; cbn [downloadLoop]; [totalize|].
  apply total_bind; [totalize|]. intros [audioData|]; [totalize|].
  destruct (S n =? maxDownloadAttempts)%nat; [totalize|].
  apply total_bind; [totalize | intros _; apply IH].
Qed.

Lemma returns_downloadAndTranscribeAudio : returns (downloadAndTranscribeAudio env).
Proof.
  unfold downloadAndTranscribeAudio.
  apply returns_try_catch; [|intros e; apply returns_ret].
  apply total_bind; [apply total_downloadLoop|]. totalize.
Qed.

Lemma returns_waitForToken (maxAttempts : nat) : returns (waitForToken env maxAttempts).
Proof. intros st. apply waitForToken_returns. Qed.

Lemma total_raceAfterVerify : total (raceAfterVerify env).
Proof.
  unfold raceAfterVerify.
  apply total_bind; [totalize|]. intros first.
  apply total_bind; [|totalize].
  destruct first; [|totalize..].
  apply total_bind; [apply returns_total, returns_waitForToken|]. totalize.
Qed.

Lemma total_raceAfterAudioButton : total (raceAfterAudioButton env).
Proof.
  unfold raceAfterAudioButton.
  apply total_bind; [totalize|]. intros first.
  apply total_bind; [|totalize]. destruct first; totalize.
Qed.

Lemma total_raceAfterCheckbox : total (raceAfterCheckbox env).
Proof.
  unfold raceAfterCheckbox.
  apply total_bind; [totalize|]. intros first.
  apply total_bind; [|totalize].
  destruct first; [|totalize..].
  apply total_bind; [apply returns_total, returns_waitForToken|]. totalize.
Qed.

Lemma total_afterAudioButton (audioResult : option AudioResult) :
  total (afterAudioButton env audioResult).
Proof.
  destruct audioResult as [[url|]|]; cbn [afterAudioButton]; [|totalize|totalize].
  apply total_bind; [apply returns_total, returns_downloadAndTranscribeAudio|].
  intros [answer|]; [|unfold reloadAudio, element; totalize].
  destruct (truthy_string answer); [|unfold reloadAudio, element; totalize].
  unfold element.
  do 7 (apply total_bind; [solve [totalize]|]; intros ?).
  apply total_bind; [apply total_raceAfterVerify|].
  intros verifyResult. destruct verifyResult as [[token| |]|]; cbn [afterVerify]; totalize.
Qed.

Lemma returns_attempt (audioAttempts : nat) : returns (attempt env audioAttempts).
Proof.
  unfold attempt. apply returns_try_catch; [|intros e; apply returns_ret].
  apply total_bind.
  - destruct (audioAttempts =? 1)%nat; [unfold clickAudioButton|]; totalize.
  - intros proceed. destruct (negb proceed); [totalize|].
    apply total_bind; [apply total_raceAfterAudioButton|].
    apply total_afterAudioButton.
Qed.

Lemma returns_attemptLoop (left : nat) :
  forall audioAttempts, returns (attemptLoop env left audioAttempts).
Proof.
  induction left as [|left IH]; intros n; cbn [attemptLoop]; [apply returns_ret|].
  apply returns_bind; [apply returns_act|]. intros _.
  apply returns_bind; [apply returns_attempt|].
  intros [|result]; [apply IH | apply returns_ret].
Qed.

Lemma returns_solveCaptchaChallenge : returns (solveCaptchaChallenge env).
Proof.
  unfold solveCaptchaChallenge.
  apply returns_try_catch; [|intros e; apply returns_ret].
  destruct (negb (findCaptchaFrame env)); [totalize|].
  apply total_bind; [totalize|]. intros _.
  apply total_bind; [totalize|]. intros _.
  apply total_bind; [apply total_raceAfterCheckbox|].
  intros [[token|]|]; [totalize| |totalize].
  apply total_bind; [apply returns_total, returns_waitForToken|].
  intros immediateToken. destruct (truthy_opt immediateToken); [totalize|].
  apply returns_total, returns_attemptLoop.
Qed.

(** *** How much a session can do *)

Variable p : Action -> bool.
Variables perAttempt perDownload : nat.
Hypothesis p_attempt : forall n, (count p [Attempt n] <= perAttempt)%nat.
Hypothesis p_download : forall n, (count p [AxiosGet n] <= perDownload)%nat.
Hypothesis p_delay : forall ms, p (Delay ms) = false.
Hypothesis p_wit : forall body, p (WitRequest body) = false.
Hypothesis p_read : p ReadToken = false.
Hypothesis p_checkbox : p ClickCheckbox = false.
Hypothesis p_screenshot : p ErrorScreenshot = false.
Hypothesis p_audio : p ClickAudioButton = false.
Hypothesis p_reload : p ClickReload = false.
Hypothesis p_type : forall t, truthy_string t = true -> p (TypeResponse t) = false.
Hypothesis p_verify : p ClickVerify = false.
Hypothesis p_blocked : p Blocked = false.
Hypothesis p_background : p Background = false.

Ltac keep := preserve; try (apply preserves_act; auto); preserve.

Lemma grows_act_le (a : Action) (k : nat) :
  (count p [a] <= k)%nat -> grows p k (act a).
Proof.
  intros H st. unfold counting, act. cbn [snd trace]. rewrite count_app. lia.
Qed.

Lemma grows_downloadLoop (left : nat) :
  forall n, grows p (left * perDownload) (downloadLoop env left n).
Proof.
  induction left as [|left IH]; intros n; cbn [downloadLoop].
  - apply grows_preserves. keep.
  - replace (S left * perDownload)%nat with (perDownload + left * perDownload)%nat by lia.
    apply grows_bind.
    + replace perDownload with (perDownload + 0)%nat by lia.
      apply grows_try_catch; [|intros e; apply grows_preserves; keep].
      replace perDownload with (perDownload + 0)%nat by lia.
      apply grows_bind; [apply grows_act_le, p_download|].
      intros _. apply grows_preserves. keep.
    + intros [audioData|]; [apply grows_weaken with (k := 0%nat); [apply grows_preserves; keep | lia]|].
      destruct (S n =? maxDownloadAttempts)%nat;
        [apply grows_weaken with (k := 0%nat); [apply grows_preserves; keep | lia]|].
      replace (left * perDownload)%nat with (0 + left * perDownload)%nat by lia.
      apply grows_bind; [apply grows_preserves; keep | intros _; apply IH].
Qed.

Lemma kept_tokenLoop (left : nat) : preserves (counting p) (tokenLoop env left).
Proof.
  induction left as [|left IH]; cbn [tokenLoop]; [keep|].
  apply preserves_bind; [keep|]. intros [token|]; [|keep].
  destruct (truthy_opt token); [keep | exact IH].
Qed.

Lemma kept_waitForToken (maxAttempts : nat) :
  preserves (counting p) (waitForToken env maxAttempts).
Proof. unfold waitForToken. apply preserves_try_catch; [apply kept_tokenLoop | keep]. Qed.

Lemma kept_raceAfterVerify : preserves (counting p) (raceAfterVerify env).
Proof.
  unfold raceAfterVerify.
  apply preserves_bind; [keep|]. intros first.
  apply preserves_bind; [|keep].
  destruct first; [|keep..].
  apply preserves_bind; [apply kept_waitForToken|]. keep.
Qed.

Lemma kept_raceAfterAudioButton : preserves (counting p) (raceAfterAudioButton env).
Proof.
  unfold raceAfterAudioButton.
  apply preserves_bind; [keep|]. intros first.
  apply preserves_bind; [|keep]. destruct first; keep.
Qed.

Lemma kept_raceAfterCheckbox : preserves (counting p) (raceAfterCheckbox env).
Proof.
  unfold raceAfterCheckbox.
  apply preserves_bind; [keep|]. intros first.
  apply preserves_bind; [|keep].
  destruct first; [|keep..].
  apply preserves_bind; [apply kept_waitForToken|]. keep.
Qed.

Lemma grows_downloadAndTranscribeAudio :
  grows p (maxDownloadAttempts * perDownload) (downloadAndTranscribeAudio env).
Proof.
  unfold downloadAndTranscribeAudio.
  replace (maxDownloadAttempts * perDownload)%nat
    with (maxDownloadAttempts * perDownload + 0 + 0)%nat by lia.
  apply grows_try_catch; [|intros e; apply grows_preserves; keep].
  apply grows_bind; [apply grows_downloadLoop|].
  intros exit. apply grows_preserves. keep.
Qed.

Lemma grows_afterAudioButton (audioResult : option AudioResult) :
  grows p (maxDownloadAttempts * perDownload) (afterAudioButton env audioResult).
Proof.
  destruct audioResult as [[url|]|]; cbn [afterAudioButton];
    [|apply grows_weaken with (k := 0%nat); [apply grows_preserves; keep | lia]..].
  replace (maxDownloadAttempts * perDownload)%nat
    with (maxDownloadAttempts * perDownload + 0)%nat by lia.
  apply grows_bind; [apply grows_downloadAndTranscribeAudio|].
  intros transcription. apply grows_preserves.
  assert (R : preserves (counting p) (reloadAudio env))
    by (unfold reloadAudio, element; keep).
  destruct transcription as [answer|]; [|exact R].
  destruct (truthy_string answer) eqn:Hanswer; [|exact R].
  unfold element.
  do 7 (apply preserves_bind; [solve [keep]|]; intros ?).
  apply preserves_bind; [apply kept_raceAfterVerify|].
  intros verifyResult. destruct verifyResult as [[token| |]|]; cbn [afterVerify]; keep.
Qed.

Lemma grows_attempt (audioAttempts : nat) :
  grows p (maxDownloadAttempts * perDownload) (attempt env audioAttempts).
Proof.
  unfold attempt.
  replace (maxDownloadAttempts * perDownload)%nat
    with (0 + maxDownloadAttempts * perDownload + 0)%nat by lia.
  apply grows_try_catch; [|intros e; apply grows_preserves; keep].
  apply grows_bind.
  - apply grows_preserves.
    destruct (audioAttempts =? 1)%nat; [unfold clickAudioButton|]; keep.
  - intros proceed. destruct (negb proceed);
      [apply grows_weaken with (k := 0%nat); [apply grows_preserves; keep | lia]|].
    replace (maxDownloadAttempts * perDownload)%nat
      with (0 + maxDownloadAttempts * perDownload)%nat by lia.
    apply grows_bind; [apply grows_preserves, kept_raceAfterAudioButton|].
    apply grows_afterAudioButton.
Qed.

Lemma grows_attemptLoop (left : nat) :
  forall n,
    grows p (left * (perAttempt + maxDownloadAttempts * perDownload))
          (attemptLoop env left n).
Proof.
  induction left as [|left IH]; intros n; cbn [attemptLoop].
  - apply grows_preserves. keep.
  - replace (S left * (perAttempt + maxDownloadAttempts * perDownload))%nat
      with (perAttempt + (maxDownloadAttempts * perDownload
                          + left * (perAttempt + maxDownloadAttempts * perDownload)))%nat
      by lia.
    apply grows_bind; [apply grows_act_le, p_attempt|]. intros _.
    apply grows_bind; [apply grows_attempt|].
    intros [|result]; [apply IH|].
    apply grows_weaken with (k := 0%nat); [apply grows_preserves; keep | lia].
Qed.

Lemma grows_solveCaptchaChallenge :
  grows p (maxAudioAttempts * (perAttempt + maxDownloadAttempts * perDownload))
        (solveCaptchaChallenge env).
Proof.
  unfold solveCaptchaChallenge.
  set (k := (maxAudioAttempts * (perAttempt + maxDownloadAttempts * perDownload))%nat).
  replace k with (k + 0)%nat by lia.
  apply grows_try_catch; [|intros e; apply grows_preserves; keep].
  assert (Z : forall A (m : M Action A), preserves (counting p) m -> grows p k m).
  { intros A m H. apply grows_weaken with (k := 0%nat); [now apply grows_preserves | lia]. }
  destruct (negb (findCaptchaFrame env)); [apply Z; keep|].
  replace k with (0 + (0 + (0 + k)))%nat by lia.
  apply grows_bind; [apply grows_preserves; keep|]. intros _.
  apply grows_bind; [apply grows_preserves; keep|]. intros _.
  apply grows_bind; [apply grows_preserves, kept_raceAfterCheckbox|].
  intros [[token|]|]; [apply Z; keep| |apply Z; keep].
  replace k with (0 + k)%nat by lia.
  apply grows_bind; [apply grows_preserves, kept_waitForToken|].
  intros immediateToken. destruct (truthy_opt immediateToken); [apply Z; keep|].
  apply grows_attemptLoop.
Qed.

End AudioReturns.

(** X19. The audio solver always returns: it neither throws nor waits
    for ever. A session makes at most 3 attempts and requests at most 9
    audio files. *)
Theorem audio_session_is_bounded (env : Env) (st : St Action) :
  (exists r st', solveCaptchaChallenge env st = (Done r, st')) /\
  (counting isAttempt (snd (solveCaptchaChallenge env st))
   <= counting isAttempt st + maxAudioAttempts)%nat /\
  (counting isAxiosGet (snd (solveCaptchaChallenge env st))
   <= counting isAxiosGet st + maxAudioAttempts * maxDownloadAttempts)%nat.
Proof.
  split; [apply returns_solveCaptchaChallenge|]. split.
  - pose proof (@grows_solveCaptchaChallenge env isAttempt 1 0) as H.
    etransitivity; [apply H|]; try reflexivity; intros; try reflexivity;
      unfold maxAudioAttempts, maxDownloadAttempts; cbn; lia.
  - pose proof (@grows_solveCaptchaChallenge env isAxiosGet 0 1) as H.
    etransitivity; [apply H|]; try reflexivity; intros; try reflexivity;
      unfold maxAudioAttempts, maxDownloadAttempts; cbn; lia.
Qed.

(** *** What the audio solver types and returns *)

Section Provenance.

Variable env : Env.

Lemma yields_await {Act A : Type} (oracle : nat -> Outcome A) :
  yields (fun a => exists n, oracle n = Returned a) (@await Act A oracle).
Proof.
  intros st a st' H. unfold await in H.
  destruct (oracle (tick st)) as [a'|e] eqn:E; [|discriminate H].
  injection H as <- _. now exists (tick st).
Qed.

Lemma tokenLoop_read (left : nat) :
  yields (readOrNull env) (tokenLoop env left).
Proof.
  induction left as [|left IH]; cbn [tokenLoop]; [now apply yields_ret|].
  apply yields_bind_with
    with (Q := fun read => match read with
                           | Some token => exists n, tokenRead env n = Returned token
                           | None => True
                           end).
  - apply yields_try_catch; [|intros e; now apply yields_ret].
    apply yields_bind. intros _.
    apply yields_bind_with with (Q := fun a => exists n, tokenRead env n = Returned a);
      [apply yields_await|].
    intros token Ht. now apply yields_ret.
  - intros [token|] Hread; [|now apply yields_ret].
    destruct (truthy_opt token) eqn:E; [|exact IH].
    apply yields_ret. destruct token as [value|]; [|discriminate E].
    split; [exact E | exact Hread].
Qed.

Lemma waitForToken_read (maxAttempts : nat) :
  yields (readOrNull env) (waitForToken env maxAttempts).
Proof.
  unfold waitForToken. apply yields_try_catch; [apply tokenLoop_read|].
  intros e. now apply yields_ret.
Qed.

Lemma afterAudioButton_read (audioResult : option AudioResult) :
  yields (returnsRead env) (afterAudioButton env audioResult).
Proof.
  destruct audioResult as [[url|]|]; cbn [afterAudioButton].
  - apply yields_bind. intros [answer|]; [|unfold reloadAudio; yield; try now apply yields_ret].
    destruct (truthy_string answer); [|unfold reloadAudio; yield; try now apply yields_ret].
    do 7 (apply yields_bind; intros ?).
    apply yields_bind_with
      with (Q := fun verifyResult => match verifyResult with
                                     | Some (VerifyToken token) => readOrNull env (Some token)
                                     | _ => True
                                     end).
    + unfold raceAfterVerify.
      apply yields_bind. intros first.
      apply yields_bind_with
        with (Q := fun verifyResult => match verifyResult with
                                       | Some (VerifyToken token) => readOrNull env (Some token)
                                       | _ => True
                                       end);
        [|intros verifyResult Hv; apply yields_bind; intros _; now apply yields_ret].
      destruct first.
      * apply yields_bind_with with (Q := readOrNull env); [apply waitForToken_read|].
        intros token Ht. apply yields_ret.
        destruct token as [value|]; cbn [truthy_opt option_map]; [|exact I].
        destruct (truthy_string value) eqn:E; [exact Ht | exact I].
      * apply yields_bind. intros failed. apply yields_ret. now destruct failed.
      * apply yields_bind. intros blocked. apply yields_ret. now destruct blocked.
    + intros [[token| |]|] Hv; cbn [afterVerify]; yield; try now apply yields_ret.
  - yield; try now apply yields_ret.
  - now apply yields_ret.
Qed.

Lemma attemptLoop_read (left : nat) :
  forall n, yields (readOrNull env) (attemptLoop env left n).
Proof.
  induction left as [|left IH]; intros n; cbn [attemptLoop]; [now apply yields_ret|].
  apply yields_bind. intros _.
  apply yields_bind_with with (Q := returnsRead env).
  - unfold attempt. apply yields_try_catch; [|intros e; now apply yields_ret].
    apply yields_bind. intros proceed. destruct (negb proceed); [now apply yields_ret|].
    apply yields_bind. intros audioResult. apply afterAudioButton_read.
  - intros [|result] H; [apply IH | now apply yields_ret].
Qed.

Lemma solveCaptchaChallenge_read : yields (readOrNull env) (solveCaptchaChallenge env).
Proof.
  unfold solveCaptchaChallenge.
  apply yields_try_catch; [|intros e; now apply yields_ret].
  destruct (negb (findCaptchaFrame env)); [now apply yields_ret|].
  apply yields_bind. intros _. apply yields_bind. intros _.
  apply yields_bind_with
    with (Q := fun checkboxResult => match checkboxResult with
                                     | Some token => readOrNull env token
                                     | None => True
                                     end).
  - unfold raceAfterCheckbox.
    apply yields_bind. intros first.
    apply yields_bind_with
      with (Q := fun checkboxResult => match checkboxResult with
                                       | Some token => readOrNull env token
                                       | None => True
                                       end);
      [|intros checkboxResult Hc; apply yields_bind; intros _; now apply yields_ret].
    destruct first.
    + apply yields_bind_with with (Q := readOrNull env); [apply waitForToken_read|].
      intros token Ht. apply yields_ret.
      destruct (truthy_opt token); [exact Ht | exact I].
    + apply yields_bind. intros frame. apply yields_ret. now destruct frame.
    + apply yields_bind. intros frame. apply yields_ret. now destruct frame.
  - intros [[token|]|] Hc.
    + now apply yields_ret.
    + apply yields_bind_with with (Q := readOrNull env); [apply waitForToken_read|].
      intros immediateToken Hi.
      destruct (truthy_opt immediateToken); [now apply yields_ret|].
      apply attemptLoop_read.
    + yield; try now apply yields_ret.
Qed.

End Provenance.

(** X20. The audio solver never types an empty answer, and a token that
    it returns is non-empty and was returned by a read of the response
    field of the page. *)
Theorem audio_solver_types_and_returns (env : Env) (st : St Action) :
  (counting typesNothing (snd (solveCaptchaChallenge env st))
   <= counting typesNothing st)%nat /\
  (forall token st',
      solveCaptchaChallenge env st = (Done (Some token), st') ->
      truthy_string token = true /\
      exists n, tokenRead env n = Returned (Some token)).
Proof.
  split.
  - pose proof (@grows_solveCaptchaChallenge env typesNothing 0 0) as H.
    etransitivity; [apply H|]; try reflexivity; intros; try reflexivity;
      try (cbn; lia).
    cbn [typesNothing]. now apply negb_false_iff.
  - intros token st' H. exact (@solveCaptchaChallenge_read env st (Some token) st' H).
Qed.

(** ** The polling helpers *)

Import Polling.

Section MessageChecks.

Variable env : Polling.Env.
Variable phrase : string.

Lemma look_cases (st : St Polling.Action) :
  (look env phrase st = (Done Found, mkSt (3 + tick st) (trace st)) /\
   exists text, shows env text (tick st) /\ includes phrase text = true) \/
  (exists k, (1 <= k <= 3)%nat /\
     look env phrase st = (Done Next, mkSt (k + tick st) (trace st ++ [Wait 100]))) \/
  (exists k message, (1 <= k <= 3)%nat /\ transient message = true /\
     look env phrase st = (Done Next, mkSt (k + tick st) (trace st))) \/
  (exists k message, (1 <= k <= 3)%nat /\ transient message = false /\
     look env phrase st = (Done GiveUp, mkSt (k + tick st) (trace st))).
Proof.
  unfold look, try_catch, pause. rewrite run_await.
  destruct (query env (tick st)) as [[|]|m] eqn:Q.
  - rewrite run_await. cbn [tick trace].
    destruct (visible env (S (tick st))) as [[|]|m] eqn:V.
    + rewrite run_await. cbn [tick trace].
      destruct (textContent env (S (S (tick st)))) as [text|m] eqn:T.
      * destruct (includes phrase text) eqn:I.
        -- left. split; [reflexivity|]. exists text. now repeat split.
        -- right; left. exists 3%nat. split; [lia | reflexivity].
      * destruct (transient m) eqn:E; cbn [negb].
        -- right; right; left. exists 3%nat, m. repeat split; [lia..|exact E].
        -- right; right; right. exists 3%nat, m. repeat split; [lia..|exact E].
    + right; left. exists 2%nat. split; [lia | reflexivity].
    + destruct (transient m) eqn:E; cbn [negb].
      * right; right; left. exists 2%nat, m. repeat split; [lia..|exact E].
      * right; right; right. exists 2%nat, m. repeat split; [lia..|exact E].
  - right; left. exists 1%nat. split; [lia | reflexivity].
  - destruct (transient m) eqn:E; cbn [negb].
    + right; right; left. exists 1%nat, m. repeat split; [lia..|exact E].
    + right; right; right. exists 1%nat, m. repeat split; [lia..|exact E].
Qed.

Lemma messageLoop_bounded (left : nat) :
  forall st,
    exists r st',
      messageLoop env phrase left st = (Done r, st') /\
      (tick st <= tick st' <= tick st + 3 * left)%nat /\
      (counting isWait st' <= counting isWait st + left)%nat /\
      (r = true ->
       exists n text, (tick st <= n)%nat /\ shows env text n /\
                      includes phrase text = true).
Proof.
  induction left as [|left IH]; intros st; cbn [messageLoop].
  - exists false, st. split; [reflexivity|]. split; [lia|]. split; [lia|]. discriminate.
  - unfold bind.
    destruct (look_cases st)
      as [[E (text & Hs & Hi)] | [(k & Hk & E) | [(k & m & Hk & Hm & E) | (k & m & Hk & Hm & E)]]];
      rewrite E.
    + eexists _, _. split; [reflexivity|]. unfold counting. cbn [tick trace].
      split; [lia|]. split; [lia|].
      intros _. exists (tick st), text. split; [lia|]. now split.
    + destruct (IH (mkSt (k + tick st) (trace st ++ [Wait 100])))
        as (r & st' & E' & Ht & Hw & Hr).
      exists r, st'. split; [exact E'|]. cbn [tick trace] in *.
      unfold counting in *. cbn [trace] in *. rewrite count_app in Hw.
      unfold count at 3 in Hw. cbn in Hw.
      split; [lia|]. split; [lia|].
      intros H. destruct (Hr H) as (n & text & Hn & Hs). exists n, text.
      split; [lia | exact Hs].
    + destruct (IH (mkSt (k + tick st) (trace st)))
        as (r & st' & E' & Ht & Hw & Hr).
      exists r, st'. split; [exact E'|]. cbn [tick trace] in *.
      unfold counting in *. cbn [trace] in *.
      split; [lia|]. split; [lia|].
      intros H. destruct (Hr H) as (n & text & Hn & Hs). exists n, text.
      split; [lia | exact Hs].
    + eexists _, _. split; [reflexivity|]. unfold counting. cbn [tick trace].
      split; [lia|]. split; [lia|]. discriminate.
Qed.

End MessageChecks.

(** X21. [checkForBlockingMessage] and [checkForFailedChallenge] always
    return, after at most 3 page calls and one delay per attempt (20
    attempts for the latter). They return true only when the element was
    found, was visible and its text held the phrase looked for. *)
Theorem message_checks_are_bounded (env : Polling.Env) (maxAttempts : nat)
        (st : St Polling.Action) :
  (exists r st',
      checkForBlockingMessage env maxAttempts st = (Done r, st') /\
      (tick st' <= tick st + 3 * maxAttempts)%nat /\
      (counting isWait st' <= counting isWait st + maxAttempts)%nat /\
      (r = true ->
       exists n text, shows env text n /\ includes "Try again later" text = true)) /\
  (exists r st',
      checkForFailedChallenge env st = (Done r, st') /\
      (tick st' <= tick st + 60)%nat /\
      (counting isWait st' <= counting isWait st + 20)%nat /\
      (r = true ->
       exists n text,
         shows env text n /\
         includes "Multiple correct solutions required" text = true)).
Proof.
  split.
  - destruct (messageLoop_bounded env "Try again later" maxAttempts st)
      as (r & st' & E & Ht & Hw & Hr).
    exists r, st'. unfold checkForBlockingMessage, try_catch. rewrite E.
    split; [reflexivity|]. split; [lia|]. split; [lia|].
    intros H. destruct (Hr H) as (n & text & _ & Hs). now exists n, text.
  - destruct (messageLoop_bounded env "Multiple correct solutions required" 20 st)
      as (r & st' & E & Ht & Hw & Hr).
    exists r, st'. unfold checkForFailedChallenge, try_catch. rewrite E.
    split; [reflexivity|]. split; [lia|]. split; [lia|].
    intros H. destruct (Hr H) as (n & text & _ & Hs). now exists n, text.
Qed.

Lemma look_nothing (env : Polling.Env) (phrase : string) (st : St Polling.Action) :
  query env (tick st) = Returned false ->
  look env phrase st = (Done Next, mkSt (S (tick st)) (trace st ++ [Wait 100])).
Proof. intros Q. unfold look, try_catch. rewrite run_await, Q. reflexivity. Qed.

Lemma look_shown (env : Polling.Env) (phrase text : string) (st : St Polling.Action) :
  shows env text (tick st) -> includes phrase text = true ->
  look env phrase st = (Done Found, mkSt (3 + tick st) (trace st)).
Proof.
  intros (Q & V & T) I. cbn [Nat.add] in V, T. unfold look, try_catch.
  rewrite run_await, Q, run_await. cbn [tick trace]. rewrite V, run_await.
  cbn [tick trace]. rewrite T, I. reflexivity.
Qed.

Lemma look_failed (env : Polling.Env) (phrase message : string)
      (st : St Polling.Action) :
  query env (tick st) = Threw message ->
  look env phrase st
  = (Done (if negb (transient message) then GiveUp else Next),
     mkSt (S (tick st)) (trace st)).
Proof.
  intros Q. unfold look, try_catch. rewrite run_await, Q.
  now destruct (negb (transient message)).
Qed.

Lemma messageLoop_finds (env : Polling.Env) (phrase text : string) (k : nat) :
  forall left st,
    (forall i, (i < k)%nat -> query env (tick st + i) = Returned false) ->
    shows env text (tick st + k) -> includes phrase text = true ->
    (k < left)%nat ->
    messageLoop env phrase left st
    = (Done true, mkSt (tick st + k + 3) (trace st ++ repeat (Wait 100) k)).
Proof.
  induction k as [|k IH]; intros left st Hnone Hshow Hinc Hk;
    (destruct left as [|left]; [lia|]); cbn [messageLoop]; unfold bind.
  - rewrite Nat.add_0_r in Hshow. rewrite (look_shown _ _ Hshow Hinc).
    cbn [repeat]. rewrite app_nil_r. unfold ret. do 2 f_equal. lia.
  - rewrite look_nothing by (rewrite <- (Nat.add_0_r (tick st)); apply Hnone; lia).
    rewrite (IH left).
    + cbn [tick trace repeat]. do 2 f_equal; [lia|].
      rewrite <- app_assoc. reflexivity.
    + intros i Hi. cbn [tick]. replace (S (tick st) + i)%nat with (tick st + S i)%nat by lia.
      apply Hnone. lia.
    + cbn [tick]. replace (S (tick st) + k)%nat with (tick st + S k)%nat by lia.
      exact Hshow.
    + exact Hinc.
    + lia.
Qed.

(** X22. When the element is absent for the first [k] attempts and then
    shows a text with the phrase, [k] being smaller than the number of
    attempts, [checkForBlockingMessage] returns true after [k] delays of
    100 ms and [k + 3] page calls. *)
Theorem blocking_message_is_found (env : Polling.Env) (text : string)
        (k maxAttempts : nat) (st : St Polling.Action) :
  (forall i, (i < k)%nat -> query env (tick st + i) = Returned false) ->
  shows env text (tick st + k) ->
  includes "Try again later" text = true ->
  (k < maxAttempts)%nat ->
  checkForBlockingMessage env maxAttempts st
  = (Done true, mkSt (tick st + k + 3) (trace st ++ repeat (Wait 100) k)).
Proof.
  intros Hnone Hshow Hinc Hk. unfold checkForBlockingMessage, try_catch.
  now rewrite (@messageLoop_finds env "Try again later" text k maxAttempts st).
Qed.

Lemma blocking_message_is_found_witness :
  checkForBlockingMessage blockedSoon 20 start
  = (Done true, mkSt 5 [Wait 100; Wait 100]).
Proof.
  apply (@blocking_message_is_found blockedSoon "Try again later" 2 20 start).
  - intros i Hi. cbn. destruct i as [|[|i]]; [reflexivity | reflexivity | lia].
  - repeat split.
  - reflexivity.
  - lia.
Defined.

Lemma messageLoop_transient (env : Polling.Env) (phrase : string) (left : nat) :
  forall st,
    (forall n, exists message, query env n = Threw message /\ transient message = true) ->
    messageLoop env phrase left st
    = (Done false, mkSt (tick st + left) (trace st)).
Proof.
  induction left as [|left IH]; intros st H; cbn [messageLoop].
  - unfold ret. rewrite Nat.add_0_r. now destruct st.
  - unfold bind. destruct (H (tick st)) as (message & Q & T).
    rewrite (look_failed _ _ _ Q), T. cbn [negb]. rewrite (IH _ H).
    cbn [tick trace]. do 2 f_equal. lia.
Qed.

(** X23. A failed read costs [checkForBlockingMessage] an attempt when
    its message names a destroyed execution context or a detached frame,
    and the next attempt follows without a delay: when every read fails that
    way, the check returns false after one read per attempt and no delay at
    all. Any other failure of a read ends the check with false at once. *)
Theorem failed_reads_of_a_message_check (env : Polling.Env) (maxAttempts : nat)
        (st : St Polling.Action) :
  ((forall n, exists message, query env n = Threw message /\ transient message = true) ->
   checkForBlockingMessage env maxAttempts st
   = (Done false, mkSt (tick st + maxAttempts) (trace st))) /\
  (forall message,
      query env (tick st) = Threw message -> transient message = false ->
      checkForBlockingMessage env (S maxAttempts) st
      = (Done false, mkSt (S (tick st)) (trace st))).
Proof.
  split.
  - intros H. unfold checkForBlockingMessage, try_catch.
    now rewrite (messageLoop_transient env "Try again later" maxAttempts st H).
  - intros message Q T. unfold checkForBlockingMessage, try_catch.
    cbn [messageLoop]. unfold bind. rewrite (look_failed _ _ _ Q), T. reflexivity.
Qed.

Lemma failed_reads_of_a_message_check_witness :
  checkForBlockingMessage detached 20 start = (Done false, mkSt 20 []).
Proof.
  apply (proj1 (failed_reads_of_a_message_check detached 20 start)).
  intros n. now exists "Attempted to use detached Frame".
Defined.

(** *** The wait for the audio challenge *)

Lemma audioLoop_bounded (env : Polling.Env) (left : nat) :
  forall st,
    exists r st',
      audioLoop env left st = (Done r, st') /\
      (tick st' <= tick st + left)%nat /\
      (counting isWait st' <= counting isWait st + left)%nat /\
      (forall url, r = Some (Some url) ->
                   exists n, elements env n = Returned (Some url)).
Proof.
  induction left as [|left IH]; intros st; cbn [audioLoop].
  - exists None, st. split; [reflexivity|]. split; [lia|]. split; [lia|]. discriminate.
  - unfold bind at 1, try_catch. rewrite run_await.
    destruct (elements env (tick st)) as [[url|]|message] eqn:E.
    + eexists _, _. split; [reflexivity|]. unfold counting. cbn [tick trace].
      split; [lia|]. split; [lia|]. intros url' [= <-]. now exists (tick st).
    + unfold ret at 1. rewrite run_act.
      destruct (IH (mkSt (tick (mkSt (S (tick st)) (trace st)))
                         (trace (mkSt (S (tick st)) (trace st)) ++ [Wait 100])))
        as (r & st' & E' & Ht & Hw & Hr).
      exists r, st'. split; [exact E'|].
      unfold counting in *. cbn [tick trace] in *. rewrite count_app in Hw.
      unfold count at 3 in Hw. cbn in Hw.
      split; [lia|]. split; [lia|]. exact Hr.
    + eexists _, _. split; [reflexivity|]. unfold counting. cbn [tick trace].
      split; [lia|]. split; [lia|]. discriminate.
Qed.

(** X24. [waitForAudioChallenge] always returns, after at most one page
    call and one delay per attempt and one more call for the HTML of the
    frame; an address it returns was returned by a read of the page. The
    first failed read ends the wait with null. *)
Theorem audio_challenge_wait (env : Polling.Env) (maxAttempts : nat)
        (st : St Polling.Action) :
  (exists r st',
      waitForAudioChallenge env maxAttempts st = (Done r, st') /\
      (tick st' <= tick st + maxAttempts + 1)%nat /\
      (counting isWait st' <= counting isWait st + maxAttempts)%nat /\
      (forall url, r = Some url -> exists n, elements env n = Returned (Some url))) /\
  (forall message,
      elements env (tick st) = Threw message ->
      waitForAudioChallenge env (S maxAttempts) st
      = (Done None, mkSt (S (tick st)) (trace st))).
Proof.
  split.
  - destruct (audioLoop_bounded env maxAttempts st) as (r & st1 & E & Ht & Hw & Hr).
    unfold waitForAudioChallenge, try_catch, bind at 1. rewrite E.
    destruct r as [result|].
    + exists result, st1. split; [reflexivity|]. split; [lia|]. split; [lia|].
      intros url ->. now apply Hr.
    + unfold bind at 1. rewrite run_await.
      destruct (content env (tick st1)) as [html|message];
        (eexists _, _; split; [reflexivity|]); unfold counting in *; cbn [tick trace];
        (split; [lia|]); (split; [lia|]); discriminate.
  - intros message E. unfold waitForAudioChallenge, try_catch, bind at 1.
    cbn [audioLoop]. unfold bind at 1, try_catch. rewrite run_await, E. reflexivity.
Qed.
